(** * ArtMemoryPool: a fixed-size object pool over intrusive pointer lists

    Shallow embedding of [src/ArtMemoryPool.hpp] for an LP64 target:
    [size_t] and pointers are 64-bit words (a [Z] with the wrap-around
    written out), a pointer takes 8 bytes, memory is a flat little-endian
    byte store, [float] is IEEE binary32, and the system allocator
    ([malloc]/[free]) is an external collaborator that answers from a list
    of responses and logs every call.

    [assert] is modelled as in a build without [NDEBUG]: a failed assertion
    aborts, which the operations below report as [None].  The one other
    source of [None] is the float to [size_t] conversion of a value that
    [size_t] cannot hold, which C++ leaves undefined.

    The byte store accepts a write at any address.  A store through an
    address that no allocation provided is undefined in C++ (in practice a
    fault), so what the operations compute after such a store says nothing
    about the program. *)

From Stdlib Require Import ZArith Lia List Bool.
From Stdlib Require Import Floats.SpecFloat.
From stdpp Require Import base option list gmap.

Local Open Scope Z_scope.

(** ** Machine words *)

Module Word.

Definition modulus : Z := 2 ^ 64.

(** Unsigned 64-bit wrap-around. *)
Definition wrap (x : Z) : Z := x mod modulus.

(** The size of a pointer. *)
Definition ptr_size : Z := 8.

End Word.

Import Word.

(** ** IEEE binary32, the type of [mAllocSizeGrow] *)

Module F32.

Definition prec : Z := 24.
Definition emax : Z := 128.

(** Conversion [size_t -> float] (round to nearest, ties to even). *)
Definition of_size_t (n : Z) : spec_float := binary_normalize prec emax n 0 false.

Definition mul (x y : spec_float) : spec_float := SFmul prec emax x y.

Definition leb (x y : spec_float) : bool := SFleb x y.

(** Conversion [float -> size_t]: truncation toward zero; undefined
    ([None]) when the truncated value is not representable. *)
Definition to_size_t (f : spec_float) : option Z :=
  match f with
  | S754_zero _ => Some 0
  | S754_finite s m e =>
      let v := if 0 <=? e then Z.pos m * 2 ^ e else Z.pos m / 2 ^ (- e) in
      if s then (if v =? 0 then Some 0 else None)
      else if v <? modulus then Some v else None
  | _ => None
  end.

(** The literals [1.f] and [2.f]. *)
Definition one : spec_float := Eval cbv in of_size_t 1.
Definition two : spec_float := Eval cbv in of_size_t 2.

End F32.

(** ** Flat byte memory *)

Module Mem.

Abbreviation heap := (gmap Z Z).

Definition load8 (h : heap) (a : Z) : Z := default 0 (h !! a).

Definition store8 (h : heap) (a : Z) (b : Z) : heap := <[a := b]> h.

(** Byte [i] of the word [v], little-endian. *)
Definition byte_of (v : Z) (i : Z) : Z := (v / 2 ^ (8 * i)) mod 256.

(** Writing a pointer: 8 bytes at [a .. a+7] (addresses wrap). *)
Definition store64 (h : heap) (a : Z) (v : Z) : heap :=
  store8 (store8 (store8 (store8 (store8 (store8 (store8 (store8 h
    (wrap a) (byte_of v 0))
    (wrap (a + 1)) (byte_of v 1))
    (wrap (a + 2)) (byte_of v 2))
    (wrap (a + 3)) (byte_of v 3))
    (wrap (a + 4)) (byte_of v 4))
    (wrap (a + 5)) (byte_of v 5))
    (wrap (a + 6)) (byte_of v 6))
    (wrap (a + 7)) (byte_of v 7).

(** Reading a pointer back. *)
Definition load64 (h : heap) (a : Z) : Z :=
  load8 h (wrap a)
  + load8 h (wrap (a + 1)) * 2 ^ 8
  + load8 h (wrap (a + 2)) * 2 ^ 16
  + load8 h (wrap (a + 3)) * 2 ^ 24
  + load8 h (wrap (a + 4)) * 2 ^ 32
  + load8 h (wrap (a + 5)) * 2 ^ 40
  + load8 h (wrap (a + 6)) * 2 ^ 48
  + load8 h (wrap (a + 7)) * 2 ^ 56.

End Mem.

Import Mem.

(** ** The system allocator *)

Inductive event : Type :=
  | EvMalloc (size : Z) (result : Z)
  | EvFree (p : Z).

(** The environment of a pool: memory, the allocator's future answers
    ([0] is a null result; an exhausted list answers null), and the log of
    allocator calls, most recent first. *)
Record Env : Type := mkEnv {
  heap_of : gmap Z Z;
  oracle : list Z;
  trace : list event
}.

Definition malloc (size : Z) (e : Env) : Z * Env :=
  match oracle e with
  | [] => (0, mkEnv (heap_of e) [] (EvMalloc size 0 :: trace e))
  | r :: rest => (wrap r, mkEnv (heap_of e) rest (EvMalloc size (wrap r) :: trace e))
  end.

Definition free (p : Z) (e : Env) : Env :=
  mkEnv (heap_of e) (oracle e) (EvFree p :: trace e).

Definition set_heap (h : gmap Z Z) (e : Env) : Env :=
  mkEnv h (oracle e) (trace e).

(** ** [art::internal::align] *)

Definition align_raw (ptr alignment : Z) : Z :=
  wrap (ptr + wrap (alignment - Z.land ptr (wrap (wrap (Z.shiftl alignment 1) - 1)))).

(** [align] with its assertion [(size_t)ptr % alignment == 0]. *)
Definition align (ptr alignment : Z) : option Z :=
  let r := align_raw ptr alignment in
  if r mod alignment =? 0 then Some r else None.

(** ** [art::internal::PointerList]

    The list is its head pointer [mList]; the links live in memory. *)

Module PointerList.

Definition empty : Z := 0.

(** [operator bool]. *)
Definition nonempty (mList : Z) : bool := negb (mList =? 0).

(** [node->next = mList; mList = node]. *)
Definition push (mList : Z) (ptr : Z) (h : gmap Z Z) : Z * gmap Z Z :=
  (ptr, store64 h ptr mList).

(** [assert(mList); returnValue = mList; mList = mList->next]. *)
Definition pop (mList : Z) (h : gmap Z Z) : option (Z * Z) :=
  if nonempty mList then Some (mList, load64 h mList) else None.

End PointerList.

(** ** [art::MemoryPool<T>] *)

(** What the template parameter contributes. *)
Record CType : Type := mkCType {
  sizeofT : Z;
  alignofT : Z
}.

Record MemoryPool : Type := mkPool {
  mBlockList : Z;
  mChunkList : Z;
  mNextAllocSize : Z;
  mAllocSizeGrow : spec_float;
  mCurrentBlock : Z;
  mCurrentBlockEnd : Z
}.

Definition set_blocks (v : Z) (p : MemoryPool) : MemoryPool :=
  mkPool v (mChunkList p) (mNextAllocSize p) (mAllocSizeGrow p)
         (mCurrentBlock p) (mCurrentBlockEnd p).

Definition set_chunks (v : Z) (p : MemoryPool) : MemoryPool :=
  mkPool (mBlockList p) v (mNextAllocSize p) (mAllocSizeGrow p)
         (mCurrentBlock p) (mCurrentBlockEnd p).

Definition set_next (v : Z) (p : MemoryPool) : MemoryPool :=
  mkPool (mBlockList p) (mChunkList p) v (mAllocSizeGrow p)
         (mCurrentBlock p) (mCurrentBlockEnd p).

Definition set_cursor (b e : Z) (p : MemoryPool) : MemoryPool :=
  mkPool (mBlockList p) (mChunkList p) (mNextAllocSize p) (mAllocSizeGrow p) b e.

Section Pool.

Variable T : CType.

Let sz := sizeofT T.
Let al := alignofT T.

(** The constructor, with its two assertions. *)
Definition construct (allocSizeGrow : spec_float) : option MemoryPool :=
  if (ptr_size <=? sz)
     && F32.leb F32.one allocSizeGrow && F32.leb allocSizeGrow F32.two
  then Some (mkPool PointerList.empty PointerList.empty 1024 allocSizeGrow 0 0)
  else None.

Definition bytesToAlloc (p : MemoryPool) : Z :=
  wrap (wrap (mNextAllocSize p * sz) + al).

(** [mNextAllocSize * mAllocSizeGrow], computed in [float] and converted
    back to [size_t]. *)
Definition grown (p : MemoryPool) : option Z :=
  F32.to_size_t (F32.mul (F32.of_size_t (mNextAllocSize p)) (mAllocSizeGrow p)).

Definition callMalloc (p : MemoryPool) (e : Env) : option (Z * MemoryPool * Env) :=
  let '(memory, e1) := malloc (bytesToAlloc p) e in
  let '(p1, e2) :=
    if negb (memory =? 0)
    then let '(l, h) := PointerList.push (mBlockList p) memory (heap_of e1) in
         (set_blocks l p, set_heap h e1)
    else (p, e1) in
  match grown p1 with
  | Some n => Some (memory, set_next n p1, e2)
  | None => None
  end.

Definition alignedMalloc (p : MemoryPool) (e : Env) : option (Z * MemoryPool * Env) :=
  match callMalloc p e with
  | Some (memory, p1, e1) =>
      match align (wrap (memory + ptr_size)) al with
      | Some a => Some (a, p1, e1)
      | None => None
      end
  | None => None
  end.

Definition allocBlock (p : MemoryPool) (e : Env) : option (MemoryPool * Env) :=
  let allocSize := mNextAllocSize p in
  match alignedMalloc p e with
  | Some (a, p1, e1) =>
      Some (set_cursor a (wrap (a + wrap (allocSize * sz))) p1, e1)
  | None => None
  end.

(** [mCurrentBlock + sizeof(T) <= mCurrentBlockEnd]. *)
Definition has_room (p : MemoryPool) : bool :=
  wrap (mCurrentBlock p + sz) <=? mCurrentBlockEnd p.

Definition createChunk (p : MemoryPool) : option (Z * MemoryPool) :=
  if has_room p then
    let chunk := mCurrentBlock p in
    if chunk mod al =? 0
    then Some (chunk, set_cursor (wrap (mCurrentBlock p + sz)) (mCurrentBlockEnd p) p)
    else None
  else None.

Definition allocate (p : MemoryPool) (e : Env) : option (Z * MemoryPool * Env) :=
  if PointerList.nonempty (mChunkList p) then
    match PointerList.pop (mChunkList p) (heap_of e) with
    | Some (chunk, l) => Some (chunk, set_chunks l p, e)
    | None => None
    end
  else if has_room p then
    match createChunk p with
    | Some (chunk, p1) => Some (chunk, p1, e)
    | None => None
    end
  else
    match allocBlock p e with
    | Some (p1, e1) =>
        match createChunk p1 with
        | Some (chunk, p2) => Some (chunk, p2, e1)
        | None => None
        end
    | None => None
    end.

Definition deallocate (ptr : Z) (p : MemoryPool) (e : Env) : option (MemoryPool * Env) :=
  if negb (ptr =? 0) then
    let '(l, h) := PointerList.push (mChunkList p) ptr (heap_of e) in
    Some (set_chunks l p, set_heap h e)
  else None.

(** The loop of [reserve]: [while (memory != memoryEnd)].  It stops after at
    most [allocSize] rounds, because [memoryEnd] is [memory] advanced
    [allocSize] times; [fuel] is that bound. *)
Fixpoint reserve_loop (fuel : nat) (memory memoryEnd : Z) (mList : Z) (h : gmap Z Z)
  : option (Z * gmap Z Z) :=
  if memory =? memoryEnd then Some (mList, h)
  else match fuel with
       | O => None
       | S fuel' =>
           if (memory <? memoryEnd) && (memory mod al =? 0) then
             let '(l, h1) := PointerList.push mList memory h in
             reserve_loop fuel' (wrap (memory + sz)) memoryEnd l h1
           else None
       end.

Definition reserve (n : Z) (p : MemoryPool) (e : Env) : option (MemoryPool * Env) :=
  if negb (n =? 0) then
    let p0 := set_next n p in
    let allocSize := mNextAllocSize p0 in
    match alignedMalloc p0 e with
    | Some (memory, p1, e1) =>
        let memoryEnd := wrap (memory + wrap (allocSize * sz)) in
        if memory =? 0 then Some (p1, e1)
        else
          match reserve_loop (Z.to_nat allocSize) memory memoryEnd
                             (mChunkList p1) (heap_of e1) with
          | Some (l, h) => Some (set_chunks l p1, set_heap h e1)
          | None => None
          end
    | None => None
    end
  else None.

(** The destructor: [while (mBlockList) ::free(mBlockList.pop())].  The list
    is read from memory, so the walk is bounded by [fuel]. *)
Fixpoint destroy (fuel : nat) (p : MemoryPool) (e : Env) : option (MemoryPool * Env) :=
  if PointerList.nonempty (mBlockList p) then
    match fuel with
    | O => None
    | S fuel' =>
        match PointerList.pop (mBlockList p) (heap_of e) with
        | Some (b, l) => destroy fuel' (set_blocks l p) (free b e)
        | None => None
        end
    end
  else Some (p, e).

End Pool.


(** ** Clients

    A client is a sequence of calls on one pool; the run records what each
    call was given and gave back. *)

Inductive op : Type :=
  | Allocate
  | Deallocate (ptr : Z)
  | Reserve (n : Z).

Inductive call : Type :=
  | Allocated (chunk : Z)
  | Deallocated (ptr : Z)
  | Reserved (n : Z).

Definition step (T : CType) (o : op) (p : MemoryPool) (e : Env)
  : option (call * MemoryPool * Env) :=
  match o with
  | Allocate =>
      match allocate T p e with
      | Some (a, p1, e1) => Some (Allocated a, p1, e1)
      | None => None
      end
  | Deallocate ptr =>
      match deallocate ptr p e with
      | Some (p1, e1) => Some (Deallocated ptr, p1, e1)
      | None => None
      end
  | Reserve n =>
      match reserve T n p e with
      | Some (p1, e1) => Some (Reserved n, p1, e1)
      | None => None
      end
  end.

Fixpoint run (T : CType) (ops : list op) (p : MemoryPool) (e : Env)
  : option (list call * MemoryPool * Env) :=
  match ops with
  | [] => Some ([], p, e)
  | o :: rest =>
      match step T o p e with
      | Some (c, p1, e1) =>
          match run T rest p1 e1 with
          | Some (log, p2, e2) => Some (c :: log, p2, e2)
          | None => None
          end
      | None => None
      end
  end.

(** [k] calls of [allocate] in a row, with the chunks in the order they
    were returned. *)
Fixpoint allocate_many (T : CType) (k : nat) (p : MemoryPool) (e : Env)
  : option (list Z * MemoryPool * Env) :=
  match k with
  | O => Some ([], p, e)
  | S k' =>
      match allocate T p e with
      | Some (a, p1, e1) =>
          match allocate_many T k' p1 e1 with
          | Some (l, p2, e2) => Some (a :: l, p2, e2)
          | None => None
          end
      | None => None
      end
  end.

(** A pool in an empty world: nothing written, nothing logged, and the
    allocator's future answers [answers]. *)
Definition fresh_env (answers : list Z) : Env := mkEnv ∅ answers [].

(** The allocator requests and releases of a log. *)
Definition is_malloc (ev : event) : bool :=
  match ev with EvMalloc _ _ => true | EvFree _ => false end.

Definition is_free (ev : event) : bool :=
  match ev with EvFree _ => true | EvMalloc _ _ => false end.

Definition requests (tr : list event) : nat := length (filter is_malloc tr).

Definition releases (tr : list event) : list Z :=
  omap (fun ev => match ev with EvFree p => Some p | _ => None end) tr.

(** The blocks the allocator handed out, most recent first. *)
Definition acquired (tr : list event) : list Z :=
  omap (fun ev => match ev with
                  | EvMalloc _ r => if r =? 0 then None else Some r
                  | _ => None
                  end) tr.

(** The caller contract: [deallocate] is only given a chunk that
    [allocate] returned and that was not given back since.  [live] is what
    the client holds. *)
Fixpoint remove_one (x : Z) (l : list Z) : list Z :=
  match l with
  | [] => []
  | y :: r => if x =? y then r else y :: remove_one x r
  end.

Definition holds (x : Z) (l : list Z) : bool := existsb (Z.eqb x) l.

Fixpoint respects_contract (live : list Z) (log : list call) : bool :=
  match log with
  | [] => true
  | Allocated a :: r => respects_contract (a :: live) r
  | Deallocated ptr :: r => holds ptr live && respects_contract (remove_one ptr live) r
  | Reserved _ :: r => respects_contract live r
  end.

(** No chunk is returned while the client still holds it. *)
Fixpoint never_reissued (live : list Z) (log : list call) : bool :=
  match log with
  | [] => true
  | Allocated a :: r => negb (holds a live) && never_reissued (a :: live) r
  | Deallocated ptr :: r => never_reissued (remove_one ptr live) r
  | Reserved _ :: r => never_reissued live r
  end.

(** Every chunk returned is a multiple of [alignment]. *)
Fixpoint all_aligned (alignment : Z) (log : list call) : bool :=
  match log with
  | [] => true
  | Allocated a :: r => (a mod alignment =? 0) && all_aligned alignment r
  | _ :: r => all_aligned alignment r
  end.

(** What the allocator answers to the next request ([0]: it fails). *)
Definition next_answer (e : Env) : Z :=
  match oracle e with
  | [] => 0
  | r :: _ => wrap r
  end.

(** ** Types used in the examples *)

(** A node of two pointers: 16 bytes, aligned to 8. *)
Definition Node : CType := mkCType 16 8.

(** Eight bytes aligned to 4, such as a pair of 32-bit integers. *)
Definition IntPair : CType := mkCType 8 4.

(** Sixteen bytes aligned to 16, such as a 128-bit vector. *)
Definition Vec128 : CType := mkCType 16 16.

(** ** Ghost structure used by the invariants *)

(** What the code needs of [T]: at least a pointer wide, a power-of-two
    alignment, and, as for every C++ object type, a size that is a multiple
    of the alignment. *)
Definition type_ok (T : CType) : Prop :=
  ptr_size <= sizeofT T < modulus
  /\ (exists k, 0 <= k <= 63 /\ alignofT T = 2 ^ k)
  /\ sizeofT T mod alignofT T = 0.

(** The [k] chunk addresses [c], [c + size], [c + 2 * size], ... *)
Fixpoint slots (size : Z) (c : Z) (k : nat) : list Z :=
  match k with
  | O => []
  | S k' => c :: slots size (c + size) k'
  end.

(** [lseg h head nodes tail]: in memory [h] the links starting at [head]
    visit exactly [nodes] and then reach [tail]. *)
Fixpoint lseg (h : gmap Z Z) (head : Z) (nodes : list Z) (tail : Z) : Prop :=
  match nodes with
  | [] => head = tail
  | c :: rest => head = c /\ c <> 0 /\ lseg h (load64 h c) rest tail
  end.

(** ** The layout of blocks and the pool invariant *)

Section Layout.

Variable T : CType.

Let sz := sizeofT T.
Let al := alignofT T.

(** The requests of a log with their answers, as pairs (size, address),
    most recent first. *)
Definition blocks (tr : list event) : list (Z * Z) :=
  omap (fun ev => match ev with
                  | EvMalloc s r => Some (s, r)
                  | EvFree _ => None
                  end) tr.

(** The chunk area of a block: where [alignedMalloc] puts the first chunk,
    and where [allocBlock] and [reserve] put the end. *)
Definition area_lo (b : Z * Z) : Z := align_raw (wrap (snd b + ptr_size)) al.

Definition area_hi (b : Z * Z) : Z := area_lo b + (fst b - al).

(** The request was served, its header word lies in the address space, the
    size did not wrap, and the chunk area ends at least one object below
    the top of the address space. *)
Definition block_ok (b : Z * Z) : bool :=
  (0 <? snd b) && (snd b + ptr_size <=? modulus)
  && (al <=? fst b) && (area_hi b + sz <? modulus).

(** Two half-open intervals that do not meet. *)
Definition apart (lo1 hi1 lo2 hi2 : Z) : bool :=
  (hi1 <=? lo2) || (hi2 <=? lo1).

(** The chunk area and the header word of the block [b] lie outside the
    chunk area of the older block [b']. *)
Definition clear_of (b b' : Z * Z) : bool :=
  apart (area_lo b) (area_hi b) (area_lo b') (area_hi b')
  && apart (snd b) (snd b + ptr_size) (area_lo b') (area_hi b').

(** What the pool needs of the allocator for its free-chunk list: every
    request is served, by a block whose chunk area and header stay clear of
    the chunk areas of the blocks served before. *)
Fixpoint allocator_ok (bs : list (Z * Z)) : bool :=
  match bs with
  | [] => true
  | b :: older => block_ok b && forallb (clear_of b) older && allocator_ok older
  end.

(** For the block list as well, chunk areas must stay clear of every
    header word, the block's own included, and header words of each
    other. *)
Definition tidy_with (b b' : Z * Z) : bool :=
  clear_of b b'
  && apart (snd b') (snd b' + ptr_size) (area_lo b) (area_hi b)
  && apart (snd b) (snd b + ptr_size) (snd b') (snd b' + ptr_size).

Definition tidy_block (b : Z * Z) : bool :=
  block_ok b && apart (snd b) (snd b + ptr_size) (area_lo b) (area_hi b).

Fixpoint allocator_tidy (bs : list (Z * Z)) : bool :=
  match bs with
  | [] => true
  | b :: older => tidy_block b && forallb (tidy_with b) older && allocator_tidy older
  end.

(** [c] is a chunk of one of the blocks [bs]. *)
Definition slot (bs : list (Z * Z)) (c : Z) : Prop :=
  exists b, b ∈ bs
            /\ area_lo b <= c /\ c + sz <= area_hi b
            /\ (c - area_lo b) mod sz = 0.

(** The cursor is null, or it marks the uncarved tail of a block. *)
Definition cursor_ok (bs : list (Z * Z)) (p : MemoryPool) : Prop :=
  (mCurrentBlock p = 0 /\ mCurrentBlockEnd p = 0)
  \/ exists b, b ∈ bs
               /\ area_lo b <= mCurrentBlock p
               /\ mCurrentBlock p <= mCurrentBlockEnd p
               /\ mCurrentBlockEnd p = area_hi b
               /\ (mCurrentBlock p - area_lo b) mod sz = 0.

(** The invariant of a pool whose client holds the chunks [live]: the
    free-chunk list is a linked list in memory; its chunks and the live
    ones are pairwise different chunks of acquired blocks, and none of them
    lies in the uncarved tail of the current block. *)
Definition pool_inv (p : MemoryPool) (e : Env) (live : list Z) : Prop :=
  exists fl,
    lseg (heap_of e) (mChunkList p) fl 0
    /\ NoDup (fl ++ live)
    /\ Forall (slot (blocks (trace e))) (fl ++ live)
    /\ cursor_ok (blocks (trace e)) p
    /\ Forall (fun c => ~ (mCurrentBlock p <= c < mCurrentBlockEnd p)) (fl ++ live).

(** The block list is a linked list in memory of the acquired blocks. *)
Definition blocks_inv (p : MemoryPool) (e : Env) : Prop :=
  lseg (heap_of e) (mBlockList p) (map snd (blocks (trace e))) 0.

End Layout.

(** What the client holds after a log. *)
Fixpoint live_after (live : list Z) (log : list call) : list Z :=
  match log with
  | [] => live
  | Allocated a :: r => live_after (a :: live) r
  | Deallocated ptr :: r => live_after (remove_one ptr live) r
  | Reserved _ :: r => live_after live r
  end.

(** ** More vocabulary for runs *)

(** The chunks that the calls of [allocate] returned, in order. *)
Fixpoint allocated (log : list call) : list Z :=
  match log with
  | [] => []
  | Allocated a :: r => a :: allocated r
  | _ :: r => allocated r
  end.

(** Pointers whose 8-byte link words lie in the address space, away from
    null, and do not overlap each other. *)
Fixpoint words_apart (l : list Z) : Prop :=
  match l with
  | [] => True
  | a :: r => (0 < a /\ a + 8 <= modulus)
              /\ Forall (fun b => a + 8 <= b \/ b + 8 <= a) r
              /\ words_apart r
  end.

(** ** Legal calls

    What the pool expects of its client and of the allocator, call by
    call, in the state in which the call is made. *)

(** [allocate] has to acquire a block: the free-chunk list is empty and the
    current block has no room. *)
Definition must_acquire (T : CType) (p : MemoryPool) : bool :=
  negb (PointerList.nonempty (mChunkList p)) && negb (has_room T p).

(** The block request that a pool with the count of [p] is about to make
    is in order: its byte size does not overflow [size_t], and the
    allocator serves it with a block that satisfies [allocator_ok] together
    with the blocks served so far. *)
Definition request_ok (T : CType) (p : MemoryPool) (e : Env) : bool :=
  (mNextAllocSize p * sizeofT T + alignofT T <? modulus)
  && allocator_ok T ((bytesToAlloc T p, next_answer e) :: blocks (trace e)).

(** [deallocate] is given a chunk the client holds, [reserve] a positive
    count, and a call that reaches the allocator finds it in order. *)
Definition legal_call (T : CType) (o : op) (p : MemoryPool) (e : Env)
    (live : list Z) : bool :=
  match o with
  | Allocate => if must_acquire T p then request_ok T p e else true
  | Deallocate ptr => holds ptr live
  | Reserve n => (0 <? n) && request_ok T (set_next n p) e
  end.

(** Every call of [ops] is legal where it is made.  The states come from
    the code itself; should a call not return, nothing is asked of the
    calls after it. *)
Fixpoint legal_run (T : CType) (ops : list op) (p : MemoryPool) (e : Env)
    (live : list Z) : bool :=
  match ops with
  | [] => true
  | o :: rest =>
      legal_call T o p e live
      && match step T o p e with
         | Some (c, p1, e1) => legal_run T rest p1 e1 (live_after live [c])
         | None => true
         end
  end.
(** * Properties *)

(** ** Words *)

Lemma wrap_range (x : Z) : 0 <= wrap x < modulus.
Proof. unfold wrap, modulus. apply Z.mod_pos_bound. lia. Qed.

Lemma wrap_small (x : Z) : 0 <= x < modulus -> wrap x = x.
Proof. unfold wrap. apply Z.mod_small. Qed.

(** ** Memory *)

Lemma bytes_recompose (v : Z) :
  0 <= v < modulus ->
  byte_of v 0 + byte_of v 1 * 2 ^ 8 + byte_of v 2 * 2 ^ 16 + byte_of v 3 * 2 ^ 24
  + byte_of v 4 * 2 ^ 32 + byte_of v 5 * 2 ^ 40 + byte_of v 6 * 2 ^ 48
  + byte_of v 7 * 2 ^ 56 = v.
Proof.
  unfold modulus, byte_of. intros Hv.
  change (8 * 0) with 0; change (8 * 1) with 8; change (8 * 2) with 16;
  change (8 * 3) with 24; change (8 * 4) with 32; change (8 * 5) with 40;
  change (8 * 6) with 48; change (8 * 7) with 56.
  Z.to_euclidean_division_equations; lia.
Qed.

Ltac byte_lookup :=
  unfold store64, store8, load8;
  rewrite ?wrap_small by (unfold modulus in *; lia);
  repeat (rewrite lookup_insert_ne by lia);
  first [ rewrite lookup_insert_eq; reflexivity | reflexivity ].

Lemma load8_store64_other (h : gmap Z Z) (a v b : Z) :
  0 <= a -> a + 8 <= modulus -> 0 <= b < modulus ->
  (b < a \/ a + 8 <= b) ->
  load8 (store64 h a v) b = load8 h b.
Proof. intros. byte_lookup. Qed.

(** A pointer written at [a] is read back from [a]. *)
Lemma load64_store64_same (h : gmap Z Z) (a v : Z) :
  0 <= a -> a + 8 <= modulus -> 0 <= v < modulus ->
  load64 (store64 h a v) a = v.
Proof.
  intros Ha Hb Hv. unfold load64.
  replace (load8 (store64 h a v) (wrap a)) with (byte_of v 0) by (symmetry; byte_lookup).
  replace (load8 (store64 h a v) (wrap (a + 1))) with (byte_of v 1) by (symmetry; byte_lookup).
  replace (load8 (store64 h a v) (wrap (a + 2))) with (byte_of v 2) by (symmetry; byte_lookup).
  replace (load8 (store64 h a v) (wrap (a + 3))) with (byte_of v 3) by (symmetry; byte_lookup).
  replace (load8 (store64 h a v) (wrap (a + 4))) with (byte_of v 4) by (symmetry; byte_lookup).
  replace (load8 (store64 h a v) (wrap (a + 5))) with (byte_of v 5) by (symmetry; byte_lookup).
  replace (load8 (store64 h a v) (wrap (a + 6))) with (byte_of v 6) by (symmetry; byte_lookup).
  replace (load8 (store64 h a v) (wrap (a + 7))) with (byte_of v 7) by (symmetry; byte_lookup).
  apply bytes_recompose; assumption.
Qed.

(** A pointer word that does not overlap the written one is unchanged. *)
Lemma load64_store64_other (h : gmap Z Z) (a v b : Z) :
  0 <= a -> a + 8 <= modulus -> 0 <= b -> b + 8 <= modulus ->
  (b + 8 <= a \/ a + 8 <= b) ->
  load64 (store64 h a v) b = load64 h b.
Proof.
  intros Ha Ha' Hb Hb' Hsep. unfold load64.
  rewrite !(wrap_small b), !(wrap_small (b + _)) by (unfold modulus in *; lia).
  rewrite !load8_store64_other by (unfold modulus in *; lia).
  reflexivity.
Qed.

(** ** The alignment utility *)

Section Align.

Lemma pow2_divides_modulus (k : Z) :
  0 <= k <= 64 -> exists q, modulus = q * 2 ^ k.
Proof.
  intros Hk. exists (2 ^ (64 - k)). unfold modulus.
  rewrite <- Z.pow_add_r by lia. f_equal. lia.
Qed.

(** Reducing modulo a power of two below the word size commutes with
    wrap-around. *)
Lemma wrap_mod_pow2 (x k : Z) :
  0 <= k <= 64 -> wrap x mod 2 ^ k = x mod 2 ^ k.
Proof.
  intros Hk. destruct (pow2_divides_modulus k Hk) as [q Hq].
  assert (0 < 2 ^ k) by (apply Z.pow_pos_nonneg; lia).
  assert (0 < q) by (unfold modulus in Hq; nia).
  unfold wrap. rewrite Hq.
  rewrite (Z.mul_comm q), Z.rem_mul_r by lia.
  rewrite Z.mul_comm, Z.mod_add by lia.
  apply Z.mod_mod. lia.
Qed.

(** The mask [(alignment << 1) - 1] keeps the low [k+1] bits. *)
Lemma align_mask (k : Z) :
  0 <= k <= 63 ->
  wrap (wrap (Z.shiftl (2 ^ k) 1) - 1) = Z.ones (k + 1).
Proof.
  intros Hk. rewrite Z.shiftl_mul_pow2 by lia.
  rewrite <- Z.pow_add_r by lia. rewrite Z.ones_equiv.
  destruct (Z.eq_dec k 63) as [-> | Hne].
  - reflexivity.
  - assert (2 ^ (k + 1) <= 2 ^ 63) by (apply Z.pow_le_mono_r; lia).
    assert (0 < 2 ^ (k + 1)) by (apply Z.pow_pos_nonneg; lia).
    assert (2 ^ 63 < modulus) by (unfold modulus; lia).
    rewrite (wrap_small (2 ^ (k + 1))) by lia.
    rewrite wrap_small by lia. lia.
Qed.

(** What [align] computes: the address moved by
    [alignment - address mod (2 * alignment)], modulo the word size. *)
Lemma align_raw_formula (ptr k : Z) :
  0 <= k <= 63 ->
  align_raw ptr (2 ^ k) = wrap (ptr + (2 ^ k - ptr mod (2 * 2 ^ k))).
Proof.
  intros Hk. unfold align_raw.
  rewrite align_mask by lia.
  rewrite Z.land_ones by lia.
  replace (2 ^ (k + 1)) with (2 * 2 ^ k) by (rewrite Z.pow_add_r by lia; lia).
  unfold wrap. rewrite Z.add_mod_idemp_r by (unfold modulus; lia).
  reflexivity.
Qed.

(** The result is an odd multiple of the alignment. *)
Lemma align_raw_odd_multiple (ptr k : Z) :
  0 <= k <= 63 ->
  align_raw ptr (2 ^ k) mod (2 * 2 ^ k) = 2 ^ k.
Proof.
  intros Hk. rewrite align_raw_formula by lia.
  assert (Hp : 0 < 2 ^ k) by (apply Z.pow_pos_nonneg; lia).
  replace (2 * 2 ^ k) with (2 ^ (k + 1)) by (rewrite Z.pow_add_r by lia; lia).
  rewrite wrap_mod_pow2 by lia.
  replace (2 ^ (k + 1)) with (2 * 2 ^ k) by (rewrite Z.pow_add_r by lia; lia).
  pose proof (Z.div_mod ptr (2 * 2 ^ k) ltac:(lia)) as Hdm.
  replace (ptr + (2 ^ k - ptr mod (2 * 2 ^ k)))
    with (2 ^ k + (ptr / (2 * 2 ^ k)) * (2 * 2 ^ k)) by lia.
  rewrite Z.mod_add by lia. apply Z.mod_small. lia.
Qed.

Lemma align_raw_aligned (ptr k : Z) :
  0 <= k <= 63 -> align_raw ptr (2 ^ k) mod 2 ^ k = 0.
Proof.
  intros Hk. pose proof (align_raw_odd_multiple ptr k Hk) as Hodd.
  assert (Hp : 0 < 2 ^ k) by (apply Z.pow_pos_nonneg; lia).
  pose proof (Z.div_mod (align_raw ptr (2 ^ k)) (2 * 2 ^ k) ltac:(lia)) as Hdm.
  rewrite Hodd in Hdm. rewrite Hdm.
  replace (2 * 2 ^ k * (align_raw ptr (2 ^ k) / (2 * 2 ^ k)) + 2 ^ k)
    with ((2 * (align_raw ptr (2 ^ k) / (2 * 2 ^ k)) + 1) * 2 ^ k) by lia.
  apply Z.mod_mul. lia.
Qed.

(** An aligned result is never the null pointer. *)
Lemma align_raw_nonnull (ptr k : Z) :
  0 <= k <= 63 -> align_raw ptr (2 ^ k) <> 0.
Proof.
  intros Hk Hz. pose proof (align_raw_odd_multiple ptr k Hk) as Hodd.
  assert (Hp : 0 < 2 ^ k) by (apply Z.pow_pos_nonneg; lia).
  rewrite Hz, Z.mod_0_l in Hodd by lia. lia.
Qed.

Lemma align_succeeds (ptr k : Z) :
  0 <= k <= 63 -> align ptr (2 ^ k) = Some (align_raw ptr (2 ^ k)).
Proof.
  intros Hk. unfold align. cbv zeta.
  rewrite align_raw_aligned by lia. reflexivity.
Qed.

End Align.




(** ** Block acquisition *)

Section Acquisition.

Variable T : CType.

Lemma malloc_spec (size : Z) (e : Env) :
  malloc size e =
    (next_answer e,
     mkEnv (heap_of e) (tl (oracle e)) (EvMalloc size (next_answer e) :: trace e)).
Proof. unfold malloc, next_answer. destruct (oracle e); reflexivity. Qed.

(** What one call of [callMalloc] does. *)
Lemma callMalloc_spec (p p1 : MemoryPool) (e e1 : Env) (m : Z) :
  callMalloc T p e = Some (m, p1, e1) ->
  m = next_answer e
  /\ trace e1 = EvMalloc (bytesToAlloc T p) m :: trace e
  /\ oracle e1 = tl (oracle e)
  /\ grown p = Some (mNextAllocSize p1)
  /\ mChunkList p1 = mChunkList p
  /\ mCurrentBlock p1 = mCurrentBlock p
  /\ mCurrentBlockEnd p1 = mCurrentBlockEnd p
  /\ mAllocSizeGrow p1 = mAllocSizeGrow p
  /\ (m = 0 -> mBlockList p1 = mBlockList p /\ heap_of e1 = heap_of e)
  /\ (m <> 0 -> mBlockList p1 = m
                /\ heap_of e1 = store64 (heap_of e) m (mBlockList p)).
Proof.
  unfold callMalloc. rewrite malloc_spec.
  destruct (Z.eqb_spec (next_answer e) 0) as [Hz | Hnz]; cbn [negb].
  - destruct (grown p) as [n |] eqn:Hg; [| discriminate].
    intros [= <- <- <-]. cbn. repeat split; try congruence; try lia.
  - unfold PointerList.push.
    change (grown (set_blocks (next_answer e) p)) with (grown p).
    destruct (grown p) as [n |] eqn:Hg; [| discriminate].
    intros [= <- <- <-]. cbn. repeat split; try congruence; try lia.
Qed.

Lemma alignedMalloc_spec (p p1 : MemoryPool) (e e1 : Env) (a : Z) :
  alignedMalloc T p e = Some (a, p1, e1) ->
  callMalloc T p e = Some (next_answer e, p1, e1)
  /\ align (wrap (next_answer e + ptr_size)) (alignofT T) = Some a.
Proof.
  unfold alignedMalloc.
  destruct (callMalloc T p e) as [[[m p'] e'] |] eqn:Hc; [| discriminate].
  destruct (align (wrap (m + ptr_size)) (alignofT T)) as [a' |] eqn:Ha; [| discriminate].
  intros [= <- <- <-].
  destruct (callMalloc_spec _ _ _ _ _ Hc) as [-> _]. auto.
Qed.

End Acquisition.

Lemma createChunk_spec (T : CType) (p p1 : MemoryPool) (c : Z) :
  createChunk T p = Some (c, p1) ->
  has_room T p = true
  /\ c = mCurrentBlock p
  /\ c mod alignofT T = 0
  /\ p1 = set_cursor (wrap (c + sizeofT T)) (mCurrentBlockEnd p) p.
Proof.
  unfold createChunk. destruct (has_room T p); [| discriminate].
  destruct (Z.eqb_spec (mCurrentBlock p mod alignofT T) 0) as [Hal |]; [| discriminate].
  intros [= <- <-]. auto.
Qed.

(** ** Allocator exhaustion *)

(** C1 at its failing input: a default-constructed pool of [Node] whose
    first block request the allocator cannot serve.  [allocate] returns the
    non-null address 8 and leaves the cursor at [24, 16392), although no
    block was acquired. *)
Theorem allocate_ignores_exhaustion :
  exists p0 p1 e1,
    construct Node F32.two = Some p0
    /\ allocate Node p0 (fresh_env []) = Some (8, p1, e1)
    /\ trace e1 = [EvMalloc 16392 0]
    /\ acquired (trace e1) = []
    /\ mCurrentBlock p1 = 24
    /\ mCurrentBlockEnd p1 = 16392.
Proof.
  eexists _, _, _. split; [reflexivity |].
  split; [vm_compute; reflexivity |].
  repeat split.
Qed.

(** The same for every type and pool: after a failed request [allocate]
    still returns a non-null chunk, carved at the aligned image of
    address 8. *)
Lemma allocate_after_failed_request (T : CType) (k : Z) (p p1 : MemoryPool)
    (e e1 : Env) (a : Z) :
  alignofT T = 2 ^ k -> 0 <= k <= 63 ->
  mChunkList p = 0 -> has_room T p = false -> next_answer e = 0 ->
  allocate T p e = Some (a, p1, e1) ->
  a = align_raw 8 (2 ^ k) /\ a <> 0
  /\ acquired (trace e1) = acquired (trace e)
  /\ mBlockList p1 = mBlockList p
  /\ mCurrentBlock p1 = wrap (a + sizeofT T)
  /\ mCurrentBlockEnd p1 = wrap (a + wrap (mNextAllocSize p * sizeofT T)).
Proof.
  intros Hal Hk Hfree Hroom Hfail. unfold allocate.
  rewrite Hfree, Hroom. cbn [PointerList.nonempty Z.eqb negb].
  unfold allocBlock.
  destruct (alignedMalloc T p e) as [[[c p'] e'] |] eqn:Ham; [| discriminate].
  destruct (alignedMalloc_spec _ _ _ _ _ _ Ham) as [Hc Ha].
  destruct (callMalloc_spec _ _ _ _ _ _ Hc)
    as (_ & Htr & _ & _ & _ & _ & _ & _ & Hnull & _).
  rewrite Hfail in *. destruct (Hnull eq_refl) as [Hbl _].
  rewrite Hal in Ha. rewrite (align_succeeds _ k Hk) in Ha. injection Ha as <-.
  destruct (createChunk T _) as [[c' p''] |] eqn:Hcc; [| discriminate].
  intros [= <- <- <-].
  destruct (createChunk_spec _ _ _ _ Hcc) as (_ & -> & _ & ->). cbn.
  change (wrap (0 + ptr_size)) with 8.
  repeat split; auto using align_raw_nonnull.
  rewrite Htr. cbn. reflexivity.
Qed.

(** ** The size of a block request *)

(** Every acquisition asks for [count * sizeof(T) + alignof(T)] bytes
    (in [size_t] arithmetic). *)
Lemma acquisition_request (T : CType) (p p1 : MemoryPool) (e e1 : Env) (m : Z) :
  callMalloc T p e = Some (m, p1, e1) ->
  trace e1 =
    EvMalloc (wrap (wrap (mNextAllocSize p * sizeofT T) + alignofT T)) m :: trace e.
Proof.
  intros Hc. destruct (callMalloc_spec _ _ _ _ _ _ Hc) as (_ & Htr & _). exact Htr.
Qed.

(** C3 at its failing input: the first [allocate] of a default pool of
    [IntPair] asks the allocator for 8196 bytes, that is
    [1024 * 8 + 4] and not [1024 * 8 + 4 + 8]; the block it gets at 4096
    ends at 12292, and the cursor it sets up ends at 12300. *)
Theorem request_omits_header :
  exists p0 a p1 e1,
    construct IntPair F32.two = Some p0
    /\ allocate IntPair p0 (fresh_env [4096]) = Some (a, p1, e1)
    /\ trace e1 = [EvMalloc 8196 4096]
    /\ 8196 = 1024 * sizeofT IntPair + alignofT IntPair
    /\ 8196 <> 1024 * sizeofT IntPair + alignofT IntPair + ptr_size
    /\ mCurrentBlockEnd p1 = 12300
    /\ 4096 + 8196 < mCurrentBlockEnd p1.
Proof.
  eexists _, _, _, _. split; [reflexivity |].
  split; [vm_compute; reflexivity |].
  cbn. repeat split; try lia; discriminate.
Qed.

(** ** Linked segments *)

Lemma lseg_app (h : gmap Z Z) (x y z : Z) (l1 l2 : list Z) :
  lseg h x l1 y -> lseg h y l2 z -> lseg h x (l1 ++ l2) z.
Proof.
  revert x. induction l1 as [| c l1 IH]; intros x H1 H2; cbn in *.
  - subst. exact H2.
  - destruct H1 as (-> & Hc & H1). auto.
Qed.

(** A segment only depends on the link words of its nodes. *)
Lemma lseg_frame (h h' : gmap Z Z) (x t : Z) (nodes : list Z) :
  lseg h x nodes t ->
  (forall c, In c nodes -> load64 h' c = load64 h c) ->
  lseg h' x nodes t.
Proof.
  revert x. induction nodes as [| c nodes IH]; intros x H Hsame; cbn in *.
  - exact H.
  - destruct H as (-> & Hc & H). repeat split; auto.
    rewrite Hsame by auto. apply IH; auto.
Qed.

Lemma slots_length (size c : Z) (k : nat) : length (slots size c k) = k.
Proof. revert c. induction k; intros c; cbn; auto. Qed.

Lemma slots_in (size c : Z) (k : nat) (x : Z) :
  In x (slots size c k) <->
  exists i, (0 <= i < Z.of_nat k) /\ x = c + i * size.
Proof.
  revert c. induction k as [| k IH]; intros c; cbn [slots In].
  - split; [tauto | intros (i & Hi & _); lia].
  - rewrite IH. split.
    + intros [<- | (i & Hi & ->)].
      * exists 0. lia.
      * exists (i + 1). lia.
    + intros (i & Hi & ->). destruct (Z.eq_dec i 0) as [-> | Hne].
      * left. lia.
      * right. exists (i - 1). lia.
Qed.

(** ** The loop of [reserve] *)

Section ReserveLoop.

Variable T : CType.
Let sz := sizeofT T.
Let al := alignofT T.

Hypothesis Hsz : ptr_size <= sz.
Hypothesis Hal : 0 < al.
Hypothesis Hmul : sz mod al = 0.

Lemma aligned_step (c : Z) : c mod al = 0 -> (c + sz) mod al = 0.
Proof.
  intros Hc. rewrite Z.add_mod by lia. rewrite Hc, Hmul. cbn.
  apply Z.mod_0_l. lia.
Qed.

(** With room for [k] chunks between [c] and [memoryEnd] the loop ends
    after [k] rounds: it has linked the [k] chunks, last one first, in
    front of the old list, and touched no byte outside them. *)
Lemma reserve_loop_spec (k : nat) :
  forall (fuel : nat) (c l : Z) (h : gmap Z Z),
    (k <= fuel)%nat ->
    0 < c -> c + Z.of_nat k * sz < modulus -> c mod al = 0 ->
    exists l' h',
      reserve_loop T fuel c (c + Z.of_nat k * sz) l h = Some (l', h')
      /\ (0 <= l < modulus -> lseg h' l' (rev (slots sz c k)) l)
      /\ (forall b, 0 <= b -> b + 8 <= modulus ->
                    b + 8 <= c \/ c + Z.of_nat k * sz <= b ->
                    load64 h' b = load64 h b).
Proof.
  unfold ptr_size in Hsz.
  induction k as [| k IH]; intros fuel c l h Hfuel Hc Hend Hca.
  - exists l, h. replace (c + Z.of_nat 0 * sz) with c by lia.
    destruct fuel; cbn [reserve_loop]; rewrite Z.eqb_refl; cbn; auto.
  - destruct fuel as [| fuel]; [lia |].
    cbn [reserve_loop].
    destruct (Z.eqb_spec c (c + Z.of_nat (S k) * sz)) as [Heq | _]; [nia |].
    replace (c <? c + Z.of_nat (S k) * sz) with true
      by (symmetry; apply Z.ltb_lt; nia).
    fold al. rewrite Hca. cbn [Z.eqb andb PointerList.push].
    fold sz. rewrite (wrap_small (c + sz)) by nia.
    replace (c + Z.of_nat (S k) * sz) with ((c + sz) + Z.of_nat k * sz) in * by lia.
    destruct (IH fuel (c + sz) c (store64 h c l))
      as (l' & h' & Hrun & Hseg & Hframe);
      [lia | lia | lia | apply aligned_step; assumption |].
    exists l', h'. split; [exact Hrun |]. split.
    + intros Hl. cbn [slots rev]. eapply lseg_app.
      * apply Hseg. nia.
      * cbn. repeat split; [lia |].
        rewrite Hframe by nia.
        apply load64_store64_same; nia.
    + intros b Hb Hb' Hout. rewrite Hframe by nia.
      apply load64_store64_other; nia.
Qed.

End ReserveLoop.

(** ** Running an acquisition forwards *)

Section Forwards.

Variable T : CType.
Let sz := sizeofT T.
Let al := alignofT T.

Lemma callMalloc_failed (p : MemoryPool) (e : Env) (g : Z) :
  next_answer e = 0 -> grown p = Some g ->
  callMalloc T p e =
    Some (0, set_next g p,
          mkEnv (heap_of e) (tl (oracle e))
                (EvMalloc (bytesToAlloc T p) 0 :: trace e)).
Proof.
  intros Hfail Hg. unfold callMalloc. rewrite malloc_spec, Hfail.
  cbn [Z.eqb negb]. rewrite Hg. reflexivity.
Qed.

Lemma callMalloc_served (p : MemoryPool) (e : Env) (g : Z) :
  next_answer e <> 0 -> grown p = Some g ->
  callMalloc T p e =
    Some (next_answer e, set_next g (set_blocks (next_answer e) p),
          mkEnv (store64 (heap_of e) (next_answer e) (mBlockList p))
                (tl (oracle e))
                (EvMalloc (bytesToAlloc T p) (next_answer e) :: trace e)).
Proof.
  intros Hok Hg. unfold callMalloc. rewrite malloc_spec.
  destruct (Z.eqb_spec (next_answer e) 0) as [| _]; [contradiction |].
  cbn [negb PointerList.push].
  change (grown (set_blocks (next_answer e) p)) with (grown p).
  rewrite Hg. reflexivity.
Qed.

Lemma alignedMalloc_runs (k : Z) (p p1 : MemoryPool) (e e1 : Env) (m : Z) :
  al = 2 ^ k -> 0 <= k <= 63 ->
  callMalloc T p e = Some (m, p1, e1) ->
  alignedMalloc T p e = Some (align_raw (wrap (m + ptr_size)) al, p1, e1).
Proof.
  intros Hal Hk Hc. unfold alignedMalloc. rewrite Hc.
  fold al. rewrite Hal, align_succeeds by lia. reflexivity.
Qed.

End Forwards.

(** ** [reserve] when the allocator fails *)

(** C2 at its failing input: [reserve(3)] on a default-constructed pool of
    [Node] whose request the allocator cannot serve.  [alignedMalloc]
    returns the non-null address 8 although no block was acquired, and the
    count is 6 by then; so the null test does not end the call, which goes
    on into the loop, and the first round of the loop stores the head of
    the free list through address 8. *)
Theorem reserve_misses_failed_request :
  exists p0 p1 e1,
    construct Node F32.two = Some p0
    /\ next_answer (fresh_env []) = 0
    /\ alignedMalloc Node (set_next 3 p0) (fresh_env []) = Some (8, p1, e1)
    /\ trace e1 = [EvMalloc 56 0]
    /\ acquired (trace e1) = []
    /\ mNextAllocSize p0 = 1024 /\ mNextAllocSize p1 = 6
    /\ reserve Node 3 p0 (fresh_env [])
       = match reserve_loop Node 3 8 56 (mChunkList p1) (heap_of e1) with
         | Some (l, h) => Some (set_chunks l p1, set_heap h e1)
         | None => None
         end
    /\ reserve_loop Node 3 8 56 (mChunkList p1) (heap_of e1)
       = reserve_loop Node 2 24 56 8 (store64 (heap_of e1) 8 (mChunkList p1)).
Proof.
  eexists _, _, _. split; [reflexivity |]. split; [reflexivity |].
  split; [vm_compute; reflexivity |].
  repeat split.
Qed.

(** ** The three paths of [allocate] *)

Section AllocatePaths.

Variable T : CType.
Let sz := sizeofT T.
Let al := alignofT T.

(** (a) The free-chunk list is not empty: pop it. *)
Lemma allocate_pop (p : MemoryPool) (e : Env) :
  mChunkList p <> 0 ->
  allocate T p e =
    Some (mChunkList p, set_chunks (load64 (heap_of e) (mChunkList p)) p, e).
Proof.
  intros Hne. unfold allocate, PointerList.pop, PointerList.nonempty.
  destruct (Z.eqb_spec (mChunkList p) 0) as [| _]; [contradiction |].
  reflexivity.
Qed.

(** (b) The current block has room: carve. *)
Lemma allocate_carve (p : MemoryPool) (e : Env) :
  mChunkList p = 0 -> has_room T p = true -> mCurrentBlock p mod al = 0 ->
  allocate T p e =
    Some (mCurrentBlock p,
          set_cursor (wrap (mCurrentBlock p + sz)) (mCurrentBlockEnd p) p, e).
Proof.
  intros Hfree Hroom Hal. unfold allocate, createChunk.
  rewrite Hfree, Hroom. cbn [PointerList.nonempty Z.eqb negb].
  fold al. rewrite Hal. reflexivity.
Qed.

(** (c) Otherwise acquire a block and carve its first chunk. *)
Lemma allocate_acquire (k : Z) (p p1 : MemoryPool) (e e1 : Env) (m : Z) :
  al = 2 ^ k -> 0 <= k <= 63 ->
  mChunkList p = 0 -> has_room T p = false ->
  callMalloc T p e = Some (m, p1, e1) ->
  let c0 := align_raw (wrap (m + ptr_size)) al in
  let cend := wrap (c0 + wrap (mNextAllocSize p * sz)) in
  wrap (c0 + sz) <= cend ->
  allocate T p e = Some (c0, set_cursor (wrap (c0 + sz)) cend p1, e1).
Proof.
  intros Hal Hk Hfree Hroom Hc c0 cend Hfit. unfold allocate, allocBlock.
  rewrite Hfree, Hroom. cbn [PointerList.nonempty Z.eqb negb].
  rewrite (alignedMalloc_runs T k _ _ _ _ _ Hal Hk Hc).
  unfold createChunk, has_room.
  cbn [mCurrentBlock mCurrentBlockEnd set_cursor].
  fold sz al c0 cend.
  replace (wrap (c0 + sz) <=? cend) with true by (symmetry; apply Z.leb_le; exact Hfit).
  assert (Hc0 : c0 mod al = 0)
    by (subst c0; rewrite Hal; apply align_raw_aligned; lia).
  rewrite Hc0. cbn. reflexivity.
Qed.

Lemma callMalloc_total (p : MemoryPool) (e : Env) (g : Z) :
  grown p = Some g ->
  exists p1 e1, callMalloc T p e = Some (next_answer e, p1, e1).
Proof.
  intros Hg. destruct (Z.eq_dec (next_answer e) 0) as [Hz | Hnz].
  - rewrite (callMalloc_failed T p e g Hz Hg), Hz. eauto.
  - rewrite (callMalloc_served T p e g Hnz Hg). eauto.
Qed.

End AllocatePaths.

(** ** Requests seen from the log *)

Lemma construct_spec (T : CType) (g : spec_float) (p : MemoryPool) :
  construct T g = Some p -> p = mkPool 0 0 1024 g 0 0.
Proof.
  unfold construct. destruct (_ && _ && _); [| discriminate].
  intros [= <-]. reflexivity.
Qed.

Lemma reserve_request (T : CType) (n : Z) (p p1 : MemoryPool) (e e1 : Env) :
  reserve T n p e = Some (p1, e1) ->
  trace e1 = EvMalloc (wrap (wrap (n * sizeofT T) + alignofT T)) (next_answer e)
             :: trace e
  /\ F32.to_size_t (F32.mul (F32.of_size_t n) (mAllocSizeGrow p))
     = Some (mNextAllocSize p1).
Proof.
  unfold reserve. destruct (negb (n =? 0)); [| discriminate].
  destruct (alignedMalloc T (set_next n p) e) as [[[a p'] e'] |] eqn:Ham;
    [| discriminate].
  destruct (alignedMalloc_spec _ _ _ _ _ _ Ham) as [Hc _].
  destruct (callMalloc_spec _ _ _ _ _ _ Hc) as (_ & Htr & _ & Hg & _).
  destruct (a =? 0).
  - intros [= <- <-]. split; [exact Htr | exact Hg].
  - destruct (reserve_loop _ _ _ _ _ _) as [[l h] |]; [| discriminate].
    intros [= <- <-]. split; [exact Htr | exact Hg].
Qed.

Lemma acquiring_allocate_request (T : CType) (p p1 : MemoryPool) (e e1 : Env) (a : Z) :
  mChunkList p = 0 -> has_room T p = false ->
  allocate T p e = Some (a, p1, e1) ->
  trace e1 =
    EvMalloc (wrap (wrap (mNextAllocSize p * sizeofT T) + alignofT T)) (next_answer e)
    :: trace e.
Proof.
  intros Hfree Hroom. unfold allocate, allocBlock.
  rewrite Hfree, Hroom. cbn [PointerList.nonempty Z.eqb negb].
  destruct (alignedMalloc T p e) as [[[c p'] e'] |] eqn:Ham; [| discriminate].
  destruct (alignedMalloc_spec _ _ _ _ _ _ Ham) as [Hc _].
  destruct (callMalloc_spec _ _ _ _ _ _ Hc) as (_ & Htr & _).
  destruct (createChunk T _) as [[c' p''] |]; [| discriminate].
  intros [= <- <- <-]. exact Htr.
Qed.

(** ** Recycling *)

(** The growth of the initial count under the default factor. *)
Lemma grown_default_1024 (bl cl cur cend : Z) :
  grown (mkPool bl cl 1024 F32.two cur cend) = Some 2048.
Proof. reflexivity. Qed.

(** C7: in every pool state, a chunk that [allocate] returned and that is
    given to [deallocate] is what the next [allocate] returns; and on a
    default-constructed pool the calls [a = allocate(); b = allocate();
    deallocate(a); c = allocate()] all return, with [c = a] and [b <> a]
    (whether or not the allocator served the block request). *)
Theorem lifo_reuse (T : CType) :
  (forall (p p1 p2 : MemoryPool) (e e1 e2 : Env) (a : Z),
      allocate T p e = Some (a, p1, e1) ->
      deallocate a p1 e1 = Some (p2, e2) ->
      exists p3, allocate T p2 e2 = Some (a, p3, e2))
  /\ (forall (answers : list Z) (p0 : MemoryPool),
        type_ok T ->
        let a := align_raw (wrap (next_answer (fresh_env answers) + ptr_size))
                           (alignofT T) in
        let b := a + sizeofT T in
        a + 1024 * sizeofT T < modulus ->
        construct T F32.two = Some p0 ->
        exists p4 e4,
          run T [Allocate; Allocate; Deallocate a; Allocate] p0 (fresh_env answers)
          = Some ([Allocated a; Allocated b; Deallocated a; Allocated a], p4, e4)
          /\ b <> a).
Proof.
  split.
  - intros p p1 p2 e e1 e2 a _ Hd. unfold deallocate in Hd.
    destruct (Z.eqb_spec a 0) as [| Hne]; [discriminate |].
    cbn in Hd. injection Hd as <- <-.
    rewrite allocate_pop by (cbn; exact Hne). cbn. eauto.
  - intros answers p0 (Hsz & (k & Hk & Hal) & Hmul) a b Hfit Hnew.
    unfold ptr_size in Hsz.
    assert (Hpow : 0 < 2 ^ k) by (apply Z.pow_pos_nonneg; lia).
    assert (Ha0 : a <> 0) by (subst a; rewrite Hal; apply align_raw_nonnull; lia).
    assert (Har : 0 <= a < modulus) by apply wrap_range.
    assert (Haa : a mod alignofT T = 0)
      by (subst a; rewrite Hal; apply align_raw_aligned; lia).
    unfold construct in Hnew.
    destruct (_ && _ && _); [| discriminate]. injection Hnew as <-.
    unfold PointerList.empty.
    destruct (callMalloc_total T (mkPool 0 0 1024 F32.two 0 0) (fresh_env answers)
                2048 eq_refl) as (p1 & e1 & Hc).
    destruct (callMalloc_spec T _ _ _ _ _ Hc)
      as (_ & _ & _ & _ & Hcl & _).
    cbn [mChunkList] in Hcl.
    cbn [run step].
    (* a = allocate(): the pool has no block yet *)
    rewrite (allocate_acquire T k (mkPool 0 0 1024 F32.two 0 0) p1
               (fresh_env answers) e1 (next_answer (fresh_env answers))
               Hal Hk eq_refl); cycle 1.
    { unfold has_room. cbn [mCurrentBlock mCurrentBlockEnd].
      rewrite Z.add_0_l, wrap_small by lia. apply Z.leb_gt. lia. }
    { exact Hc. }
    { fold a. cbn [mNextAllocSize].
      rewrite (wrap_small (1024 * sizeofT T)), !wrap_small by lia. lia. }
    fold a. cbn [mNextAllocSize].
    rewrite (wrap_small (1024 * sizeofT T)), !wrap_small by lia.
    (* b = allocate(): carved next to a *)
    rewrite allocate_carve; cycle 1.
    { exact Hcl. }
    { unfold has_room. cbn [mCurrentBlock mCurrentBlockEnd set_cursor].
      rewrite wrap_small by lia. apply Z.leb_le. lia. }
    { cbn [mCurrentBlock set_cursor]. apply aligned_step; [lia | exact Hmul | exact Haa]. }
    cbn [mCurrentBlock mCurrentBlockEnd set_cursor].
    (* deallocate(a) *)
    unfold deallocate.
    destruct (Z.eqb_spec a 0) as [| _]; [contradiction |].
    cbn [negb PointerList.push].
    (* c = allocate() *)
    rewrite allocate_pop by (cbn; exact Ha0).
    cbn. eexists _, _. split; [reflexivity | lia].
Qed.

Lemma lifo_reuse_witness :
  exists p4 e4,
    run Node [Allocate; Allocate; Deallocate 4104; Allocate]
        (mkPool 0 0 1024 F32.two 0 0) (fresh_env [4096])
    = Some ([Allocated 4104; Allocated 4120; Deallocated 4104; Allocated 4104],
            p4, e4)
    /\ 4120 <> 4104.
Proof.
  apply (proj2 (lifo_reuse Node) [4096] (mkPool 0 0 1024 F32.two 0 0)).
  - split; [unfold ptr_size, modulus, Node; cbn [sizeofT]; lia |].
    split; [exists 3; split; [lia | reflexivity] | reflexivity].
  - vm_compute; reflexivity.
  - reflexivity.
Defined.

(** ** Reservation *)

(** Popping a linked segment chunk by chunk. *)
Lemma allocate_many_pops (T : CType) (nodes : list Z) :
  forall (p : MemoryPool) (e : Env) (tail : Z),
    lseg (heap_of e) (mChunkList p) nodes tail ->
    allocate_many T (length nodes) p e = Some (nodes, set_chunks tail p, e).
Proof.
  induction nodes as [| c nodes IH]; intros p e tail Hseg; cbn in *.
  - rewrite <- Hseg. destruct p; reflexivity.
  - destruct Hseg as (Hhead & Hc & Hseg).
    rewrite allocate_pop by congruence.
    rewrite Hhead.
    rewrite (IH (set_chunks (load64 (heap_of e) c) p) e tail) by exact Hseg.
    reflexivity.
Qed.

(** C8, as stated, fails on a pool whose current block still has room: a
    default pool of [Node] that served one [allocate] from a block at 4096
    and then [reserve(1)] from a block at 32768 serves the first following
    [allocate] from the free list and the second one, the (n+1)-th, from
    the old block, without any request to the allocator. *)
Lemma allocation_after_reserve_may_carve :
  exists p1 e1 p2 e2 p3 e3 p4 e4 a,
    allocate Node (mkPool 0 0 1024 F32.two 0 0) (fresh_env [4096; 32768])
      = Some (4104, p1, e1)
    /\ reserve Node 1 p1 e1 = Some (p2, e2)
    /\ allocate Node p2 e2 = Some (32776, p3, e3)
    /\ allocate Node p3 e3 = Some (a, p4, e4)
    /\ a = 4120
    /\ trace e2 = [EvMalloc 24 32768; EvMalloc 16392 4096]
    /\ trace e4 = trace e2.
Proof.
  eexists _, _, _, _, _, _, _, _, _.
  split; [vm_compute; reflexivity |].
  split; [vm_compute; reflexivity |].
  split; [vm_compute; reflexivity |].
  split; [vm_compute; reflexivity |].
  repeat split.
Qed.

(** C8 (amended): let [reserve(n)], [n > 0], be served a block on which
    the [n] chunks fit below the top of the address space.  Then [reserve]
    returns after that one request, the next [n] calls of [allocate] return
    the [n] chunks of the block, last one first, with no request to the
    allocator and no change to memory, and leave the free list and the
    cursor as they were before [reserve].  If moreover the free list was
    empty and the current block had no room before [reserve] (as in a
    freshly constructed pool), the (n+1)-th [allocate] issues exactly one
    request, for the grown count. *)
Theorem reserve_then_allocate (T : CType) (n g : Z) (p : MemoryPool) (e : Env) :
  type_ok T ->
  0 < n ->
  0 <= mChunkList p < modulus ->
  let m := next_answer e in
  let c0 := align_raw (wrap (m + ptr_size)) (alignofT T) in
  m <> 0 ->
  c0 + n * sizeofT T < modulus ->
  F32.to_size_t (F32.mul (F32.of_size_t n) (mAllocSizeGrow p)) = Some g ->
  exists p1 e1 p2,
    reserve T n p e = Some (p1, e1)
    /\ trace e1 = EvMalloc (wrap (wrap (n * sizeofT T) + alignofT T)) m :: trace e
    /\ allocate_many T (Z.to_nat n) p1 e1
       = Some (rev (slots (sizeofT T) c0 (Z.to_nat n)), p2, e1)
    /\ mChunkList p2 = mChunkList p
    /\ mCurrentBlock p2 = mCurrentBlock p
    /\ mCurrentBlockEnd p2 = mCurrentBlockEnd p
    /\ mNextAllocSize p2 = g
    /\ (mChunkList p = 0 -> has_room T p = false ->
        forall g2,
          F32.to_size_t (F32.mul (F32.of_size_t g) (mAllocSizeGrow p)) = Some g2 ->
          let c1 := align_raw (wrap (next_answer e1 + ptr_size)) (alignofT T) in
          0 < g -> c1 + g * sizeofT T < modulus ->
          exists p3 e3,
            allocate T p2 e1 = Some (c1, p3, e3)
            /\ trace e3 = EvMalloc (wrap (wrap (g * sizeofT T) + alignofT T))
                                   (next_answer e1) :: trace e1).
Proof.
  intros (Hsz & (k & Hk & Hal) & Hmul) Hn Hcl m c0 Hm Hfit Hg.
  unfold ptr_size in Hsz.
  assert (Hpow : 0 < 2 ^ k) by (apply Z.pow_pos_nonneg; lia).
  assert (Hc0 : c0 <> 0) by (subst c0; rewrite Hal; apply align_raw_nonnull; lia).
  assert (Hcr : 0 <= c0 < modulus) by apply wrap_range.
  assert (Hca : c0 mod alignofT T = 0)
    by (subst c0; rewrite Hal; apply align_raw_aligned; lia).
  unfold reserve.
  destruct (Z.eqb_spec n 0) as [| _]; [lia |]. cbn [negb].
  rewrite (alignedMalloc_runs T k _ _ _ _ m Hal Hk
             (callMalloc_served T (set_next n p) e g Hm Hg)).
  fold m c0.
  destruct (Z.eqb_spec c0 0) as [| _]; [contradiction |].
  cbn [mNextAllocSize set_next set_blocks heap_of mChunkList mBlockList].
  rewrite (wrap_small (n * sizeofT T)) by nia.
  rewrite (wrap_small (c0 + n * sizeofT T)) by nia.
  destruct (reserve_loop_spec T ltac:(unfold ptr_size; lia) ltac:(lia) Hmul
              (Z.to_nat n) (Z.to_nat n) c0 (mChunkList p)
              (store64 (heap_of e) m (mBlockList p)))
    as (l' & h' & Hrun & Hseg & _);
    [lia | lia | rewrite Z2Nat.id by lia; lia | exact Hca |].
  rewrite Z2Nat.id in Hrun by lia. rewrite Hrun.
  specialize (Hseg Hcl).
  eexists _, _, _. split; [reflexivity |].
  split.
  { cbn. unfold bytesToAlloc. cbn.
    rewrite (wrap_small (n * sizeofT T)) by nia. reflexivity. }
  split.
  { rewrite <- (slots_length (sizeofT T) c0 (Z.to_nat n)) at 1.
    rewrite <- length_rev.
    apply allocate_many_pops. cbn. exact Hseg. }
  cbn [mChunkList mCurrentBlock mCurrentBlockEnd mNextAllocSize set_chunks].
  do 4 (split; [reflexivity |]).
  intros Hempty Hroom g2 Hg2 Hg0 Hfit1.
  set (p2 := set_chunks (mChunkList p) _). set (e1 := set_heap _ _) in *.
  set (c1 := align_raw (wrap (next_answer e1 + ptr_size)) (alignofT T)) in *.
  assert (Hgrown : grown p2 = Some g2) by exact Hg2.
  destruct (callMalloc_total T p2 e1 g2 Hgrown) as (p3 & e3 & Hc).
  destruct (callMalloc_spec T _ _ _ _ _ Hc) as (_ & Htr & _).
  assert (Hcr1 : 0 <= c1 < modulus) by apply wrap_range.
  eexists _, _. split.
  - apply (allocate_acquire T k p2 p3 e1 e3 (next_answer e1) Hal Hk).
    + exact Hempty.
    + exact Hroom.
    + exact Hc.
    + cbv zeta. fold c1. unfold p2.
      cbn [mNextAllocSize set_chunks set_next set_blocks].
      rewrite (wrap_small (g * sizeofT T)), !wrap_small by nia. nia.
  - cbn [trace]. rewrite Htr. reflexivity.
Qed.

Lemma reserve_then_allocate_witness :
  exists p1 e1 p2,
    reserve Node 100 (mkPool 0 0 1024 F32.two 0 0) (fresh_env [4096; 32768])
      = Some (p1, e1)
    /\ trace e1 = [EvMalloc (wrap (wrap (100 * 16) + 8)) 4096]
    /\ allocate_many Node 100 p1 e1 = Some (rev (slots 16 4104 100), p2, e1)
    /\ mChunkList p2 = 0
    /\ mCurrentBlock p2 = 0
    /\ mCurrentBlockEnd p2 = 0
    /\ mNextAllocSize p2 = 200
    /\ (0 = 0 -> has_room Node (mkPool 0 0 1024 F32.two 0 0) = false ->
        forall g2,
          F32.to_size_t (F32.mul (F32.of_size_t 200) F32.two) = Some g2 ->
          let c1 := align_raw (wrap (next_answer e1 + ptr_size)) 8 in
          0 < 200 -> c1 + 200 * 16 < modulus ->
          exists p3 e3,
            allocate Node p2 e1 = Some (c1, p3, e3)
            /\ trace e3 = EvMalloc (wrap (wrap (200 * 16) + 8)) (next_answer e1)
                          :: trace e1).
Proof.
  apply (reserve_then_allocate Node 100 200 (mkPool 0 0 1024 F32.two 0 0)
           (fresh_env [4096; 32768])).
  - split; [unfold ptr_size, modulus, Node; cbn [sizeofT]; lia |].
    split; [exists 3; split; [lia | reflexivity] | reflexivity].
  - lia.
  - cbn; unfold modulus; lia.
  - discriminate.
  - vm_compute; reflexivity.
  - vm_compute; reflexivity.
Defined.

(** ** The layout of chunks *)

Section LayoutFacts.

Variable T : CType.
Hypothesis HT : type_ok T.

Let sz := sizeofT T.
Let al := alignofT T.

Lemma type_facts :
  8 <= sz < modulus /\ 0 < al /\ sz mod al = 0
  /\ exists k, 0 <= k <= 63 /\ al = 2 ^ k.
Proof.
  destruct HT as (Hsz & (k & Hk & Hal) & Hmul). unfold ptr_size in Hsz.
  fold sz in Hsz. fold al in Hal.
  split; [exact Hsz |]. split; [| split; [exact Hmul | exists k; auto]].
  rewrite Hal. apply Z.pow_pos_nonneg; lia.
Qed.

Lemma blocks_app (tr1 tr2 : list event) :
  blocks (tr1 ++ tr2) = blocks tr1 ++ blocks tr2.
Proof. unfold blocks. apply omap_app. Qed.

Lemma allocator_ok_tail (l1 l2 : list (Z * Z)) :
  allocator_ok T (l1 ++ l2) = true -> allocator_ok T l2 = true.
Proof.
  induction l1 as [| b l1 IH]; cbn; [auto |].
  intros H. apply andb_prop in H as [_ H]. auto.
Qed.

Lemma allocator_ok_block (bs : list (Z * Z)) (b : Z * Z) :
  allocator_ok T bs = true -> b ∈ bs -> block_ok T b = true.
Proof.
  induction bs as [| x bs IH]; cbn; intros H Hin.
  - inversion Hin.
  - apply andb_prop in H as [H Hrest]. apply andb_prop in H as [Hb _].
    apply elem_of_cons in Hin as [-> | Hin]; auto.
Qed.

Lemma allocator_ok_clear (bs : list (Z * Z)) (b b' : Z * Z) :
  allocator_ok T bs = true -> b ∈ bs -> b' ∈ bs ->
  b = b' \/ apart (area_lo T b) (area_hi T b) (area_lo T b') (area_hi T b') = true.
Proof.
  induction bs as [| x bs IH]; cbn; intros H Hin Hin'.
  - inversion Hin.
  - apply andb_prop in H as [H Hrest]. apply andb_prop in H as [_ Hclear].
    rewrite forallb_forall in Hclear.
    apply elem_of_cons in Hin as [-> | Hin];
      apply elem_of_cons in Hin' as [-> | Hin']; auto.
    + right. apply list_elem_of_In, Hclear in Hin'.
      unfold clear_of in Hin'. apply andb_prop in Hin' as [Ha _]. exact Ha.
    + right. apply list_elem_of_In, Hclear in Hin.
      unfold clear_of in Hin. apply andb_prop in Hin as [Ha _].
      unfold apart in *. rewrite orb_comm. exact Ha.
Qed.

(** Unfolding [block_ok]. *)
Lemma block_ok_facts (b : Z * Z) :
  block_ok T b = true ->
  0 < snd b /\ snd b + 8 <= modulus /\ al <= fst b
  /\ 0 < area_lo T b /\ area_hi T b + sz < modulus
  /\ area_lo T b mod al = 0.
Proof.
  destruct type_facts as (Hsz & Hal & Hmul & k & Hk & Hpow).
  unfold block_ok, ptr_size. fold sz al. intros H.
  apply andb_prop in H as [H H4]. apply andb_prop in H as [H H3].
  apply andb_prop in H as [H1 H2].
  apply Z.ltb_lt in H1, H4. apply Z.leb_le in H2, H3.
  assert (Hlo : area_lo T b <> 0).
  { unfold area_lo. fold al. rewrite Hpow. apply align_raw_nonnull. lia. }
  assert (Hlor : 0 <= area_lo T b < modulus) by apply wrap_range.
  repeat split; try lia.
  unfold area_lo. fold al. rewrite Hpow. apply align_raw_aligned. lia.
Qed.

Lemma slot_mono (bs : list (Z * Z)) (b : Z * Z) (c : Z) :
  slot T bs c -> slot T (b :: bs) c.
Proof.
  intros (b' & Hin & H). exists b'. split; [apply elem_of_cons; auto | exact H].
Qed.

Lemma cursor_ok_mono (bs : list (Z * Z)) (b : Z * Z) (p : MemoryPool) :
  cursor_ok T bs p -> cursor_ok T (b :: bs) p.
Proof.
  intros [H | (b' & Hin & H)]; [left; exact H | right].
  exists b'. split; [apply elem_of_cons; auto | exact H].
Qed.

Lemma cursor_ok_ext (bs : list (Z * Z)) (p p1 : MemoryPool) :
  mCurrentBlock p1 = mCurrentBlock p ->
  mCurrentBlockEnd p1 = mCurrentBlockEnd p ->
  cursor_ok T bs p -> cursor_ok T bs p1.
Proof. unfold cursor_ok. intros -> ->. auto. Qed.

(** A chunk lies strictly inside the address space and is not null. *)
Lemma slot_range (bs : list (Z * Z)) (c : Z) :
  allocator_ok T bs = true -> slot T bs c ->
  0 < c /\ c + sz + sz < modulus + sz /\ c + 8 <= modulus.
Proof.
  destruct type_facts as (Hsz & Hal & Hmul & k & Hk & Hpow).
  intros Hok (b & Hin & Hlo & Hhi & _).
  pose proof (block_ok_facts b (allocator_ok_block bs b Hok Hin))
    as (_ & _ & _ & Hl & Hh & _).
  fold sz in Hhi. lia.
Qed.

(** Chunks are aligned. *)
Lemma slot_aligned (bs : list (Z * Z)) (c : Z) :
  allocator_ok T bs = true -> slot T bs c -> c mod al = 0.
Proof.
  destruct type_facts as (Hsz & Hal & Hmul & k & Hk & Hpow).
  intros Hok (b & Hin & Hlo & Hhi & Hgrid).
  pose proof (block_ok_facts b (allocator_ok_block bs b Hok Hin))
    as (_ & _ & _ & _ & _ & Hla).
  fold sz in Hgrid.
  apply Z.mod_divide in Hgrid as [q Hq]; [| lia].
  apply Z.mod_divide in Hmul as [q' Hq']; [| lia].
  apply Z.mod_divide in Hla as [q'' Hq'']; [| lia].
  apply Z.mod_divide; [lia |].
  exists (q * q' + q''). nia.
Qed.

(** Two different chunks do not overlap. *)
Lemma slot_apart (bs : list (Z * Z)) (c c' : Z) :
  allocator_ok T bs = true -> slot T bs c -> slot T bs c' -> c <> c' ->
  c + sz <= c' \/ c' + sz <= c.
Proof.
  destruct type_facts as (Hsz & Hal & Hmul & k & Hk & Hpow).
  intros Hok (b & Hin & Hlo & Hhi & Hgrid) (b' & Hin' & Hlo' & Hhi' & Hgrid') Hne.
  fold sz in Hhi, Hhi', Hgrid, Hgrid'.
  destruct (allocator_ok_clear bs b b' Hok Hin Hin') as [<- | Hap].
  - apply Z.mod_divide in Hgrid as [q Hq]; [| lia].
    apply Z.mod_divide in Hgrid' as [q' Hq']; [| lia].
    assert (q <> q') by (intros ->; lia).
    assert (q < q' \/ q' < q) as [Hlt | Hlt] by lia; [left | right]; nia.
  - unfold apart in Hap. apply orb_prop in Hap as [Hap | Hap];
      apply Z.leb_le in Hap; lia.
Qed.

(** A chunk of an older block lies outside the chunk area and the header
    word of a newer one. *)
Lemma old_slot_clear (bs : list (Z * Z)) (b : Z * Z) (c : Z) :
  allocator_ok T (b :: bs) = true -> slot T bs c ->
  (c + sz <= area_lo T b \/ area_hi T b <= c)
  /\ (c + sz <= snd b \/ snd b + 8 <= c).
Proof.
  destruct type_facts as (Hsz & Hal & Hmul & k & Hk & Hpow).
  cbn. intros Hok (b' & Hin & Hlo & Hhi & _). fold sz in Hhi.
  apply andb_prop in Hok as [Hok _]. apply andb_prop in Hok as [_ Hclear].
  rewrite forallb_forall in Hclear.
  apply list_elem_of_In, Hclear in Hin.
  unfold clear_of, apart, ptr_size in Hin.
  apply andb_prop in Hin as [H1 H2].
  apply orb_prop in H1. apply orb_prop in H2.
  rewrite !Z.leb_le in H1, H2. lia.
Qed.

(** The chunk area of a new block lies outside those of the older ones. *)
Lemma new_area_clear (bs : list (Z * Z)) (b b' : Z * Z) :
  allocator_ok T (b :: bs) = true -> b' ∈ bs ->
  apart (area_lo T b) (area_hi T b) (area_lo T b') (area_hi T b') = true.
Proof.
  cbn. intros Hok Hin.
  apply andb_prop in Hok as [Hok _]. apply andb_prop in Hok as [_ Hclear].
  rewrite forallb_forall in Hclear.
  apply list_elem_of_In, Hclear in Hin.
  unfold clear_of in Hin. apply andb_prop in Hin as [H1 _]. exact H1.
Qed.

End LayoutFacts.

(** ** What the client holds *)

Lemma holds_elem (x : Z) (l : list Z) : holds x l = true <-> x ∈ l.
Proof.
  unfold holds. rewrite existsb_exists, list_elem_of_In. split.
  - intros (y & Hin & Heq). apply Z.eqb_eq in Heq. subst. exact Hin.
  - intros Hin. exists x. split; [exact Hin | apply Z.eqb_refl].
Qed.

Lemma remove_one_perm (x : Z) (l : list Z) :
  x ∈ l -> l ≡ₚ x :: remove_one x l.
Proof.
  induction l as [| y l IH]; intros Hin.
  - inversion Hin.
  - cbn. destruct (Z.eqb_spec x y) as [-> | Hne]; [reflexivity |].
    apply elem_of_cons in Hin as [-> | Hin]; [contradiction |].
    rewrite (IH Hin) at 1. apply Permutation_swap.
Qed.

Lemma lseg_null (h : gmap Z Z) (fl : list Z) (t : Z) :
  lseg h 0 fl t -> fl = [].
Proof. destruct fl as [| c fl]; cbn; [auto | intros (<- & Hc & _); contradiction]. Qed.

(** A request whose size is at least the alignment did not wrap. *)
Lemma request_size_exact (w a : Z) :
  0 <= w < modulus -> 0 < a < modulus -> a <= wrap (w + a) ->
  wrap (w + a) = w + a.
Proof.
  intros Hw Ha Hle. unfold wrap in *.
  destruct (Z.lt_ge_cases (w + a) modulus) as [Hlt | Hge].
  - apply Z.mod_small. lia.
  - replace (w + a) with (w + a - modulus + 1 * modulus) in Hle by lia.
    rewrite Z.mod_add in Hle by (unfold modulus; lia).
    rewrite Z.mod_small in Hle by lia. lia.
Qed.

(** ** The invariant is kept *)

Section Invariant.

Variable T : CType.
Hypothesis HT : type_ok T.

Let sz := sizeofT T.
Let al := alignofT T.

Lemma lseg_head_range (bs : list (Z * Z)) (h : gmap Z Z) (head : Z) (fl : list Z) :
  allocator_ok T bs = true -> lseg h head fl 0 -> Forall (slot T bs) fl ->
  0 <= head < modulus.
Proof.
  intros Hok Hseg Hslots. destruct fl as [| c fl]; cbn in Hseg.
  - subst. unfold modulus. lia.
  - destruct Hseg as (-> & _ & _). apply Forall_cons in Hslots as [Hc _].
    pose proof (slot_range T HT bs c Hok Hc). lia.
Qed.

(** [allocate] keeps the invariant, and the chunk it returns is aligned
    and not one the client holds. *)
Lemma allocate_inv (p p1 : MemoryPool) (e e1 : Env) (live : list Z) (a : Z) :
  pool_inv T p e live ->
  allocate T p e = Some (a, p1, e1) ->
  allocator_ok T (blocks (trace e1)) = true ->
  pool_inv T p1 e1 (a :: live) /\ (a ∉ live) /\ a mod al = 0.
Proof.
  destruct (type_facts T HT) as (Hsz & Hal & Hmul & k & Hk & Hpow).
  fold sz al in Hsz, Hal, Hmul, Hpow.
  intros (fl & Hseg & Hnd & Hslots & Hcur & Hout) Ha Hok.
  destruct (Z.eq_dec (mChunkList p) 0) as [Hfree | Hfree].
  - (* the free list is empty *)
    rewrite Hfree in Hseg. apply lseg_null in Hseg. subst fl. cbn [app] in *.
    unfold allocate in Ha. rewrite Hfree in Ha.
    cbn [PointerList.nonempty Z.eqb negb] in Ha.
    destruct (has_room T p) eqn:Hroom.
    + (* carve from the current block *)
      destruct (createChunk T p) as [[c p'] |] eqn:Hcc; [| discriminate].
      injection Ha as <- <- <-.
      destruct (createChunk_spec T _ _ _ Hcc) as (_ & -> & Hca & ->).
      unfold has_room in Hroom. apply Z.leb_le in Hroom. fold sz in Hroom.
      destruct Hcur as [[Hc0 Hc1] | (b & Hin & Hlo & Hle & Hhi & Hgrid)].
      { rewrite Hc0, Hc1, Z.add_0_l, wrap_small in Hroom by lia. lia. }
      pose proof (block_ok_facts T HT b
                    (allocator_ok_block T (blocks (trace e)) b Hok Hin))
        as (_ & _ & _ & Hl & Hh & _).
      fold sz in Hh, Hgrid.
      rewrite wrap_small in Hroom by lia.
      assert (Hnew : mCurrentBlock p ∉ live).
      { intros Hin'. rewrite Forall_forall in Hout. apply (Hout _ Hin'). lia. }
      split; [| split; [exact Hnew | exact Hca]].
      exists []. cbn [app mChunkList mCurrentBlock mCurrentBlockEnd set_cursor heap_of].
      fold sz. rewrite wrap_small by lia.
      split; [cbn; exact Hfree |].
      split; [apply NoDup_cons; auto |].
      split.
      { apply Forall_cons. split; [| exact Hslots].
        exists b. fold sz. repeat split; auto; lia. }
      split.
      { right. exists b. cbn [mCurrentBlock mCurrentBlockEnd set_cursor].
        repeat split; auto; try lia. fold sz.
        replace (mCurrentBlock p + sz - area_lo T b)
          with (mCurrentBlock p - area_lo T b + 1 * sz) by lia.
        rewrite Z.mod_add by lia. exact Hgrid. }
      apply Forall_cons. split; [lia |].
      eapply Forall_impl; [exact Hout |]. cbn. intros c Hc. lia.
    + (* acquire a block *)
      unfold allocBlock in Ha.
      destruct (alignedMalloc T p e) as [[[c p'] e'] |] eqn:Ham; [| discriminate].
      destruct (alignedMalloc_spec _ _ _ _ _ _ Ham) as [Hc Hal'].
      destruct (callMalloc_spec _ _ _ _ _ _ Hc)
        as (_ & Htr & _ & _ & Hcl & _ & _ & _ & _ & _).
      destruct (createChunk T _) as [[c' p''] |] eqn:Hcc; [| discriminate].
      injection Ha as <- <- <-.
      destruct (createChunk_spec T _ _ _ Hcc) as (Hroom' & -> & Hca & ->).
      cbn [mCurrentBlock mCurrentBlockEnd set_cursor] in *.
      set (b := (bytesToAlloc T p, next_answer e)).
      assert (Hbs : blocks (trace e') = b :: blocks (trace e))
        by (rewrite Htr; reflexivity).
      rewrite Hbs in *.
      assert (Hok' : allocator_ok T (blocks (trace e)) = true)
        by (apply (allocator_ok_tail T [b]); exact Hok).
      pose proof (block_ok_facts T HT b
                    (allocator_ok_block T _ b Hok ltac:(apply elem_of_cons; auto)))
        as (Hm & Hm8 & Hsize & Hl & Hh & Hla).
      fold sz al in Hm, Hm8, Hsize, Hl, Hh, Hla.
      assert (Hc0 : c = area_lo T b).
      { unfold align in Hal'. cbv zeta in Hal'.
        destruct (_ =? 0) in Hal'; [| discriminate]. injection Hal' as <-.
        reflexivity. }
      assert (Hw : wrap (mNextAllocSize p * sz) = fst b - al).
      { assert (Halr : 0 < al < modulus).
        { split; [lia |]. rewrite Hpow. unfold modulus. apply Z.pow_lt_mono_r; lia. }
        pose proof (request_size_exact (wrap (mNextAllocSize p * sz)) al
                      (wrap_range _) Halr Hsize) as Hrq.
        unfold b, bytesToAlloc. cbn [fst]. fold sz al. lia. }
      assert (Hend : wrap (c + wrap (mNextAllocSize p * sz)) = area_hi T b).
      { fold sz. rewrite Hw. unfold area_hi. fold al. rewrite <- Hc0.
        apply wrap_small. unfold area_hi in Hh. fold al in Hh. rewrite <- Hc0 in Hh. lia. }
      unfold sz in Hend. rewrite ?Hend in *.
      unfold has_room in Hroom'. cbn [mCurrentBlock mCurrentBlockEnd set_cursor] in Hroom'.
      apply Z.leb_le in Hroom'. fold sz in Hroom'.
      assert (Hcr : 0 < c) by lia.
      assert (Hhi0 : area_lo T b <= area_hi T b) by (unfold area_hi; fold al; lia).
      rewrite wrap_small in Hroom' by lia.
      assert (Hold : forall x, x ∈ live -> x + sz <= area_lo T b \/ area_hi T b <= x).
      { intros x Hx. rewrite Forall_forall in Hslots.
        apply (old_slot_clear T HT _ b x Hok (Hslots x Hx)). }
      assert (Hnew : c ∉ live).
      { intros Hin'. destruct (Hold c Hin'); lia. }
      split; [| split; [exact Hnew | exact Hca]].
      exists []. cbn [app mChunkList mCurrentBlock mCurrentBlockEnd set_cursor heap_of].
      fold sz. rewrite wrap_small by lia. rewrite Hbs.
      split; [cbn; congruence |].
      split; [apply NoDup_cons; auto |].
      split.
      { apply Forall_cons. split.
        - exists b. fold sz. split; [apply elem_of_cons; auto |].
          rewrite <- Hc0. repeat split; try lia.
          rewrite Z.sub_diag. apply Z.mod_0_l. lia.
        - eapply Forall_impl; [exact Hslots |]. intros x. apply slot_mono. }
      split.
      { right. exists b. cbn [mCurrentBlock mCurrentBlockEnd set_cursor].
        split; [apply elem_of_cons; auto |].
        rewrite <- Hc0. repeat split; try lia. fold sz.
        replace (c + sz - c) with (0 + 1 * sz) by lia.
        rewrite Z.mod_add by lia. apply Z.mod_0_l. lia. }
      apply Forall_cons. split; [lia |].
      apply Forall_forall. intros x Hx. destruct (Hold x Hx); lia.
  - (* pop the free list *)
    rewrite allocate_pop in Ha by exact Hfree. injection Ha as <- <- <-.
    destruct fl as [| c fl]; [cbn in Hseg; congruence |].
    cbn in Hseg. destruct Hseg as (Hhead & Hc & Hseg). rewrite Hhead in *.
    assert (Hperm : (c :: fl) ++ live ≡ₚ fl ++ c :: live)
      by (cbn; apply Permutation_middle).
    assert (Hnew : c ∉ live).
    { cbn in Hnd. apply NoDup_cons in Hnd as [Hnin _].
      intros Hin. apply Hnin, elem_of_app. auto. }
    split; [| split; [exact Hnew |]].
    + exists fl. cbn [mChunkList mCurrentBlock mCurrentBlockEnd set_chunks heap_of].
      rewrite <- Hperm. auto.
    + apply Forall_inv in Hslots. eapply slot_aligned; eauto.
Qed.

(** [deallocate] of a chunk the client holds keeps the invariant. *)
Lemma deallocate_inv (p p1 : MemoryPool) (e e1 : Env) (live : list Z) (ptr : Z) :
  pool_inv T p e live ->
  ptr ∈ live ->
  deallocate ptr p e = Some (p1, e1) ->
  allocator_ok T (blocks (trace e1)) = true ->
  pool_inv T p1 e1 (remove_one ptr live).
Proof.
  destruct (type_facts T HT) as (Hsz & Hal & Hmul & k & Hk & Hpow).
  fold sz al in Hsz, Hal, Hmul, Hpow.
  intros (fl & Hseg & Hnd & Hslots & Hcur & Hout) Hin Hd Hok.
  unfold deallocate in Hd.
  destruct (Z.eqb_spec ptr 0) as [| Hne]; [discriminate |].
  cbn [negb PointerList.push] in Hd. injection Hd as <- <-.
  cbn [trace set_heap] in Hok.
  pose proof (remove_one_perm ptr live Hin) as Hperm.
  assert (Hall : fl ++ live ≡ₚ (ptr :: fl) ++ remove_one ptr live).
  { rewrite Hperm at 1. cbn. symmetry. apply Permutation_middle. }
  assert (Hslots' := Hslots). rewrite Forall_forall in Hslots'.
  assert (Hps : slot T (blocks (trace e)) ptr)
    by (apply Hslots', elem_of_app; auto).
  pose proof (slot_range T HT _ _ Hok Hps) as Hpr. fold sz in Hpr.
  assert (Hfl : Forall (slot T (blocks (trace e))) fl)
    by (apply Forall_app in Hslots as [H _]; exact H).
  pose proof (lseg_head_range _ _ _ _ Hok Hseg Hfl) as Hhead.
  exists (ptr :: fl).
  cbn [mChunkList mCurrentBlock mCurrentBlockEnd set_chunks heap_of trace set_heap].
  rewrite <- Hall.
  split; [| auto].
  cbn [lseg]. split; [reflexivity |]. split; [exact Hne |].
  rewrite load64_store64_same by lia.
  eapply lseg_frame; [exact Hseg |].
  intros c Hc. apply list_elem_of_In in Hc.
  assert (Hcs : slot T (blocks (trace e)) c)
    by (apply Hslots', elem_of_app; auto).
  pose proof (slot_range T HT _ _ Hok Hcs) as Hcr. fold sz in Hcr.
  assert (Hcne : c <> ptr).
  { intros ->. apply NoDup_app in Hnd as (_ & Hdisj & _). exact (Hdisj _ Hc Hin). }
  pose proof (slot_apart T HT _ _ _ Hok Hcs Hps Hcne) as Hap. fold sz in Hap.
  apply load64_store64_other; lia.
Qed.

(** How many rounds the loop of [reserve] made. *)
Lemma reserve_loop_rounds (fuel : nat) :
  forall (c cend l l' : Z) (h h' : gmap Z Z),
    0 <= c -> cend + sz < modulus ->
    reserve_loop T fuel c cend l h = Some (l', h') ->
    exists k : nat, (k <= fuel)%nat /\ cend = c + Z.of_nat k * sz.
Proof.
  destruct (type_facts T HT) as (Hsz & _). fold sz in Hsz.
  induction fuel as [| fuel IH]; intros c cend l l' h h' Hc Hend Hrun;
    cbn [reserve_loop] in Hrun.
  - destruct (Z.eqb_spec c cend) as [-> | _]; [| discriminate].
    exists O. lia.
  - destruct (Z.eqb_spec c cend) as [-> | _]; [exists O; lia |].
    destruct (Z.ltb_spec c cend) as [Hlt |]; [| discriminate].
    destruct (_ =? 0); [| discriminate].
    cbn [andb PointerList.push] in Hrun. fold sz in Hrun.
    rewrite wrap_small in Hrun by lia.
    assert (Hc' : 0 <= c + sz) by lia.
    destruct (IH _ _ _ _ _ _ Hc' Hend Hrun) as (k & Hk & ->).
    exists (S k). lia.
Qed.

Lemma slots_NoDup (c : Z) (k : nat) : NoDup (slots sz c k).
Proof.
  destruct (type_facts T HT) as (Hsz & _). fold sz in Hsz.
  revert c. induction k as [| k IH]; intros c; cbn; constructor; auto.
  rewrite list_elem_of_In, slots_in. intros (i & Hi & Heq). nia.
Qed.

(** [reserve] keeps the invariant. *)
Lemma reserve_inv (p p1 : MemoryPool) (e e1 : Env) (live : list Z) (n : Z) :
  pool_inv T p e live ->
  reserve T n p e = Some (p1, e1) ->
  allocator_ok T (blocks (trace e1)) = true ->
  pool_inv T p1 e1 live.
Proof.
  destruct (type_facts T HT) as (Hsz & Hal & Hmul & k & Hk & Hpow).
  fold sz al in Hsz, Hal, Hmul, Hpow.
  intros (fl & Hseg & Hnd & Hslots & Hcur & Hout) Hr Hok.
  unfold reserve in Hr.
  destruct (negb (n =? 0)); [| discriminate].
  destruct (alignedMalloc T (set_next n p) e) as [[[c p'] e'] |] eqn:Ham;
    [| discriminate].
  destruct (alignedMalloc_spec _ _ _ _ _ _ Ham) as [Hc Hal'].
  destruct (callMalloc_spec _ _ _ _ _ _ Hc)
    as (_ & Htr & _ & _ & Hcl & Hcb & Hce & _ & _ & Hserved).
  cbn [mChunkList mCurrentBlock mCurrentBlockEnd mBlockList mNextAllocSize set_next]
    in Hcl, Hcb, Hce, Hserved, Hr.
  set (b := (bytesToAlloc T (set_next n p), next_answer e)) in *.
  assert (Hbs : blocks (trace e') = b :: blocks (trace e))
    by (rewrite Htr; reflexivity).
  assert (Hc0 : c = area_lo T b).
  { unfold align in Hal'. cbv zeta in Hal'.
    destruct (_ =? 0) in Hal'; [| discriminate]. injection Hal' as <-.
    reflexivity. }
  (* the shape of the result, and the log *)
  assert (Hshape : exists l' h',
             reserve_loop T (Z.to_nat n) c (wrap (c + wrap (n * sz)))
                          (mChunkList p') (heap_of e') = Some (l', h')
             /\ p1 = set_chunks l' p' /\ e1 = set_heap h' e').
  { fold sz in Hr. destruct (Z.eqb_spec c 0) as [Hz | _].
    - exfalso. rewrite Hc0 in Hz. unfold area_lo in Hz. fold al in Hz.
      rewrite Hpow in Hz. revert Hz. apply align_raw_nonnull. lia.
    - destruct (reserve_loop _ _ _ _ _ _) as [[l' h'] |]; [| discriminate].
      injection Hr as <- <-. eauto. }
  destruct Hshape as (l' & h' & Hrun & -> & ->).
  cbn [trace set_heap] in Hok. rewrite Hbs in Hok.
  assert (Hok' : allocator_ok T (blocks (trace e)) = true)
    by (apply (allocator_ok_tail T [b]); exact Hok).
  pose proof (block_ok_facts T HT b
                (allocator_ok_block T _ b Hok ltac:(apply elem_of_cons; auto)))
    as (Hm & Hm8 & Hsize & Hl & Hh & Hla).
  fold sz al in Hm, Hm8, Hsize, Hl, Hh, Hla.
  destruct (Hserved ltac:(unfold b in Hm; cbn in Hm; lia)) as [_ Hheap].
  assert (Hw : wrap (n * sz) = fst b - al).
  { assert (Halr : 0 < al < modulus).
    { split; [lia |]. rewrite Hpow. unfold modulus. apply Z.pow_lt_mono_r; lia. }
    pose proof (request_size_exact (wrap (n * sz)) al
                  (wrap_range _) Halr Hsize) as Hrq.
    unfold b, bytesToAlloc. cbn [fst mNextAllocSize set_next]. fold sz al. lia. }
  assert (Hend : wrap (c + wrap (n * sz)) = area_hi T b).
  { rewrite Hw. unfold area_hi. fold al. rewrite <- Hc0.
    apply wrap_small. unfold area_hi in Hh. fold al in Hh. rewrite <- Hc0 in Hh. lia. }
  rewrite Hend in Hrun.
  assert (Hhi0 : c <= area_hi T b) by (unfold area_hi; fold al; lia).
  assert (Hcnn : 0 <= c) by lia.
  destruct (reserve_loop_rounds _ _ _ _ _ _ _ Hcnn Hh Hrun) as (r & Hrf & Hhi).
  rewrite Hhi in Hrun.
  destruct (reserve_loop_spec T ltac:(unfold ptr_size; fold sz; lia) Hal Hmul
              r (Z.to_nat n) c (mChunkList p') (heap_of e'))
    as (l'' & h'' & Hrun' & Hnewseg & Hframe);
    [exact Hrf | lia | fold sz; lia | fold al; rewrite Hc0; exact Hla |].
  fold sz in Hrun'. rewrite Hrun in Hrun'. injection Hrun' as <- <-.
  fold sz in Hnewseg, Hframe.
  assert (Hslots' := Hslots). rewrite Forall_forall in Hslots'.
  assert (Hold : forall x, x ∈ fl ++ live ->
                   (x + sz <= c \/ c + Z.of_nat r * sz <= x)
                   /\ (x + sz <= snd b \/ snd b + 8 <= x)
                   /\ 0 < x /\ x + 8 <= modulus).
  { intros x Hx.
    pose proof (old_slot_clear T HT _ b x Hok (Hslots' x Hx)) as Hclr.
    pose proof (slot_range T HT _ _ Hok' (Hslots' x Hx)) as Hxr.
    fold sz in Hclr, Hxr. rewrite <- Hc0, Hhi in Hclr. lia. }
  assert (Hfl : Forall (slot T (blocks (trace e))) fl)
    by (apply Forall_app in Hslots as [H _]; exact H).
  pose proof (lseg_head_range _ _ _ _ Hok' Hseg Hfl) as Hhead.
  assert (Hnewslot : forall x, x ∈ slots sz c r ->
                       area_lo T b <= x /\ x + sz <= area_hi T b
                       /\ (x - area_lo T b) mod sz = 0).
  { intros x Hx. apply list_elem_of_In, slots_in in Hx as (i & Hi & ->).
    rewrite <- Hc0, Hhi. repeat split; try nia.
    replace (c + i * sz - c) with (i * sz) by lia. apply Z.mod_mul. lia. }
  exists (rev (slots sz c r) ++ fl).
  cbn [mChunkList mCurrentBlock mCurrentBlockEnd set_chunks heap_of trace set_heap].
  rewrite Hbs, Hcb, Hce.
  assert (Hperm : (rev (slots sz c r) ++ fl) ++ live ≡ₚ slots sz c r ++ (fl ++ live)).
  { rewrite <- app_assoc. apply Permutation_app_tail. symmetry. apply Permutation_rev. }
  rewrite Hperm.
  split.
  { (* the list in memory *)
    eapply lseg_app.
    - apply Hnewseg. rewrite Hcl. exact Hhead.
    - rewrite Hcl. eapply lseg_frame; [exact Hseg |].
      intros x Hx. apply list_elem_of_In in Hx.
      destruct (Hold x ltac:(apply elem_of_app; auto)) as (Ha1 & Ha2 & Hx0 & Hx8).
      rewrite Hframe by lia. rewrite Hheap.
      apply load64_store64_other; unfold b in *; cbn [snd] in *; lia. }
  split.
  { apply NoDup_app. split; [apply slots_NoDup |]. split; [| exact Hnd].
    intros x Hx Hx'. destruct (Hnewslot x Hx) as (Hx1 & Hx2 & _).
    destruct (Hold x Hx') as (Ha1 & _). rewrite <- Hc0, Hhi in *. lia. }
  split.
  { apply Forall_app. split.
    - apply Forall_forall. intros x Hx. exists b.
      split; [apply elem_of_cons; auto | fold sz; apply Hnewslot, Hx].
    - eapply Forall_impl; [exact Hslots |]. intros x. apply slot_mono. }
  split.
  { apply cursor_ok_mono. eapply cursor_ok_ext; [| | exact Hcur]; cbn; congruence. }
  apply Forall_app. split; [| exact Hout].
  apply Forall_forall. intros x Hx Hrange.
  destruct (Hnewslot x Hx) as (Hx1 & Hx2 & _).
  destruct Hcur as [[Hz1 Hz2] | (b' & Hin' & Hlo' & Hle' & Hhi' & _)]; [lia |].
  pose proof (new_area_clear T _ b b' Hok Hin') as Hap.
  unfold apart in Hap. apply orb_prop in Hap. rewrite !Z.leb_le in Hap. lia.
Qed.

End Invariant.

(** ** Whole runs *)

Section Runs.

Variable T : CType.
Hypothesis HT : type_ok T.

Lemma allocate_trace (p p1 : MemoryPool) (e e1 : Env) (a : Z) :
  allocate T p e = Some (a, p1, e1) -> exists new, trace e1 = new ++ trace e.
Proof.
  unfold allocate. destruct (PointerList.nonempty (mChunkList p)).
  - destruct (PointerList.pop _ _) as [[c l] |]; [| discriminate].
    intros [= <- <- <-]. exists []. reflexivity.
  - destruct (has_room T p).
    + destruct (createChunk T p) as [[c p'] |]; [| discriminate].
      intros [= <- <- <-]. exists []. reflexivity.
    + unfold allocBlock.
      destruct (alignedMalloc T p e) as [[[c p'] e'] |] eqn:Ham; [| discriminate].
      destruct (alignedMalloc_spec _ _ _ _ _ _ Ham) as [Hc _].
      destruct (callMalloc_spec _ _ _ _ _ _ Hc) as (_ & Htr & _).
      destruct (createChunk T _) as [[c' p''] |]; [| discriminate].
      intros [= <- <- <-]. eexists [_]. exact Htr.
Qed.

Lemma step_trace (o : op) (p p1 : MemoryPool) (e e1 : Env) (c : call) :
  step T o p e = Some (c, p1, e1) -> exists new, trace e1 = new ++ trace e.
Proof.
  destruct o as [| ptr | n]; cbn [step].
  - destruct (allocate T p e) as [[[a p'] e'] |] eqn:Ha; [| discriminate].
    intros [= <- <- <-]. eapply allocate_trace; eauto.
  - destruct (deallocate ptr p e) as [[p' e'] |] eqn:Hd; [| discriminate].
    intros [= <- <- <-]. unfold deallocate in Hd.
    destruct (negb (ptr =? 0)); [| discriminate].
    cbn in Hd. injection Hd as <- <-. exists []. reflexivity.
  - destruct (reserve T n p e) as [[p' e'] |] eqn:Hr; [| discriminate].
    intros [= <- <- <-]. eexists [_]. apply (reserve_request T n p _ e _ Hr).
Qed.

Lemma run_trace (ops : list op) :
  forall (p p1 : MemoryPool) (e e1 : Env) (log : list call),
    run T ops p e = Some (log, p1, e1) -> exists new, trace e1 = new ++ trace e.
Proof.
  induction ops as [| o ops IH]; intros p p1 e e1 log; cbn [run].
  - intros [= <- <- <-]. exists []. reflexivity.
  - destruct (step T o p e) as [[[c p'] e'] |] eqn:Hs; [| discriminate].
    destruct (run T ops p' e') as [[[log' p''] e''] |] eqn:Hr; [| discriminate].
    intros [= <- <- <-].
    destruct (step_trace _ _ _ _ _ _ Hs) as (n1 & H1).
    destruct (IH _ _ _ _ _ Hr) as (n2 & H2).
    exists (n2 ++ n1). rewrite H2, H1, app_assoc. reflexivity.
Qed.

(** Along a run in which the client respects the contract and the
    allocator serves every request with blocks that stay clear of each
    other, the invariant holds, no chunk is returned while the client
    holds it, and every chunk returned is aligned. *)
Lemma run_inv (ops : list op) :
  forall (p p1 : MemoryPool) (e e1 : Env) (live : list Z) (log : list call),
    pool_inv T p e live ->
    run T ops p e = Some (log, p1, e1) ->
    allocator_ok T (blocks (trace e1)) = true ->
    respects_contract live log = true ->
    pool_inv T p1 e1 (live_after live log)
    /\ never_reissued live log = true
    /\ all_aligned (alignofT T) log = true.
Proof.
  induction ops as [| o ops IH]; intros p p1 e e1 live log Hinv; cbn [run].
  - intros [= <- <- <-] _ _. cbn. auto.
  - destruct (step T o p e) as [[[c p'] e'] |] eqn:Hs; [| discriminate].
    destruct (run T ops p' e') as [[[log' p''] e''] |] eqn:Hr; [| discriminate].
    intros [= <- <- <-] Hok Hcontract.
    assert (Hok' : allocator_ok T (blocks (trace e')) = true).
    { destruct (run_trace _ _ _ _ _ _ Hr) as (new & Hnew).
      rewrite Hnew, blocks_app in Hok. eapply allocator_ok_tail; eauto. }
    destruct o as [| ptr | n]; cbn [step] in Hs.
    + destruct (allocate T p e) as [[[a q] f] |] eqn:Ha; [| discriminate].
      injection Hs as <- <- <-.
      destruct (allocate_inv T HT _ _ _ _ _ _ Hinv Ha Hok') as (Hinv' & Hnew & Haligned).
      cbn [respects_contract never_reissued all_aligned live_after] in *.
      destruct (IH _ _ _ _ _ _ Hinv' Hr Hok Hcontract) as (Hfin & Hnr & Hall).
      split; [exact Hfin |]. rewrite Hnr, Hall, Haligned. cbn.
      split; [| reflexivity].
      destruct (holds a live) eqn:Hh; [| reflexivity].
      apply holds_elem in Hh. contradiction.
    + destruct (deallocate ptr p e) as [[q f] |] eqn:Hd; [| discriminate].
      injection Hs as <- <- <-.
      cbn [respects_contract never_reissued all_aligned live_after] in *.
      apply andb_prop in Hcontract as [Hheld Hcontract].
      apply holds_elem in Hheld.
      pose proof (deallocate_inv T HT _ _ _ _ _ _ Hinv Hheld Hd Hok') as Hinv'.
      exact (IH _ _ _ _ _ _ Hinv' Hr Hok Hcontract).
    + destruct (reserve T n p e) as [[q f] |] eqn:Hrs; [| discriminate].
      injection Hs as <- <- <-.
      cbn [respects_contract never_reissued all_aligned live_after] in *.
      pose proof (reserve_inv T HT _ _ _ _ _ _ Hinv Hrs Hok') as Hinv'.
      exact (IH _ _ _ _ _ _ Hinv' Hr Hok Hcontract).
Qed.

(** A freshly constructed pool satisfies the invariant. *)
Lemma construct_inv (g : spec_float) (p0 : MemoryPool) (answers : list Z) :
  construct T g = Some p0 -> pool_inv T p0 (fresh_env answers) [].
Proof.
  intros Hnew. apply construct_spec in Hnew. subst p0.
  exists []. cbn. split; [reflexivity |]. split; [constructor |].
  split; [constructor |]. split; [left; auto | constructor].
Qed.

End Runs.

(** The conditions on the allocator can be met for alignments below and
    above the pointer size: a pool of [IntPair] (alignment 4) with blocks
    at 4096 and 65536, and a pool of [Vec128] (alignment 16) with a block
    at 4112. *)
Example served_run_of_int_pairs :
  exists log p e,
    run IntPair [Reserve 2; Allocate; Allocate; Allocate; Deallocate 4108; Allocate]
        (mkPool 0 0 1024 F32.two 0 0) (fresh_env [4096; 65536]) = Some (log, p, e)
    /\ log = [Reserved 2; Allocated 4116; Allocated 4108; Allocated 65548;
              Deallocated 4108; Allocated 4108]
    /\ respects_contract [] log = true
    /\ allocator_ok IntPair (blocks (trace e)) = true.
Proof.
  eexists _, _, _. split; [vm_compute; reflexivity |].
  split; [reflexivity |]. split; [reflexivity |]. vm_compute; reflexivity.
Qed.

Example served_run_of_vectors :
  exists log p e,
    run Vec128 [Allocate; Allocate; Deallocate 4128; Deallocate 4112; Allocate]
        (mkPool 0 0 1024 F32.two 0 0) (fresh_env [4112]) = Some (log, p, e)
    /\ log = [Allocated 4112; Allocated 4128; Deallocated 4128; Deallocated 4112;
              Allocated 4112]
    /\ respects_contract [] log = true
    /\ allocator_ok Vec128 (blocks (trace e)) = true.
Proof.
  eexists _, _, _. split; [vm_compute; reflexivity |].
  split; [reflexivity |]. split; [reflexivity |]. vm_compute; reflexivity.
Qed.

(** X14: along a contract-respecting run of a fresh pool whose requests
    are all served with chunk areas clear of each other, no chunk is
    returned twice without having been deallocated in between. *)
Lemma no_reissue_when_served (T : CType) (g : spec_float) (answers : list Z)
    (ops : list op) (p0 p : MemoryPool) (e : Env) (log : list call) :
  type_ok T ->
  construct T g = Some p0 ->
  run T ops p0 (fresh_env answers) = Some (log, p, e) ->
  respects_contract [] log = true ->
  allocator_ok T (blocks (trace e)) = true ->
  never_reissued [] log = true.
Proof.
  intros HT Hnew Hrun Hcontract Hok.
  eapply run_inv; eauto using construct_inv.
Qed.

(** ** The block list and teardown *)

Section Teardown.

Variable T : CType.
Hypothesis HT : type_ok T.

Let sz := sizeofT T.
Let al := alignofT T.

Lemma tidy_ok (bs : list (Z * Z)) :
  allocator_tidy T bs = true -> allocator_ok T bs = true.
Proof.
  induction bs as [| b bs IH]; cbn; [auto |].
  intros H. apply andb_prop in H as [H Hrest]. apply andb_prop in H as [Hb Hall].
  unfold tidy_block in Hb. apply andb_prop in Hb as [Hb _].
  rewrite Hb, (IH Hrest), andb_true_r. cbn.
  rewrite forallb_forall in Hall |- *. intros x Hx.
  specialize (Hall x Hx). unfold tidy_with in Hall.
  apply andb_prop in Hall as [Hall _]. apply andb_prop in Hall as [Hall _].
  exact Hall.
Qed.

Lemma allocator_tidy_tail (l1 l2 : list (Z * Z)) :
  allocator_tidy T (l1 ++ l2) = true -> allocator_tidy T l2 = true.
Proof.
  induction l1 as [| b l1 IH]; cbn; [auto |].
  intros H. apply andb_prop in H as [_ H]. auto.
Qed.

(** Under a tidy allocator a header word meets no chunk area and no other
    header word. *)
Lemma tidy_header_area (bs : list (Z * Z)) (b b' : Z * Z) :
  allocator_tidy T bs = true -> b ∈ bs -> b' ∈ bs ->
  apart (snd b) (snd b + ptr_size) (area_lo T b') (area_hi T b') = true.
Proof.
  induction bs as [| x bs IH]; cbn; intros H Hin Hin'.
  - inversion Hin.
  - apply andb_prop in H as [H Hrest]. apply andb_prop in H as [Hx Hall].
    rewrite forallb_forall in Hall.
    unfold tidy_block in Hx. apply andb_prop in Hx as [_ Hown].
    apply elem_of_cons in Hin as [-> | Hin];
      apply elem_of_cons in Hin' as [-> | Hin']; auto.
    + apply list_elem_of_In, Hall in Hin'. unfold tidy_with, clear_of in Hin'.
      apply andb_prop in Hin' as [H1 _]. apply andb_prop in H1 as [H1 _].
      apply andb_prop in H1 as [_ H1]. exact H1.
    + apply list_elem_of_In, Hall in Hin. unfold tidy_with in Hin.
      apply andb_prop in Hin as [H1 _]. apply andb_prop in H1 as [_ H1]. exact H1.
Qed.

Lemma tidy_new_header (bs : list (Z * Z)) (b b' : Z * Z) :
  allocator_tidy T (b :: bs) = true -> b' ∈ bs ->
  apart (snd b) (snd b + ptr_size) (snd b') (snd b' + ptr_size) = true.
Proof.
  cbn. intros H Hin.
  apply andb_prop in H as [H _]. apply andb_prop in H as [_ Hall].
  rewrite forallb_forall in Hall.
  apply list_elem_of_In, Hall in Hin. unfold tidy_with in Hin.
  apply andb_prop in Hin as [_ H1]. exact H1.
Qed.

(** The header words of the acquired blocks, with their ranges. *)
Lemma header_range (bs : list (Z * Z)) (x : Z) :
  allocator_tidy T bs = true -> x ∈ map snd bs -> 0 < x /\ x + 8 <= modulus.
Proof.
  intros Htidy Hx. apply list_elem_of_fmap in Hx as (b & -> & Hb).
  pose proof (block_ok_facts T HT b
                (allocator_ok_block T bs b (tidy_ok bs Htidy) Hb)). lia.
Qed.

Lemma blocks_head_range (bs : list (Z * Z)) (h : gmap Z Z) (head : Z) :
  allocator_tidy T bs = true -> lseg h head (map snd bs) 0 ->
  0 <= head < modulus.
Proof.
  intros Htidy Hseg. destruct bs as [| b bs]; cbn in Hseg.
  - subst. unfold modulus. lia.
  - destruct Hseg as (-> & _ & _).
    pose proof (header_range (b :: bs) (snd b) Htidy
                  ltac:(cbn; apply elem_of_cons; auto)). lia.
Qed.

(** Writing a chunk's link keeps the block list. *)
Lemma blocks_inv_chunk_write (bs : list (Z * Z)) (h : gmap Z Z) (head c v : Z) :
  allocator_tidy T bs = true -> slot T bs c ->
  lseg h head (map snd bs) 0 ->
  lseg (store64 h c v) head (map snd bs) 0.
Proof.
  destruct (type_facts T HT) as (Hsz & _). fold sz in Hsz.
  intros Htidy Hslot Hseg. eapply lseg_frame; [exact Hseg |].
  intros x Hx. apply list_elem_of_In in Hx.
  pose proof (header_range bs x Htidy Hx) as Hxr.
  pose proof (slot_range T HT bs c (tidy_ok bs Htidy) Hslot) as Hcr.
  apply list_elem_of_fmap in Hx as (b & -> & Hb).
  destruct Hslot as (b' & Hb' & Hlo & Hhi & _). fold sz in Hhi.
  pose proof (tidy_header_area bs b b' Htidy Hb Hb') as Hap.
  unfold apart, ptr_size in Hap. apply orb_prop in Hap. rewrite !Z.leb_le in Hap.
  apply load64_store64_other; lia.
Qed.

(** Acquiring a block links it in front of the block list. *)
Lemma blocks_inv_acquire (p p1 : MemoryPool) (e e1 : Env) (m : Z) :
  blocks_inv p e ->
  callMalloc T p e = Some (m, p1, e1) ->
  allocator_tidy T (blocks (trace e1)) = true ->
  blocks_inv p1 e1
  /\ blocks (trace e1) = (bytesToAlloc T p, m) :: blocks (trace e).
Proof.
  unfold blocks_inv. intros Hseg Hc Htidy.
  destruct (callMalloc_spec _ _ _ _ _ _ Hc)
    as (_ & Htr & _ & _ & _ & _ & _ & _ & _ & Hserved).
  set (b := (bytesToAlloc T p, m)).
  assert (Hbs : blocks (trace e1) = b :: blocks (trace e))
    by (rewrite Htr; reflexivity).
  split; [| exact Hbs]. rewrite Hbs in *.
  assert (Htidy' : allocator_tidy T (blocks (trace e)) = true)
    by (apply (allocator_tidy_tail [b]); exact Htidy).
  pose proof (header_range _ m Htidy ltac:(cbn; apply elem_of_cons; auto)) as Hm.
  destruct (Hserved ltac:(lia)) as [-> ->].
  pose proof (blocks_head_range _ _ _ Htidy' Hseg) as Hhead.
  cbn [map lseg]. change (snd b) with m.
  split; [reflexivity |]. split; [lia |].
  rewrite load64_store64_same by lia.
  eapply lseg_frame; [exact Hseg |].
  intros x Hx. apply list_elem_of_In in Hx.
  pose proof (header_range _ x Htidy' Hx) as Hxr.
  apply list_elem_of_fmap in Hx as (b' & -> & Hb').
  pose proof (tidy_new_header _ b b' Htidy Hb') as Hap.
  unfold apart, ptr_size in Hap. apply orb_prop in Hap. rewrite !Z.leb_le in Hap.
  change (snd b) with m in Hap.
  apply load64_store64_other; lia.
Qed.


(** The loop of [reserve] writes between [c] and [cend] only. *)
Lemma reserve_loop_frame (fuel : nat) :
  forall (c cend l l' : Z) (h h' : gmap Z Z),
    0 <= c -> cend + sz < modulus ->
    reserve_loop T fuel c cend l h = Some (l', h') ->
    forall x, 0 <= x -> x + 8 <= modulus -> x + 8 <= c \/ cend <= x ->
              load64 h' x = load64 h x.
Proof.
  destruct (type_facts T HT) as (Hsz & _). fold sz in Hsz.
  induction fuel as [| fuel IH]; intros c cend l l' h h' Hc Hend Hrun;
    cbn [reserve_loop] in Hrun.
  - destruct (c =? cend); [| discriminate]. injection Hrun as <- <-. auto.
  - destruct (Z.eqb_spec c cend) as [-> | _]; [injection Hrun as <- <-; auto |].
    destruct (Z.ltb_spec c cend) as [Hlt |]; [| discriminate].
    destruct (_ =? 0); [| discriminate].
    cbn [andb PointerList.push] in Hrun. fold sz in Hrun.
    rewrite wrap_small in Hrun by lia.
    assert (Hc' : 0 <= c + sz) by lia.
    intros x Hx Hx8 Hout.
    destruct (reserve_loop_rounds T HT _ _ _ _ _ _ _ Hc' Hend Hrun) as (r & _ & Hr).
    fold sz in Hr.
    rewrite (IH _ _ _ _ _ _ Hc' Hend Hrun x Hx Hx8) by lia.
    apply load64_store64_other; nia.
Qed.

Lemma allocate_blocks_inv (p p1 : MemoryPool) (e e1 : Env) (a : Z) :
  blocks_inv p e ->
  allocate T p e = Some (a, p1, e1) ->
  allocator_tidy T (blocks (trace e1)) = true ->
  blocks_inv p1 e1.
Proof.
  intros Hb. unfold allocate. destruct (PointerList.nonempty (mChunkList p)).
  - destruct (PointerList.pop _ _) as [[c l] |]; [| discriminate].
    intros [= <- <- <-] _. exact Hb.
  - destruct (has_room T p).
    + destruct (createChunk T p) as [[c p'] |] eqn:Hcc; [| discriminate].
      intros [= <- <- <-] _.
      destruct (createChunk_spec T _ _ _ Hcc) as (_ & _ & _ & ->). exact Hb.
    + unfold allocBlock.
      destruct (alignedMalloc T p e) as [[[c p'] e'] |] eqn:Ham; [| discriminate].
      destruct (alignedMalloc_spec _ _ _ _ _ _ Ham) as [Hc _].
      destruct (createChunk T _) as [[c' p''] |] eqn:Hcc; [| discriminate].
      intros [= <- <- <-] Htidy.
      destruct (createChunk_spec T _ _ _ Hcc) as (_ & _ & _ & ->).
      exact (proj1 (blocks_inv_acquire _ _ _ _ _ Hb Hc Htidy)).
Qed.

Lemma deallocate_blocks_inv (p p1 : MemoryPool) (e e1 : Env) (live : list Z) (ptr : Z) :
  pool_inv T p e live -> ptr ∈ live ->
  blocks_inv p e ->
  deallocate ptr p e = Some (p1, e1) ->
  allocator_tidy T (blocks (trace e1)) = true ->
  blocks_inv p1 e1.
Proof.
  intros (fl & _ & _ & Hslots & _) Hin Hb Hd Htidy.
  unfold deallocate in Hd. destruct (negb (ptr =? 0)); [| discriminate].
  cbn [PointerList.push] in Hd. injection Hd as <- <-.
  unfold blocks_inv in *. cbn [trace set_heap heap_of mBlockList set_chunks] in *.
  apply blocks_inv_chunk_write; auto.
  rewrite Forall_forall in Hslots. apply Hslots, elem_of_app. auto.
Qed.

Lemma reserve_blocks_inv (p p1 : MemoryPool) (e e1 : Env) (n : Z) :
  blocks_inv p e ->
  reserve T n p e = Some (p1, e1) ->
  allocator_tidy T (blocks (trace e1)) = true ->
  blocks_inv p1 e1.
Proof.
  destruct (type_facts T HT) as (Hsz & Hal & Hmul & k & Hk & Hpow).
  fold sz al in Hsz, Hal, Hmul, Hpow.
  intros Hb Hr Htidy. unfold reserve in Hr.
  destruct (negb (n =? 0)); [| discriminate].
  destruct (alignedMalloc T (set_next n p) e) as [[[c p'] e'] |] eqn:Ham;
    [| discriminate].
  destruct (alignedMalloc_spec _ _ _ _ _ _ Ham) as [Hc Hal'].
  cbn [mNextAllocSize set_next] in Hr.
  set (b := (bytesToAlloc T (set_next n p), next_answer e)) in *.
  assert (Hc0 : c = area_lo T b).
  { unfold align in Hal'. cbv zeta in Hal'.
    destruct (_ =? 0) in Hal'; [| discriminate]. injection Hal' as <-.
    reflexivity. }
  assert (Hshape : exists l' h',
             reserve_loop T (Z.to_nat n) c (wrap (c + wrap (n * sz)))
                          (mChunkList p') (heap_of e') = Some (l', h')
             /\ p1 = set_chunks l' p' /\ e1 = set_heap h' e').
  { fold sz in Hr. destruct (Z.eqb_spec c 0) as [Hz | _].
    - exfalso. rewrite Hc0 in Hz. unfold area_lo in Hz. fold al in Hz.
      rewrite Hpow in Hz. revert Hz. apply align_raw_nonnull. lia.
    - destruct (reserve_loop _ _ _ _ _ _) as [[l' h'] |]; [| discriminate].
      injection Hr as <- <-. eauto. }
  destruct Hshape as (l' & h' & Hrun & -> & ->).
  cbn [trace set_heap] in Htidy.
  assert (Hb0 : blocks_inv (set_next n p) e) by exact Hb.
  destruct (blocks_inv_acquire _ _ _ _ _ Hb0 Hc Htidy) as [Hb' Hbs].
  fold b in Hbs. rewrite Hbs in Htidy.
  pose proof (block_ok_facts T HT b
                (allocator_ok_block T _ b (tidy_ok _ Htidy)
                   ltac:(apply elem_of_cons; auto)))
    as (Hm & Hm8 & Hsize & Hl & Hh & Hla).
  fold sz al in Hm, Hm8, Hsize, Hl, Hh, Hla.
  assert (Hw : wrap (n * sz) = fst b - al).
  { assert (Halr : 0 < al < modulus).
    { split; [lia |]. rewrite Hpow. unfold modulus. apply Z.pow_lt_mono_r; lia. }
    pose proof (request_size_exact (wrap (n * sz)) al
                  (wrap_range _) Halr Hsize) as Hrq.
    unfold b, bytesToAlloc. cbn [fst mNextAllocSize set_next]. fold sz al. lia. }
  assert (Hend : wrap (c + wrap (n * sz)) = area_hi T b).
  { rewrite Hw. unfold area_hi. fold al. rewrite <- Hc0.
    apply wrap_small. unfold area_hi in Hh. fold al in Hh. rewrite <- Hc0 in Hh. lia. }
  rewrite Hend in Hrun.
  assert (Hcnn : 0 <= c) by lia.
  unfold blocks_inv in *.
  cbn [trace set_heap heap_of mBlockList set_chunks].
  eapply lseg_frame; [exact Hb' |].
  intros x Hx. apply list_elem_of_In in Hx. rewrite Hbs in Hx.
  pose proof (header_range _ x Htidy Hx) as Hxr.
  apply list_elem_of_fmap in Hx as (bx & -> & Hbx).
  pose proof (tidy_header_area _ bx b Htidy Hbx ltac:(apply elem_of_cons; auto)) as Hap.
  unfold apart, ptr_size in Hap. apply orb_prop in Hap. rewrite !Z.leb_le in Hap.
  apply (reserve_loop_frame _ _ _ _ _ _ _ Hcnn Hh Hrun); lia.
Qed.

(** No call of the client releases anything. *)
Lemma step_releases (o : op) (p p1 : MemoryPool) (e e1 : Env) (c : call) :
  step T o p e = Some (c, p1, e1) -> releases (trace e1) = releases (trace e).
Proof.
  destruct o as [| ptr | n]; cbn [step].
  - destruct (allocate T p e) as [[[a p'] e'] |] eqn:Ha; [| discriminate].
    intros [= <- <- <-]. revert Ha. unfold allocate.
    destruct (PointerList.nonempty (mChunkList p)).
    + destruct (PointerList.pop _ _) as [[x l] |]; [| discriminate].
      intros [= <- <- <-]. reflexivity.
    + destruct (has_room T p).
      * destruct (createChunk T p) as [[x q] |]; [| discriminate].
        intros [= <- <- <-]. reflexivity.
      * unfold allocBlock.
        destruct (alignedMalloc T p e) as [[[x q] f] |] eqn:Ham; [| discriminate].
        destruct (alignedMalloc_spec _ _ _ _ _ _ Ham) as [Hc _].
        destruct (callMalloc_spec _ _ _ _ _ _ Hc) as (_ & Htr & _).
        destruct (createChunk T _) as [[x' q'] |]; [| discriminate].
        intros [= <- <- <-]. rewrite Htr. reflexivity.
  - destruct (deallocate ptr p e) as [[p' e'] |] eqn:Hd; [| discriminate].
    intros [= <- <- <-]. unfold deallocate in Hd.
    destruct (negb (ptr =? 0)); [| discriminate].
    cbn in Hd. injection Hd as <- <-. reflexivity.
  - destruct (reserve T n p e) as [[p' e'] |] eqn:Hr; [| discriminate].
    intros [= <- <- <-].
    rewrite (proj1 (reserve_request T n p _ e _ Hr)). reflexivity.
Qed.

Lemma run_releases (ops : list op) :
  forall (p p1 : MemoryPool) (e e1 : Env) (log : list call),
    run T ops p e = Some (log, p1, e1) -> releases (trace e1) = releases (trace e).
Proof.
  induction ops as [| o ops IH]; intros p p1 e e1 log; cbn [run].
  - intros [= <- <- <-]. reflexivity.
  - destruct (step T o p e) as [[[c p'] e'] |] eqn:Hs; [| discriminate].
    destruct (run T ops p' e') as [[[log' p''] e''] |] eqn:Hr; [| discriminate].
    intros [= <- <- <-].
    rewrite (IH _ _ _ _ _ Hr). eapply step_releases; eauto.
Qed.

(** Along a run as in [run_inv], under a tidy allocator, the block list
    stays the linked list of the acquired blocks. *)
Lemma run_blocks_inv (ops : list op) :
  forall (p p1 : MemoryPool) (e e1 : Env) (live : list Z) (log : list call),
    pool_inv T p e live -> blocks_inv p e ->
    run T ops p e = Some (log, p1, e1) ->
    allocator_tidy T (blocks (trace e1)) = true ->
    respects_contract live log = true ->
    blocks_inv p1 e1.
Proof.
  induction ops as [| o ops IH]; intros p p1 e e1 live log Hinv Hb; cbn [run].
  - intros [= <- <- <-] _ _. exact Hb.
  - destruct (step T o p e) as [[[c p'] e'] |] eqn:Hs; [| discriminate].
    destruct (run T ops p' e') as [[[log' p''] e''] |] eqn:Hr; [| discriminate].
    intros [= <- <- <-] Htidy Hcontract.
    assert (Htidy' : allocator_tidy T (blocks (trace e')) = true).
    { destruct (run_trace T _ _ _ _ _ _ Hr) as (new & Hnew).
      rewrite Hnew, blocks_app in Htidy. eapply allocator_tidy_tail; eauto. }
    pose proof (tidy_ok _ Htidy') as Hok'.
    destruct o as [| ptr | n]; cbn [step] in Hs.
    + destruct (allocate T p e) as [[[a q] f] |] eqn:Ha; [| discriminate].
      injection Hs as <- <- <-.
      destruct (allocate_inv T HT _ _ _ _ _ _ Hinv Ha Hok') as (Hinv' & _).
      pose proof (allocate_blocks_inv _ _ _ _ _ Hb Ha Htidy') as Hb'.
      cbn [respects_contract] in Hcontract.
      exact (IH _ _ _ _ _ _ Hinv' Hb' Hr Htidy Hcontract).
    + destruct (deallocate ptr p e) as [[q f] |] eqn:Hd; [| discriminate].
      injection Hs as <- <- <-.
      cbn [respects_contract] in Hcontract.
      apply andb_prop in Hcontract as [Hheld Hcontract].
      apply holds_elem in Hheld.
      pose proof (deallocate_inv T HT _ _ _ _ _ _ Hinv Hheld Hd Hok') as Hinv'.
      pose proof (deallocate_blocks_inv _ _ _ _ _ _ Hinv Hheld Hb Hd Htidy') as Hb'.
      exact (IH _ _ _ _ _ _ Hinv' Hb' Hr Htidy Hcontract).
    + destruct (reserve T n p e) as [[q f] |] eqn:Hrs; [| discriminate].
      injection Hs as <- <- <-.
      cbn [respects_contract] in Hcontract.
      pose proof (reserve_inv T HT _ _ _ _ _ _ Hinv Hrs Hok') as Hinv'.
      pose proof (reserve_blocks_inv _ _ _ _ _ Hb Hrs Htidy') as Hb'.
      exact (IH _ _ _ _ _ _ Hinv' Hb' Hr Htidy Hcontract).
Qed.

End Teardown.

(** The destructor walks a linked block list to its end, releasing each
    block once, most recent first. *)
Lemma destroy_walks (bl : list Z) :
  forall (fuel : nat) (p : MemoryPool) (e : Env),
    (length bl <= fuel)%nat ->
    lseg (heap_of e) (mBlockList p) bl 0 ->
    exists e',
      destroy fuel p e = Some (set_blocks 0 p, e')
      /\ trace e' = rev (map EvFree bl) ++ trace e.
Proof.
  induction bl as [| b bl IH]; intros fuel p e Hfuel Hseg; cbn in Hseg.
  - exists e. rewrite <- Hseg. split; [| reflexivity].
    destruct fuel; cbn; rewrite Hseg; cbn; destruct p; cbn in *; subst; reflexivity.
  - destruct Hseg as (Hhead & Hb & Hseg).
    destruct fuel as [| fuel]; [cbn in Hfuel; lia |].
    cbn [destroy]. unfold PointerList.pop, PointerList.nonempty. rewrite Hhead.
    destruct (Z.eqb_spec b 0) as [| _]; [contradiction |]. cbn [negb].
    destruct (IH fuel (set_blocks (load64 (heap_of e) b) p) (free b e))
      as (e' & Hrun & Htr); [cbn in Hfuel; lia | exact Hseg |].
    exists e'. rewrite Hrun. split; [reflexivity |].
    rewrite Htr. cbn. rewrite <- app_assoc. reflexivity.
Qed.

Lemma releases_app (tr1 tr2 : list event) :
  releases (tr1 ++ tr2) = releases tr1 ++ releases tr2.
Proof. unfold releases. apply omap_app. Qed.

Lemma releases_frees (bl : list Z) : releases (map EvFree bl) = bl.
Proof. induction bl as [| b bl IH]; cbn; [reflexivity | f_equal; exact IH]. Qed.

Lemma acquired_blocks (T : CType) (tr : list event) :
  allocator_ok T (blocks tr) = true -> acquired tr = map snd (blocks tr).
Proof.
  induction tr as [| ev tr IH]; [reflexivity |].
  destruct ev as [s r | q]; cbn.
  - intros H. apply andb_prop in H as [H Hrest]. apply andb_prop in H as [Hb _].
    unfold block_ok in Hb. cbn [snd] in Hb.
    destruct (Z.ltb_spec 0 r) as [Hr |]; [| discriminate].
    destruct (Z.eqb_spec r 0) as [| _]; [lia |].
    f_equal. exact (IH Hrest).
  - exact IH.
Qed.

(** X15: when every request is served by a tidy allocator (no chunk area
    meets a header word) and the client respects the contract, nothing is
    released before teardown, and the destructor, given one round per
    block, releases each acquired block exactly once, the most recent
    block first, and leaves the block list empty. *)
Lemma teardown_when_tidy (T : CType) (g : spec_float) (answers : list Z)
    (ops : list op) (p0 p : MemoryPool) (e : Env) (log : list call) :
  type_ok T ->
  construct T g = Some p0 ->
  run T ops p0 (fresh_env answers) = Some (log, p, e) ->
  respects_contract [] log = true ->
  allocator_tidy T (blocks (trace e)) = true ->
  releases (trace e) = []
  /\ exists p' e',
       destroy (length (acquired (trace e))) p e = Some (p', e')
       /\ mBlockList p' = 0
       /\ releases (trace e') = rev (acquired (trace e)).
Proof.
  intros HT Hnew Hrun Hcontract Htidy.
  split; [exact (run_releases T _ _ _ _ _ _ Hrun) |].
  assert (Hb0 : blocks_inv p0 (fresh_env answers)).
  { apply construct_spec in Hnew. subst p0. reflexivity. }
  pose proof (run_blocks_inv T HT _ _ _ _ _ _ _
                (construct_inv T g p0 answers Hnew) Hb0 Hrun Htidy Hcontract) as Hb.
  rewrite (acquired_blocks T _ (tidy_ok T _ Htidy)).
  destruct (destroy_walks (map snd (blocks (trace e)))
              (length (map snd (blocks (trace e)))) p e
              ltac:(lia) Hb) as (e' & Hd & Htr).
  eexists _, e'. split; [exact Hd |]. split; [reflexivity |].
  rewrite Htr, releases_app, (run_releases T _ _ _ _ _ _ Hrun), app_nil_r.
  rewrite <- map_rev. apply releases_frees.
Qed.

(** The conditions of [teardown_when_tidy] are met by a pool of [Node]
    that acquired two blocks, at 4096 and at 65536. *)
Example teardown_of_two_blocks :
  exists log p e p' e',
    run Node [Reserve 2; Allocate; Allocate; Allocate; Deallocate 4104]
        (mkPool 0 0 1024 F32.two 0 0) (fresh_env [4096; 65536]) = Some (log, p, e)
    /\ respects_contract [] log = true
    /\ allocator_tidy Node (blocks (trace e)) = true
    /\ acquired (trace e) = [65536; 4096]
    /\ destroy 2 p e = Some (p', e')
    /\ releases (trace e') = [4096; 65536].
Proof.
  eexists _, _, _, _, _. split; [vm_compute; reflexivity |].
  split; [reflexivity |]. split; [vm_compute; reflexivity |].
  split; [reflexivity |]. split; [vm_compute; reflexivity |].
  reflexivity.
Qed.

(** ** Failing inputs of the pool-wide properties *)

(** C6 at its failing input: a default pool of [Node]; the allocator
    serves the request of [reserve(1)] at 4096 and fails every later one.
    The client never calls [deallocate], and yet the third and the fifth
    call both return address 8: each failed acquisition restarts the cursor
    at [align(nullptr + 8)]. *)
Theorem chunk_reissued_after_exhaustion :
  exists log p e,
    run Node [Reserve 1; Allocate; Allocate; Allocate; Allocate]
        (mkPool 0 0 1024 F32.two 0 0) (fresh_env [4096]) = Some (log, p, e)
    /\ log = [Reserved 1; Allocated 4104; Allocated 8; Allocated 24; Allocated 8]
    /\ trace e = [EvMalloc 72 0; EvMalloc 40 0; EvMalloc 24 4096]
    /\ respects_contract [] log = true
    /\ never_reissued [] log = false.
Proof.
  eexists _, _, _. split; [vm_compute; reflexivity |].
  repeat split.
Qed.

(** C9 at its failing input: a default pool of [Vec128] (size 16,
    alignment 16) whose block the allocator places at 4112, a multiple of
    16 but not of 32.  [align] moves [4112 + 8] back to 4112, so the first
    chunk is the block header itself; once the client has returned both
    its chunks, the link stored in the header is a free-list link, and the
    destructor releases 4112 and then 4128, an address the allocator never
    returned: two releases for one acquired block. *)
Theorem teardown_releases_a_chunk :
  exists log p e p' e',
    run Vec128 [Allocate; Allocate; Deallocate 4128; Deallocate 4112]
        (mkPool 0 0 1024 F32.two 0 0) (fresh_env [4112]) = Some (log, p, e)
    /\ log = [Allocated 4112; Allocated 4128; Deallocated 4128; Deallocated 4112]
    /\ respects_contract [] log = true
    /\ acquired (trace e) = [4112]
    /\ releases (trace e) = []
    /\ destroy 3 p e = Some (p', e')
    /\ releases (trace e') = [4128; 4112].
Proof.
  eexists _, _, _, _, _. split; [vm_compute; reflexivity |].
  split; [reflexivity |]. split; [reflexivity |].
  split; [reflexivity |]. split; [reflexivity |].
  split; [vm_compute; reflexivity |].
  reflexivity.
Qed.

(** ** Growth *)

(** *** The default growth factor doubles exactly *)

Lemma digits2_bounds (m : positive) :
  2 ^ (Z.pos (digits2_pos m) - 1) <= Z.pos m < 2 ^ Z.pos (digits2_pos m).
Proof.
  induction m as [m IH | m IH |]; cbn [digits2_pos].
  - rewrite Pos2Z.inj_succ.
    replace (Z.succ (Z.pos (digits2_pos m)) - 1) with (Z.succ (Z.pos (digits2_pos m) - 1)) by lia.
    rewrite !Z.pow_succ_r by lia. lia.
  - rewrite Pos2Z.inj_succ.
    replace (Z.succ (Z.pos (digits2_pos m)) - 1) with (Z.succ (Z.pos (digits2_pos m) - 1)) by lia.
    rewrite !Z.pow_succ_r by lia. lia.
  - cbn. lia.
Qed.

Lemma iter_xO_digits (m k : positive) :
  digits2_pos (Pos.iter xO m k) = (digits2_pos m + k)%positive.
Proof.
  induction k as [| k IH] using Pos.peano_ind.
  - cbn. lia.
  - rewrite Pos.iter_succ. cbn [digits2_pos]. rewrite IH. lia.
Qed.

Lemma iter_xO_value (m k : positive) :
  Z.pos (Pos.iter xO m k) = Z.pos m * 2 ^ Z.pos k.
Proof.
  induction k as [| k IH] using Pos.peano_ind.
  - cbn. lia.
  - rewrite Pos.iter_succ, Pos2Z.inj_xO, IH, Pos2Z.inj_succ, Z.pow_succ_r by lia. lia.
Qed.

Lemma iter_pos_iter {A : Type} (f : A -> A) (k : positive) (x : A) :
  SpecFloat.iter_pos f k x = Pos.iter f x k.
Proof.
  revert x. induction k as [k IH | k IH |]; intros x; cbn.
  - rewrite !IH. rewrite !Pos.iter_swap. reflexivity.
  - rewrite !IH. reflexivity.
  - reflexivity.
Qed.

Lemma shr_exact (m k : positive) :
  SpecFloat.iter_pos shr_1 k (Build_shr_record (Z.pos (Pos.iter xO m k)) false false)
  = Build_shr_record (Z.pos m) false false.
Proof.
  rewrite iter_pos_iter.
  induction k as [| k IH] using Pos.peano_ind.
  - reflexivity.
  - rewrite (Pos.iter_succ_r k _ shr_1), (Pos.iter_succ k _ xO).
    cbn [shr_1 orb]. exact IH.
Qed.

Lemma round_aux_exact (mz : positive) (e : Z) :
  digits2_pos mz = 24%positive -> -149 <= e <= 104 ->
  binary_round_aux 24 128 false (Z.pos mz) e loc_Exact = S754_finite false mz e.
Proof.
  intros Hd He. unfold binary_round_aux, shr_fexp, fexp, emin.
  cbn [Zdigits2 shr_record_of_loc]. rewrite Hd.
  replace (Z.max (24 + e - 24) (3 - 128 - 24) - e) with 0 by lia.
  cbn [shr shr_m loc_of_shr_record round_nearest_even Zdigits2].
  rewrite Hd.
  replace (Z.max (24 + e - 24) (3 - 128 - 24) - e) with 0 by lia.
  cbn [shr shr_m].
  replace (e <=? 128 - 24) with true by (symmetry; apply Z.leb_le; lia).
  reflexivity.
Qed.

Lemma round_aux_shift (mz k : positive) (e : Z) :
  digits2_pos mz = 24%positive -> -149 <= e -> e + Z.pos k <= 104 ->
  binary_round_aux 24 128 false (Z.pos (Pos.iter xO mz k)) e loc_Exact
  = S754_finite false mz (e + Z.pos k).
Proof.
  intros Hd He Hk. unfold binary_round_aux, shr_fexp, fexp, emin.
  cbn [Zdigits2 shr_record_of_loc]. rewrite iter_xO_digits, Hd.
  replace (Z.max (Z.pos (24 + k) + e - 24) (3 - 128 - 24) - e) with (Z.pos k) by lia.
  cbn [shr]. rewrite shr_exact.
  cbn [shr_m loc_of_shr_record round_nearest_even Zdigits2].
  rewrite Hd.
  replace (Z.max (24 + (e + Z.pos k) - 24) (3 - 128 - 24) - (e + Z.pos k)) with 0 by lia.
  cbn [shr shr_m].
  replace (e + Z.pos k <=? 128 - 24) with true by (symmetry; apply Z.leb_le; lia).
  reflexivity.
Qed.

(** The float image of a count of at most 24 bits: its mantissa is the
    count shifted to 24 digits. *)
Lemma of_size_t_small (m : positive) :
  Z.pos m < 2 ^ 24 ->
  exists mz,
    F32.of_size_t (Z.pos m) = S754_finite false mz (Z.pos (digits2_pos m) - 24)
    /\ digits2_pos mz = 24%positive
    /\ Z.pos mz = Z.pos m * 2 ^ (24 - Z.pos (digits2_pos m)).
Proof.
  intros Hm. pose proof (digits2_bounds m) as Hd.
  set (d := digits2_pos m) in *.
  assert (Hd24 : Z.pos d <= 24).
  { destruct (Z.le_gt_cases (Z.pos d) 24) as [| Hgt]; [assumption |].
    assert (2 ^ 24 <= 2 ^ (Z.pos d - 1)) by (apply Z.pow_le_mono_r; lia). lia. }
  unfold F32.of_size_t, F32.prec, F32.emax, binary_normalize, binary_round, fexp, emin.
  fold d.
  replace (Z.max (Z.pos d + 0 - 24) (3 - 128 - 24)) with (Z.pos d - 24) by lia.
  unfold shl_align.
  destruct (Z.pos d - 24 - 0) as [| q | q] eqn:Hq; [| lia |].
  - exists m. rewrite round_aux_exact by (fold d; lia).
    replace (Z.pos d - 24) with 0 by lia. 
    split; [reflexivity |]. split; [fold d; lia |].
    replace (24 - Z.pos d) with 0 by lia. lia.
  - exists (Pos.iter xO m q).
    rewrite round_aux_exact by (rewrite ?iter_xO_digits; fold d; lia).
    split; [reflexivity |]. split; [rewrite iter_xO_digits; fold d; lia |].
    rewrite iter_xO_value. f_equal. f_equal. lia.
Qed.

Lemma double_exact (n : Z) :
  0 < n < 2 ^ 24 ->
  F32.to_size_t (F32.mul (F32.of_size_t n) F32.two) = Some (2 * n).
Proof.
  intros Hn. destruct n as [| m | m]; try lia.
  destruct (of_size_t_small m ltac:(lia)) as (mz & -> & Hdz & Hval).
  pose proof (digits2_bounds m) as Hd.
  set (d := Z.pos (digits2_pos m)) in *.
  assert (Hd24 : 1 <= d <= 24).
  { split; [subst d; lia |].
    destruct (Z.le_gt_cases d 24) as [| Hgt]; [assumption |].
    assert (2 ^ 24 <= 2 ^ (d - 1)) by (apply Z.pow_le_mono_r; lia). lia. }
  unfold F32.mul, F32.two, SFmul, F32.prec, F32.emax. cbn [xorb].
  replace (mz * 8388608)%positive with (Pos.iter xO mz 23).
  2:{ apply Pos2Z.inj. rewrite iter_xO_value, Pos2Z.inj_mul. reflexivity. }
  rewrite round_aux_shift by lia.
  unfold F32.to_size_t.
  destruct (Z.leb_spec 0 (d - 24 + -22 + 23)) as [Hpos | Hneg].
  - assert (Hcase : d = 24 \/ d = 23) by lia.
    destruct Hcase as [Hc | Hc]; rewrite Hc in *.
    + change (24 - 24 + -22 + 23) with 1. change (2 ^ 1) with 2.
      change (2 ^ (24 - 24)) with 1 in Hval.
      replace (Z.pos mz * 2 <? modulus) with true
        by (symmetry; apply Z.ltb_lt; unfold modulus; lia).
      f_equal. lia.
    + change (23 - 24 + -22 + 23) with 0. change (2 ^ 0) with 1.
      change (2 ^ (24 - 23)) with 2 in Hval.
      replace (Z.pos mz * 1 <? modulus) with true
        by (symmetry; apply Z.ltb_lt; unfold modulus; lia).
      f_equal. lia.
  - replace (- (d - 24 + -22 + 23)) with (23 - d) by lia.
    assert (Hsplit : 2 ^ (24 - d) = 2 * 2 ^ (23 - d)).
    { replace (24 - d) with (Z.succ (23 - d)) by lia. apply Z.pow_succ_r. lia. }
    assert (Hp : 0 < 2 ^ (23 - d)) by (apply Z.pow_pos_nonneg; lia).
    assert (Hv : Z.pos mz / 2 ^ (23 - d) = 2 * Z.pos m).
    { rewrite Hval, Hsplit.
      replace (Z.pos m * (2 * 2 ^ (23 - d))) with (2 * Z.pos m * 2 ^ (23 - d)) by lia.
      apply Z.div_mul. lia. }
    rewrite Hv.
    replace (2 * Z.pos m <? modulus) with true
      by (symmetry; apply Z.ltb_lt; unfold modulus; lia).
    reflexivity.
Qed.

(** *** Rounding in general *)

Lemma digits2_unique (m : positive) (a : Z) :
  2 ^ (a - 1) <= Z.pos m < 2 ^ a -> Z.pos (digits2_pos m) = a.
Proof.
  intros [Hlo Hhi]. pose proof (digits2_bounds m) as [Hdlo Hdhi].
  set (d := Z.pos (digits2_pos m)) in *.
  assert (Hd : 1 <= d) by (subst d; lia).
  assert (Ha : 1 <= a).
  { destruct (Z.le_gt_cases 1 a) as [| Hlt]; [assumption |].
    assert (Hz : a = 0 \/ a < 0) by lia. destruct Hz as [-> | Hneg].
    - change (2 ^ 0) with 1 in Hhi. lia.
    - rewrite (Z.pow_neg_r 2 a) in Hhi by lia. lia. }
  destruct (Z.lt_trichotomy d a) as [Hlt | [Heq | Hgt]]; [| exact Heq |].
  - assert (2 ^ d <= 2 ^ (a - 1)) by (apply Z.pow_le_mono_r; lia). lia.
  - assert (2 ^ a <= 2 ^ (d - 1)) by (apply Z.pow_le_mono_r; lia). lia.
Qed.

Lemma shr_1_m (r : shr_record) :
  0 <= shr_m r -> shr_m (shr_1 r) = shr_m r / 2.
Proof.
  destruct r as [m rb sb]. cbn [shr_m]. intros Hm.
  destruct m as [| [q | q |] |]; cbn [shr_1 shr_m]; [reflexivity | | | reflexivity | lia].
  - apply (Z.div_unique (Z.pos q~1) 2 (Z.pos q) 1); lia.
  - apply (Z.div_unique (Z.pos q~0) 2 (Z.pos q) 0); lia.
Qed.

Lemma shr_m_iter (k : positive) (r : shr_record) :
  0 <= shr_m r ->
  shr_m (SpecFloat.iter_pos shr_1 k r) = shr_m r / 2 ^ Z.pos k.
Proof.
  intros Hm. rewrite iter_pos_iter.
  induction k as [| k IH] using Pos.peano_ind.
  - cbn [Pos.iter]. rewrite shr_1_m by exact Hm. reflexivity.
  - rewrite Pos.iter_succ.
    assert (Hp : 0 < 2 ^ Z.pos k) by (apply Z.pow_pos_nonneg; lia).
    rewrite shr_1_m by (rewrite IH; apply Z.div_pos; lia).
    rewrite IH, Pos2Z.inj_succ, Z.pow_succ_r, Z.div_div by lia.
    f_equal. lia.
Qed.

Lemma round_nearest_even_bounds (q : Z) (l : location) :
  q <= round_nearest_even q l <= q + 1.
Proof.
  destruct l as [| []]; cbn [round_nearest_even]; try lia.
  destruct (Z.even q); lia.
Qed.

(** Shifting an exact mantissa down to the format's precision. *)
Lemma shr_fexp_exact (m : positive) (e : Z) :
  -149 <= Z.pos (digits2_pos m) + e - 24 ->
  exists mrs,
    shr_fexp 24 128 (Z.pos m) e loc_Exact
    = (mrs, e + Z.max 0 (Z.pos (digits2_pos m) - 24))
    /\ shr_m mrs = Z.pos m / 2 ^ Z.max 0 (Z.pos (digits2_pos m) - 24).
Proof.
  intros He. unfold shr_fexp, fexp, emin. cbn [Zdigits2 shr_record_of_loc].
  set (d := Z.pos (digits2_pos m)) in *.
  destruct (Z.max (d + e - 24) (3 - 128 - 24) - e) as [| k | k] eqn:Hs; cbn [shr].
  - replace (Z.max 0 (d - 24)) with 0 by lia.
    eexists. rewrite Z.add_0_r. split; [reflexivity |].
    cbn [shr_m]. rewrite Z.pow_0_r, Z.div_1_r. reflexivity.
  - replace (Z.max 0 (d - 24)) with (Z.pos k) by lia.
    eexists. split; [reflexivity |].
    rewrite shr_m_iter by (cbn; lia). reflexivity.
  - replace (Z.max 0 (d - 24)) with 0 by lia.
    eexists. rewrite Z.add_0_r. split; [reflexivity |].
    cbn [shr_m]. rewrite Z.pow_0_r, Z.div_1_r. reflexivity.
Qed.

(** Rounding a mantissa of at least 24 digits stays in its binade: the
    result has a 24-digit mantissa and the exponent that goes with the
    digits of the input, or it is the power of two above. *)
Lemma round_aux_binade (m : positive) (e : Z) :
  24 <= Z.pos (digits2_pos m) ->
  -149 <= Z.pos (digits2_pos m) + e - 24 ->
  Z.pos (digits2_pos m) + e - 23 <= 104 ->
  exists m',
    2 ^ 23 <= Z.pos m' < 2 ^ 24
    /\ (binary_round_aux 24 128 false (Z.pos m) e loc_Exact
        = S754_finite false m' (Z.pos (digits2_pos m) + e - 24)
        \/ (Z.pos m' = 2 ^ 23
            /\ binary_round_aux 24 128 false (Z.pos m) e loc_Exact
               = S754_finite false m' (Z.pos (digits2_pos m) + e - 23))).
Proof.
  intros Hd Hlo Hhi. pose proof (digits2_bounds m) as [Hmlo Hmhi].
  set (d := Z.pos (digits2_pos m)) in *.
  unfold binary_round_aux.
  destruct (shr_fexp_exact m e Hlo) as (mrs & -> & Hq). fold d in Hq |- *.
  replace (Z.max 0 (d - 24)) with (d - 24) in * by lia.
  set (q := shr_m mrs) in *.
  assert (Hk : 0 < 2 ^ (d - 24)) by (apply Z.pow_pos_nonneg; lia).
  assert (Hsplit1 : 2 ^ (d - 1) = 2 ^ (d - 24) * 2 ^ 23).
  { rewrite <- Z.pow_add_r by lia. f_equal. lia. }
  assert (Hsplit2 : 2 ^ d = 2 ^ (d - 24) * 2 ^ 24).
  { rewrite <- Z.pow_add_r by lia. f_equal. lia. }
  assert (Hqr : 2 ^ 23 <= q < 2 ^ 24).
  { rewrite Hq. split.
    - apply Z.div_le_lower_bound; lia.
    - apply Z.div_lt_upper_bound; lia. }
  pose proof (round_nearest_even_bounds q (loc_of_shr_record mrs)) as Hr.
  destruct (round_nearest_even q (loc_of_shr_record mrs)) as [| r | r] eqn:Hround;
    [lia | | lia].
  assert (Hcase : Z.pos r < 2 ^ 24 \/ Z.pos r = 2 ^ 24) by lia.
  destruct Hcase as [Hlt | Heq].
  - assert (Hdr : Z.pos (digits2_pos r) = 24)
      by (apply digits2_unique; change (24 - 1) with 23; lia).
    destruct (shr_fexp_exact r (e + (d - 24)) ltac:(lia)) as (mrs2 & -> & Hq2).
    rewrite Hdr in *. change (Z.max 0 (24 - 24)) with 0 in *.
    rewrite Z.pow_0_r, Z.div_1_r in Hq2. rewrite Hq2.
    replace (e + (d - 24) + 0 <=? 128 - 24) with true
      by (symmetry; apply Z.leb_le; lia).
    exists r. split; [lia |]. left. f_equal. lia.
  - assert (Hdr : Z.pos (digits2_pos r) = 25)
      by (apply digits2_unique; change (25 - 1) with 24;
          rewrite Heq; change (2 ^ 25) with (2 * 2 ^ 24); lia).
    destruct (shr_fexp_exact r (e + (d - 24)) ltac:(lia)) as (mrs2 & -> & Hq2).
    rewrite Hdr in *. change (Z.max 0 (25 - 24)) with 1 in *.
    rewrite Heq in Hq2. change (2 ^ 24 / 2 ^ 1) with (2 ^ 23) in Hq2.
    destruct (shr_m mrs2) as [| r2 | r2] eqn:Hm2;
      [exfalso; revert Hq2; discriminate | | exfalso; revert Hq2; discriminate].
    replace (e + (d - 24) + 1 <=? 128 - 24) with true
      by (symmetry; apply Z.leb_le; lia).
    exists r2. split; [rewrite Hq2; lia |]. right.
    split; [exact Hq2 | f_equal; lia].
Qed.

(** Which finite binary32 values lie between [1.f] and [2.f]. *)
Lemma leb_one_two_finite (s : bool) (m : positive) (e : Z) :
  valid_binary F32.prec F32.emax (S754_finite s m e) = true ->
  F32.leb F32.one (S754_finite s m e) && F32.leb (S754_finite s m e) F32.two = true ->
  (s = false /\ e = -23 /\ 2 ^ 23 <= Z.pos m < 2 ^ 24)
  \/ S754_finite s m e = F32.two.
Proof.
  intros Hvalid Hp.
  unfold valid_binary, bounded, canonical_mantissa, fexp, emin, F32.prec, F32.emax in Hvalid.
  apply andb_prop in Hvalid as [Hcan _]. apply Z.eqb_eq in Hcan.
  pose proof (digits2_bounds m) as Hd.
  apply andb_prop in Hp as [H1 H2].
  unfold F32.leb, SFleb, F32.one, F32.two in H1, H2.
  destruct s.
  - cbv beta iota delta [SFcompare] in H1. discriminate.
  - cbv beta iota delta [SFcompare] in H1, H2.
    assert (Hd24 : e = -23 \/ e = -22 -> Z.pos (digits2_pos m) = 24)
      by (clear - Hcan; lia).
    destruct (Z.compare_spec (-23) e) as [He | He | He];
      cbv beta iota in H1; [| | discriminate].
    + subst e. left.
      rewrite Hd24 in Hd by (left; reflexivity).
      change (2 ^ (24 - 1)) with (2 ^ 23) in Hd.
      split; [reflexivity | split; [reflexivity | exact Hd]].
    + destruct (Z.compare_spec e (-22)) as [He' | He' | He'];
        cbv beta iota in H2; [| clear - He He'; lia | discriminate].
      subst e.
      rewrite Hd24 in Hd by (right; reflexivity).
      change (2 ^ (24 - 1)) with 8388608 in Hd.
      revert H2. pose proof (Pos.compare_spec m 8388608) as Hs.
      unfold Pos.compare in Hs.
      destruct Hs as [Hcmp | Hcmp | Hcmp]; intros H2; [| | discriminate].
      * subst m. right; reflexivity.
      * apply Pos2Z.pos_lt_pos in Hcmp. clear - Hd Hcmp. destruct Hd as [Hd _]. lia.
Qed.

(** The float image of any positive count below [2^64]. *)
Lemma of_size_t_binade (m : positive) :
  Z.pos m < modulus ->
  exists mx,
    2 ^ 23 <= Z.pos mx < 2 ^ 24
    /\ (F32.of_size_t (Z.pos m) = S754_finite false mx (Z.pos (digits2_pos m) - 24)
        \/ (Z.pos mx = 2 ^ 23
            /\ F32.of_size_t (Z.pos m)
               = S754_finite false mx (Z.pos (digits2_pos m) - 23))).
Proof.
  intros Hm. pose proof (digits2_bounds m) as [Hlo Hhi].
  destruct (Z.lt_ge_cases (Z.pos m) (2 ^ 24)) as [Hsmall | Hbig].
  - destruct (of_size_t_small m Hsmall) as (mz & Heq & Hdz & _).
    pose proof (digits2_bounds mz) as Hb. rewrite Hdz in Hb.
    change (2 ^ (24 - 1)) with (2 ^ 23) in Hb.
    exists mz. split; [exact Hb | left; exact Heq].
  - set (d := Z.pos (digits2_pos m)) in *.
    assert (Hd24 : 25 <= d).
    { destruct (Z.le_gt_cases 25 d) as [| Hlt]; [assumption |].
      assert (2 ^ d <= 2 ^ 24) by (apply Z.pow_le_mono_r; lia). lia. }
    assert (Hd64 : d <= 64).
    { destruct (Z.le_gt_cases d 64) as [| Hgt]; [assumption |].
      assert (2 ^ 64 <= 2 ^ (d - 1)) by (apply Z.pow_le_mono_r; lia).
      unfold modulus in Hm. lia. }
    unfold F32.of_size_t, F32.prec, F32.emax, binary_normalize, binary_round,
      fexp, emin, shl_align.
    fold d.
    destruct (Z.max (d + 0 - 24) (3 - 128 - 24) - 0) as [| k | k] eqn:Hs; [lia | | lia].
    destruct (round_aux_binade m 0) as (mx & Hmx & Hres); fold d; try lia.
    exists mx. split; [exact Hmx |].
    replace (d + 0 - 24) with (d - 24) in Hres by lia.
    replace (d + 0 - 23) with (d - 23) in Hres by lia.
    exact Hres.
Qed.

(** The growth factors the constructor accepts. *)
Lemma accepted_factor (g : spec_float) :
  valid_binary F32.prec F32.emax g = true ->
  F32.leb F32.one g && F32.leb g F32.two = true ->
  exists mg eg,
    g = S754_finite false mg eg
    /\ 2 ^ 23 <= Z.pos mg < 2 ^ 24
    /\ (eg = -23 \/ (eg = -22 /\ Z.pos mg = 2 ^ 23)).
Proof.
  intros Hvalid Hr.
  destruct g as [s | s | | s m e].
  - destruct s; discriminate.
  - destruct s; discriminate.
  - discriminate.
  - destruct (leb_one_two_finite s m e Hvalid Hr) as [(-> & -> & Hm) | Hg].
    + exists m, (-23). auto.
    + rewrite Hg. unfold F32.two. eexists _, _. split; [reflexivity |].
      split; [cbn; lia | right; split; reflexivity].
Qed.

(** The count grows to a defined, positive count whenever it is positive
    and below [2^61]: the float product of a count and an accepted factor
    converts back to [size_t]. *)
Lemma grown_defined (p : MemoryPool) :
  valid_binary F32.prec F32.emax (mAllocSizeGrow p) = true ->
  F32.leb F32.one (mAllocSizeGrow p) && F32.leb (mAllocSizeGrow p) F32.two = true ->
  1 <= mNextAllocSize p < 2 ^ 61 ->
  exists n', grown p = Some n' /\ 1 <= n' < modulus.
Proof.
  intros Hvalid Hr Hn.
  destruct (accepted_factor _ Hvalid Hr) as (mg & eg & Hg & Hmg & Heg).
  unfold grown. rewrite Hg.
  destruct (mNextAllocSize p) as [| m | m]; try lia.
  assert (Hmod : Z.pos m < modulus) by (unfold modulus; lia).
  pose proof (digits2_bounds m) as [Hdlo Hdhi].
  set (d := Z.pos (digits2_pos m)) in *.
  assert (Hd1 : 1 <= d) by (subst d; lia).
  assert (Hd61 : d <= 61).
  { destruct (Z.le_gt_cases d 61) as [| Hgt]; [assumption |].
    assert (2 ^ 61 <= 2 ^ (d - 1)) by (apply Z.pow_le_mono_r; lia). lia. }
  destruct (of_size_t_binade m Hmod) as (mx & Hmx & Hx). fold d in Hx.
  (* the exponent of the image, and the digits of the product *)
  assert (Hprod : exists ex dp,
             F32.of_size_t (Z.pos m) = S754_finite false mx ex
             /\ Z.pos (digits2_pos (mx * mg)) = dp
             /\ d - 24 <= dp + (ex + eg) - 24
             /\ dp + (ex + eg) - 23 <= d - 21).
  { assert (Hpr : 2 ^ 46 <= Z.pos (mx * mg) < 2 ^ 48).
    { rewrite Pos2Z.inj_mul.
      change (2 ^ 46) with (2 ^ 23 * 2 ^ 23). change (2 ^ 48) with (2 ^ 24 * 2 ^ 24).
      split; [apply Z.mul_le_mono_nonneg; lia | apply Z.mul_lt_mono_nonneg; lia]. }
    assert (Hdp : Z.pos (digits2_pos (mx * mg)) = 47
                  \/ Z.pos (digits2_pos (mx * mg)) = 48).
    { destruct (Z.lt_ge_cases (Z.pos (mx * mg)) (2 ^ 47)).
      - left. apply digits2_unique. change (47 - 1) with 46. lia.
      - right. apply digits2_unique. change (48 - 1) with 47. lia. }
    assert (Hpow2 : Z.pos mx = 2 ^ 23 \/ Z.pos mg = 2 ^ 23 ->
                    Z.pos (digits2_pos (mx * mg)) = 47).
    { intros Hone. apply digits2_unique. change (47 - 1) with 46.
      rewrite Pos2Z.inj_mul. change (2 ^ 47) with (2 ^ 23 * 2 ^ 24).
      destruct Hone as [-> | ->]; lia. }
    destruct Hx as [Hx | [Hx2 Hx]]; eexists _, _;
      (split; [exact Hx |]); (split; [reflexivity |]).
    - destruct Heg as [-> | [-> Hg2]]; [lia |].
      rewrite Hpow2 by auto. lia.
    - rewrite Hpow2 by auto. lia. }
  destruct Hprod as (ex & dp & -> & Hdp & Helo & Hehi).
  unfold F32.mul, SFmul, F32.prec, F32.emax. cbn [xorb].
  assert (Hdp24 : 24 <= dp).
  { rewrite <- Hdp. pose proof (digits2_bounds (mx * mg)) as [_ Hb].
    destruct (Z.le_gt_cases 24 (Z.pos (digits2_pos (mx * mg)))) as [| Hlt]; [assumption |].
    assert (2 ^ Z.pos (digits2_pos (mx * mg)) <= 2 ^ 23)
      by (apply Z.pow_le_mono_r; lia).
    rewrite Pos2Z.inj_mul in Hb.
    assert (2 ^ 23 * 2 ^ 23 <= Z.pos mx * Z.pos mg)
      by (apply Z.mul_le_mono_nonneg; lia).
    change (2 ^ 23 * 2 ^ 23) with (2 ^ 46) in *.
    assert (2 ^ 23 < 2 ^ 46) by (apply Z.pow_lt_mono_r; lia). lia. }
  destruct (round_aux_binade (mx * mg) (ex + eg)) as (m' & Hm' & Hres);
    rewrite ?Hdp; try lia.
  rewrite Hdp in Hres.
  assert (Hfin : exists e', binary_round_aux 24 128 false (Z.pos (mx * mg)) (ex + eg) loc_Exact
                            = S754_finite false m' e'
                            /\ d - 24 <= e' <= d - 21).
  { destruct Hres as [Hres | [_ Hres]]; eexists; (split; [exact Hres | lia]). }
  destruct Hfin as (e' & -> & He').
  unfold F32.to_size_t.
  destruct (Z.leb_spec 0 e') as [Hpos | Hneg].
  - assert (Hp : 1 <= 2 ^ e' <= 2 ^ 40).
    { split; [assert (0 < 2 ^ e') by (apply Z.pow_pos_nonneg; lia); lia
             | apply Z.pow_le_mono_r; lia]. }
    assert (Hv : 1 <= Z.pos m' * 2 ^ e' < modulus).
    { assert (Z.pos m' * 2 ^ e' <= (2 ^ 24 - 1) * 2 ^ 40)
        by (apply Z.mul_le_mono_nonneg; lia).
      unfold modulus. split; [nia | lia]. }
    replace (Z.pos m' * 2 ^ e' <? modulus) with true
      by (symmetry; apply Z.ltb_lt; lia).
    eauto.
  - assert (Hp : 1 <= 2 ^ (- e') <= 2 ^ 23).
    { split; [assert (0 < 2 ^ (- e')) by (apply Z.pow_pos_nonneg; lia); lia
             | apply Z.pow_le_mono_r; lia]. }
    assert (Hv : 1 <= Z.pos m' / 2 ^ (- e') < modulus).
    { split.
      - apply Z.div_le_lower_bound; lia.
      - apply Z.div_lt_upper_bound; [lia |]. unfold modulus.
        assert (2 ^ 24 < 2 ^ 64) by (apply Z.pow_lt_mono_r; lia). nia. }
    replace (Z.pos m' / 2 ^ (- e') <? modulus) with true
      by (symmetry; apply Z.ltb_lt; lia).
    eauto.
Qed.

(** ** The count that [reserve] leaves *)

(** [reserve(n)], served a block on which the [n] chunks fit: the request
    is for [n] chunks whatever the count of the pool was, the [n] chunks
    are linked in front of the free list, and the count left is the float
    product of [n] and the growth factor. *)
Lemma reserve_served (T : CType) (n n1 : Z) (p : MemoryPool) (e : Env) :
  type_ok T ->
  0 < n ->
  let m := next_answer e in
  let c0 := align_raw (wrap (m + ptr_size)) (alignofT T) in
  m <> 0 ->
  c0 + n * sizeofT T < modulus ->
  F32.to_size_t (F32.mul (F32.of_size_t n) (mAllocSizeGrow p)) = Some n1 ->
  exists l h,
    reserve T n p e
    = Some (set_chunks l (set_next n1 (set_blocks m (set_next n p))),
            mkEnv h (tl (oracle e))
                  (EvMalloc (wrap (wrap (n * sizeofT T) + alignofT T)) m :: trace e))
    /\ (0 <= mChunkList p < modulus ->
        lseg h l (rev (slots (sizeofT T) c0 (Z.to_nat n))) (mChunkList p)).
Proof.
  intros (Hsz & (k & Hk & Hal) & Hmul) Hn m c0 Hm Hfit Hg.
  unfold ptr_size in Hsz.
  assert (Hpow : 0 < 2 ^ k) by (apply Z.pow_pos_nonneg; lia).
  assert (Hc0 : c0 <> 0) by (subst c0; rewrite Hal; apply align_raw_nonnull; lia).
  assert (Hcr : 0 <= c0 < modulus) by apply wrap_range.
  assert (Hca : c0 mod alignofT T = 0)
    by (subst c0; rewrite Hal; apply align_raw_aligned; lia).
  unfold reserve.
  destruct (Z.eqb_spec n 0) as [| _]; [lia |]. cbn [negb].
  rewrite (alignedMalloc_runs T k _ _ _ _ m Hal Hk
             (callMalloc_served T (set_next n p) e n1 Hm Hg)).
  fold m c0.
  destruct (Z.eqb_spec c0 0) as [| _]; [contradiction |].
  cbn [mNextAllocSize set_next set_blocks heap_of mChunkList mBlockList].
  rewrite (wrap_small (n * sizeofT T)) by nia.
  rewrite (wrap_small (c0 + n * sizeofT T)) by nia.
  destruct (reserve_loop_spec T ltac:(unfold ptr_size; lia) ltac:(lia) Hmul
              (Z.to_nat n) (Z.to_nat n) c0 (mChunkList p)
              (store64 (heap_of e) m (mBlockList p)))
    as (l' & h' & Hrun & Hseg & _);
    [lia | lia | rewrite Z2Nat.id by lia; lia | exact Hca |].
  rewrite Z2Nat.id in Hrun by lia. rewrite Hrun.
  exists l', h'. split; [| exact Hseg].
  unfold bytesToAlloc, set_heap.
  cbn [mNextAllocSize set_next heap_of oracle trace].
  rewrite (wrap_small (n * sizeofT T)) by nia. reflexivity.
Qed.

(** An [allocate] that has to acquire a block, on which the chunks of the
    count fit: it requests [count * sizeof(T) + alignof(T)] bytes and
    returns the first chunk of the block. *)
Lemma allocate_acquires (T : CType) (g : spec_float) (p : MemoryPool) (e : Env) :
  type_ok T ->
  valid_binary F32.prec F32.emax g = true ->
  F32.leb F32.one g && F32.leb g F32.two = true ->
  mAllocSizeGrow p = g ->
  mChunkList p = 0 -> has_room T p = false ->
  let c := align_raw (wrap (next_answer e + ptr_size)) (alignofT T) in
  1 <= mNextAllocSize p ->
  c + mNextAllocSize p * sizeofT T < modulus ->
  exists p1 e1,
    allocate T p e = Some (c, p1, e1)
    /\ trace e1 = EvMalloc (wrap (wrap (mNextAllocSize p * sizeofT T) + alignofT T))
                           (next_answer e) :: trace e.
Proof.
  intros (Hsz & (k & Hk & Hal) & Hmul) Hvalid Hrange Hg Hfree Hroom c Hn Hfit.
  unfold ptr_size in Hsz.
  assert (Hcr : 0 <= c < modulus) by apply wrap_range.
  destruct (grown_defined p) as (n' & Hgrown & _).
  { rewrite Hg. exact Hvalid. }
  { rewrite Hg. exact Hrange. }
  { split; [exact Hn |]. unfold modulus in Hfit.
    change (2 ^ 64) with (8 * 2 ^ 61) in Hfit. nia. }
  destruct (callMalloc_total T p e n' Hgrown) as (p1 & e1 & Hc).
  destruct (callMalloc_spec T _ _ _ _ _ Hc) as (_ & Htr & _).
  eexists _, _. split.
  - apply (allocate_acquire T k p p1 e e1 (next_answer e) Hal Hk Hfree Hroom Hc).
    cbv zeta. fold c.
    rewrite (wrap_small (mNextAllocSize p * sizeofT T)) by nia.
    rewrite !wrap_small by nia. nia.
  - exact Htr.
Qed.

(** C10: let the allocator's next two answers be [r1] and [r2], with room
    for the chunks asked of them.  (a) A freshly constructed pool has
    count 1024, and its first [allocate] requests a block for 1024 chunks.
    (b) On any pool [q], whatever its count, [reserve(n)] requests a block
    for exactly [n] chunks and leaves as the count the float product of
    [n] and the growth factor, [n1].  (c) On a pool [p] with nothing left
    to give out, whatever its count, after [reserve(n)] and the [n] calls
    of [allocate] that use up the reserved chunks, the next [allocate]
    acquires a block, and its request is for [n1] chunks.  With the default
    factor 2.0 a count below [2^24] is doubled exactly. *)
Theorem reserve_overrides_growth (T : CType) (g : spec_float) (n n1 r1 r2 : Z)
    (rest : list Z) (p0 q p : MemoryPool) (e : Env) :
  type_ok T ->
  valid_binary F32.prec F32.emax g = true ->
  construct T g = Some p0 ->
  oracle e = r1 :: r2 :: rest ->
  let c1 := align_raw (wrap (wrap r1 + ptr_size)) (alignofT T) in
  let c2 := align_raw (wrap (wrap r2 + ptr_size)) (alignofT T) in
  wrap r1 <> 0 ->
  c1 + 1024 * sizeofT T < modulus ->
  0 < n ->
  c1 + n * sizeofT T < modulus ->
  F32.to_size_t (F32.mul (F32.of_size_t n) g) = Some n1 ->
  c2 + n1 * sizeofT T < modulus ->
  mAllocSizeGrow q = g ->
  mAllocSizeGrow p = g -> mChunkList p = 0 -> has_room T p = false ->
  (mNextAllocSize p0 = 1024
   /\ exists a p1 e1,
        allocate T p0 e = Some (a, p1, e1)
        /\ trace e1 = EvMalloc (wrap (wrap (1024 * sizeofT T) + alignofT T)) (wrap r1)
                      :: trace e)
  /\ (exists q1 e1,
        reserve T n q e = Some (q1, e1)
        /\ trace e1 = EvMalloc (wrap (wrap (n * sizeofT T) + alignofT T)) (wrap r1)
                      :: trace e
        /\ mNextAllocSize q1 = n1)
  /\ (exists p1 e1 chunks p2 a p3 e3,
        reserve T n p e = Some (p1, e1)
        /\ allocate_many T (Z.to_nat n) p1 e1 = Some (chunks, p2, e1)
        /\ allocate T p2 e1 = Some (a, p3, e3)
        /\ trace e3 = EvMalloc (wrap (wrap (n1 * sizeofT T) + alignofT T)) (wrap r2)
                      :: EvMalloc (wrap (wrap (n * sizeofT T) + alignofT T)) (wrap r1)
                      :: trace e)
  /\ (forall k, 0 < k < 2 ^ 24 ->
                F32.to_size_t (F32.mul (F32.of_size_t k) F32.two) = Some (2 * k)).
Proof.
  intros HT Hvalid Hnew Horacle c1 c2 Hr1 Hfit0 Hn Hfit1 Hn1 Hfit2 Hgq Hgp Hfree Hroom.
  assert (Hrange : F32.leb F32.one g && F32.leb g F32.two = true).
  { unfold construct in Hnew.
    destruct (ptr_size <=? sizeofT T); [| discriminate]. cbn [andb] in Hnew.
    destruct (F32.leb F32.one g && F32.leb g F32.two); [reflexivity | discriminate]. }
  pose proof (construct_spec T g p0 Hnew) as Hp0.
  assert (Hans : next_answer e = wrap r1) by (unfold next_answer; rewrite Horacle; reflexivity).
  pose proof HT as (Hsz & _). unfold ptr_size in Hsz.
  split; [| split; [| split]].
  - (* the fresh pool *)
    split; [rewrite Hp0; reflexivity |].
    destruct (allocate_acquires T g p0 e HT Hvalid Hrange) as (p1 & e1 & Ha & Htr);
      try (rewrite Hp0; reflexivity).
    + rewrite Hp0. unfold has_room. cbn [mCurrentBlock mCurrentBlockEnd].
      rewrite Z.add_0_l, wrap_small by lia. apply Z.leb_gt. lia.
    + rewrite Hp0. cbn. lia.
    + rewrite Hans, Hp0. exact Hfit0.
    + rewrite Hp0, Hans in Htr. eauto.
  - (* any pool *)
    destruct (reserve_served T n n1 q e HT Hn) as (l & h & Hr & _);
      rewrite ?Hans, ?Hgq; try assumption.
    rewrite Hans in Hr. eexists _, _. split; [exact Hr |].
    split; reflexivity.
  - (* a pool with nothing left *)
    destruct (reserve_served T n n1 p e HT Hn) as (l & h & Hr & Hseg);
      rewrite ?Hans, ?Hgp; try assumption.
    rewrite Hans in Hr, Hseg. fold c1 in Hseg.
    specialize (Hseg ltac:(rewrite Hfree; unfold modulus; lia)).
    set (p1 := set_chunks l _) in Hr. set (e1 := mkEnv h _ _) in Hr.
    pose proof (allocate_many_pops T _ p1 e1 (mChunkList p) Hseg) as Hpops.
    rewrite length_rev, slots_length in Hpops.
    set (p2 := set_chunks (mChunkList p) p1) in Hpops.
    assert (Hn1' : 1 <= n1).
    { destruct (grown_defined (set_next n p)) as (n' & Hgrown & Hn').
      - cbn. rewrite Hgp. exact Hvalid.
      - cbn. rewrite Hgp. exact Hrange.
      - cbn. split; [lia |]. unfold modulus in Hfit1.
        change (2 ^ 64) with (8 * 2 ^ 61) in Hfit1.
        assert (0 <= c1) by apply wrap_range. nia.
      - unfold grown in Hgrown. cbn in Hgrown. rewrite Hgp, Hn1 in Hgrown.
        injection Hgrown as <-. lia. }
    destruct (allocate_acquires T g p2 e1 HT Hvalid Hrange) as (p3 & e3 & Ha & Htr).
    + exact Hgp.
    + exact Hfree.
    + exact Hroom.
    + cbn. exact Hn1'.
    + unfold next_answer. cbn. rewrite Horacle. cbn. exact Hfit2.
    + eexists _, _, _, _, _, _, _. split; [exact Hr |].
      split; [exact Hpops |]. split; [exact Ha |].
      rewrite Htr. unfold next_answer. cbn. rewrite Horacle. reflexivity.
  - exact double_exact.
Qed.

Lemma reserve_overrides_growth_witness :
  (mNextAllocSize (mkPool 0 0 1024 F32.two 0 0) = 1024
   /\ exists a p1 e1,
        allocate Node (mkPool 0 0 1024 F32.two 0 0) (fresh_env [32768; 65536])
        = Some (a, p1, e1)
        /\ trace e1 = EvMalloc (wrap (wrap (1024 * 16) + 8)) (wrap 32768)
                      :: trace (fresh_env [32768; 65536]))
  /\ (exists q1 e1,
        reserve Node 3 (mkPool 0 0 1024 F32.two 0 0)
                (fresh_env [32768; 65536]) = Some (q1, e1)
        /\ trace e1 = EvMalloc (wrap (wrap (3 * 16) + 8)) (wrap 32768)
                      :: trace (fresh_env [32768; 65536])
        /\ mNextAllocSize q1 = 6)
  /\ (exists p1 e1 chunks p2 a p3 e3,
        reserve Node 3 (mkPool 0 0 1024 F32.two 0 0)
                (fresh_env [32768; 65536]) = Some (p1, e1)
        /\ allocate_many Node (Z.to_nat 3) p1 e1 = Some (chunks, p2, e1)
        /\ allocate Node p2 e1 = Some (a, p3, e3)
        /\ trace e3 = EvMalloc (wrap (wrap (6 * 16) + 8)) (wrap 65536)
                      :: EvMalloc (wrap (wrap (3 * 16) + 8)) (wrap 32768)
                      :: trace (fresh_env [32768; 65536]))
  /\ (forall k, 0 < k < 2 ^ 24 ->
                F32.to_size_t (F32.mul (F32.of_size_t k) F32.two) = Some (2 * k)).
Proof.
  apply (reserve_overrides_growth Node F32.two 3 6 32768 65536 []
           (mkPool 0 0 1024 F32.two 0 0)
           (mkPool 0 0 1024 F32.two 0 0)
           (mkPool 0 0 1024 F32.two 0 0)
           (fresh_env [32768; 65536])).
  - split; [unfold ptr_size, modulus, Node; cbn [sizeofT]; lia |].
    split; [exists 3; split; [lia | reflexivity] | reflexivity].
  - reflexivity.
  - reflexivity.
  - reflexivity.
  - discriminate.
  - vm_compute; reflexivity.
  - lia.
  - vm_compute; reflexivity.
  - vm_compute; reflexivity.
  - vm_compute; reflexivity.
  - reflexivity.
  - reflexivity.
  - reflexivity.
  - vm_compute; reflexivity.
Defined.

(** ** Legal calls return

    In a state that satisfies the invariant, a legal call passes every
    assertion on its way and returns. *)

Section Progress.

Variable T : CType.
Hypothesis HT : type_ok T.

Variable g : spec_float.
Hypothesis Hvalid : valid_binary F32.prec F32.emax g = true.
Hypothesis Hrange : F32.leb F32.one g && F32.leb g F32.two = true.

Let sz := sizeofT T.
Let al := alignofT T.

(** What a request that is in order provides. *)
Lemma request_facts (p : MemoryPool) (e : Env) :
  mAllocSizeGrow p = g -> 1 <= mNextAllocSize p ->
  request_ok T p e = true ->
  let m := next_answer e in
  let c0 := align_raw (wrap (m + ptr_size)) al in
  exists n',
    grown p = Some n' /\ 1 <= n'
    /\ m <> 0
    /\ bytesToAlloc T p = mNextAllocSize p * sz + al
    /\ 0 < c0 /\ c0 mod al = 0
    /\ c0 + mNextAllocSize p * sz + sz < modulus
    /\ allocator_ok T ((bytesToAlloc T p, m) :: blocks (trace e)) = true.
Proof.
  destruct (type_facts T HT) as (Hsz & Hal & Hmul & k & Hk & Hpow).
  fold sz al in Hsz, Hal, Hmul, Hpow.
  intros Hg Hn Hreq m c0. unfold request_ok in Hreq. fold sz al in Hreq.
  apply andb_prop in Hreq as [Hfit Hok]. apply Z.ltb_lt in Hfit.
  assert (Hbytes : bytesToAlloc T p = mNextAllocSize p * sz + al).
  { unfold bytesToAlloc. fold sz al.
    rewrite (wrap_small (mNextAllocSize p * sz)) by nia.
    apply wrap_small. nia. }
  pose proof (block_ok_facts T HT _
                (allocator_ok_block T _ (bytesToAlloc T p, m) Hok
                   ltac:(apply elem_of_cons; auto)))
    as (Hm & _ & _ & Hlo & Hhi & Hla).
  unfold area_hi, area_lo in Hlo, Hhi, Hla. cbn [fst snd] in Hm, Hlo, Hhi, Hla.
  fold sz al m c0 in Hlo, Hhi, Hla. rewrite Hbytes in Hhi.
  destruct (grown_defined p) as (n' & Hgrown & Hn').
  - rewrite Hg. exact Hvalid.
  - rewrite Hg. exact Hrange.
  - split; [exact Hn |]. unfold modulus in Hfit.
    change (2 ^ 64) with (8 * 2 ^ 61) in Hfit. nia.
  - exists n'. repeat split; try lia; assumption.
Qed.

(** The cursor of a pool that satisfies the invariant is aligned as soon
    as there is room behind it. *)
Lemma cursor_aligned (p : MemoryPool) (e : Env) :
  cursor_ok T (blocks (trace e)) p ->
  allocator_ok T (blocks (trace e)) = true ->
  has_room T p = true ->
  mCurrentBlock p mod al = 0.
Proof.
  destruct (type_facts T HT) as (Hsz & Hal & Hmul & k & Hk & Hpow).
  fold sz al in Hsz, Hal, Hmul, Hpow.
  intros [[Hc He] | (b & Hin & Hlo & Hle & Hend & Hgrid)] Hok Hroom.
  - unfold has_room in Hroom. fold sz in Hroom. rewrite Hc, He in Hroom.
    rewrite Z.add_0_l, wrap_small in Hroom by lia.
    apply Z.leb_le in Hroom. lia.
  - pose proof (block_ok_facts T HT b (allocator_ok_block T _ b Hok Hin))
      as (_ & _ & _ & _ & _ & Hla).
    fold sz al in Hgrid, Hla.
    apply Z.mod_divide in Hgrid; [| lia].
    apply Z.mod_divide in Hla; [| lia].
    apply Z.mod_divide in Hmul; [| lia].
    apply Z.mod_divide; [lia |].
    replace (mCurrentBlock p)
      with ((mCurrentBlock p - area_lo T b) + area_lo T b) by lia.
    apply Z.divide_add_r; [| exact Hla].
    exact (Z.divide_trans _ _ _ Hmul Hgrid).
Qed.

Lemma allocate_returns (p : MemoryPool) (e : Env) (live : list Z) :
  pool_inv T p e live ->
  allocator_ok T (blocks (trace e)) = true ->
  mAllocSizeGrow p = g -> 1 <= mNextAllocSize p ->
  legal_call T Allocate p e live = true ->
  exists a p1 e1,
    allocate T p e = Some (a, p1, e1)
    /\ allocator_ok T (blocks (trace e1)) = true
    /\ mAllocSizeGrow p1 = g /\ 1 <= mNextAllocSize p1.
Proof.
  destruct (type_facts T HT) as (Hsz & Hal & Hmul & k & Hk & Hpow).
  fold sz al in Hsz, Hal, Hmul, Hpow.
  intros (fl & _ & _ & _ & Hcur & _) Hok Hg Hn Hlegal.
  cbn [legal_call] in Hlegal. unfold must_acquire, PointerList.nonempty in Hlegal.
  destruct (Z.eq_dec (mChunkList p) 0) as [Hfree | Hfree].
  - rewrite Hfree in Hlegal. cbn [Z.eqb negb andb] in Hlegal.
    destruct (has_room T p) eqn:Hroom; cbn [negb] in Hlegal.
    + (* carve *)
      rewrite (allocate_carve T p e Hfree Hroom (cursor_aligned p e Hcur Hok Hroom)).
      eexists _, _, _. split; [reflexivity |]. auto.
    + (* acquire *)
      destruct (request_facts p e Hg Hn Hlegal)
        as (n' & Hgrown & Hn' & Hm & Hbytes & Hc0 & Hca & Hfit & Hok').
      fold sz al in Hbytes, Hc0, Hca, Hfit.
      set (m := next_answer e) in *.
      set (c0 := align_raw (wrap (m + ptr_size)) al) in *.
      pose proof (callMalloc_served T p e n' Hm Hgrown) as Hc. fold m in Hc.
      rewrite (allocate_acquire T k _ _ _ _ _ Hpow Hk Hfree Hroom Hc).
      * eexists _, _, _. split; [reflexivity |].
        cbn [trace mAllocSizeGrow mNextAllocSize set_cursor set_next set_blocks].
        split; [exact Hok' |]. auto.
      * fold sz al c0.
        rewrite (wrap_small (mNextAllocSize p * sz)) by nia.
        rewrite !wrap_small by nia. nia.
  - rewrite (allocate_pop T p e Hfree).
    eexists _, _, _. split; [reflexivity |]. auto.
Qed.

Lemma deallocate_returns (p : MemoryPool) (e : Env) (live : list Z) (ptr : Z) :
  pool_inv T p e live ->
  allocator_ok T (blocks (trace e)) = true ->
  legal_call T (Deallocate ptr) p e live = true ->
  ptr ∈ live
  /\ deallocate ptr p e
     = Some (set_chunks ptr p, set_heap (store64 (heap_of e) ptr (mChunkList p)) e).
Proof.
  intros (fl & _ & _ & Hslots & _) Hok Hlegal. cbn [legal_call] in Hlegal.
  apply holds_elem in Hlegal. split; [exact Hlegal |].
  rewrite Forall_forall in Hslots.
  pose proof (slot_range T HT _ _ Hok (Hslots ptr ltac:(apply elem_of_app; auto)))
    as (Hpos & _).
  unfold deallocate. destruct (Z.eqb_spec ptr 0) as [| _]; [lia |].
  reflexivity.
Qed.

Lemma reserve_returns (p : MemoryPool) (e : Env) (live : list Z) (n : Z) :
  pool_inv T p e live ->
  allocator_ok T (blocks (trace e)) = true ->
  mAllocSizeGrow p = g ->
  legal_call T (Reserve n) p e live = true ->
  exists p1 e1,
    reserve T n p e = Some (p1, e1)
    /\ allocator_ok T (blocks (trace e1)) = true
    /\ mAllocSizeGrow p1 = g /\ 1 <= mNextAllocSize p1.
Proof.
  destruct (type_facts T HT) as (Hsz & Hal & Hmul & k & Hk & Hpow).
  fold sz al in Hsz, Hal, Hmul, Hpow.
  intros _ Hok Hg Hlegal. cbn [legal_call] in Hlegal.
  apply andb_prop in Hlegal as [Hn Hreq]. apply Z.ltb_lt in Hn.
  destruct (request_facts (set_next n p) e) as
    (n' & Hgrown & Hn' & Hm & Hbytes & Hc0 & Hca & Hfit & Hok');
    [exact Hg | cbn; lia | exact Hreq |].
  cbn [mNextAllocSize set_next] in Hbytes, Hfit. fold sz al in Hbytes, Hc0, Hca, Hfit.
  set (m := next_answer e) in *.
  set (c0 := align_raw (wrap (m + ptr_size)) al) in *.
  unfold reserve.
  destruct (Z.eqb_spec n 0) as [| _]; [lia |]. cbn [negb].
  rewrite (alignedMalloc_runs T k _ _ _ _ m Hpow Hk
             (callMalloc_served T (set_next n p) e n' Hm Hgrown)).
  fold al m c0.
  destruct (Z.eqb_spec c0 0) as [| _]; [lia |].
  cbn [mNextAllocSize set_next set_blocks heap_of mChunkList mBlockList].
  fold sz.
  rewrite (wrap_small (n * sz)) by nia.
  rewrite (wrap_small (c0 + n * sz)) by nia.
  destruct (reserve_loop_spec T ltac:(unfold ptr_size; fold sz; lia) Hal Hmul
              (Z.to_nat n) (Z.to_nat n) c0 (mChunkList p)
              (store64 (heap_of e) m (mBlockList p)))
    as (l' & h' & Hrun & _);
    [lia | lia | fold sz; rewrite Z2Nat.id by lia; lia | exact Hca |].
  fold sz in Hrun. rewrite Z2Nat.id in Hrun by lia. rewrite Hrun.
  eexists _, _. split; [reflexivity |].
  cbn [trace set_heap mAllocSizeGrow mNextAllocSize set_chunks set_next set_blocks].
  split; [exact Hok' |]. auto.
Qed.

(** A legal call returns, keeps the invariant, and what it returns is
    aligned. *)
Lemma step_returns (o : op) (p : MemoryPool) (e : Env) (live : list Z) :
  pool_inv T p e live ->
  allocator_ok T (blocks (trace e)) = true ->
  mAllocSizeGrow p = g -> 1 <= mNextAllocSize p ->
  legal_call T o p e live = true ->
  exists c p1 e1,
    step T o p e = Some (c, p1, e1)
    /\ pool_inv T p1 e1 (live_after live [c])
    /\ allocator_ok T (blocks (trace e1)) = true
    /\ mAllocSizeGrow p1 = g /\ 1 <= mNextAllocSize p1
    /\ all_aligned al [c] = true
    /\ respects_contract live [c] = true.
Proof.
  intros Hinv Hok Hg Hn Hlegal. destruct o as [| ptr | n]; cbn [step].
  - destruct (allocate_returns p e live Hinv Hok Hg Hn Hlegal)
      as (a & p1 & e1 & Ha & Hok1 & Hg1 & Hn1).
    destruct (allocate_inv T HT _ _ _ _ _ _ Hinv Ha Hok1) as (Hinv1 & _ & Haligned).
    rewrite Ha. eexists _, _, _. split; [reflexivity |].
    cbn [live_after all_aligned respects_contract].
    fold al in Haligned. rewrite Haligned. cbn. auto 10.
  - destruct (deallocate_returns p e live ptr Hinv Hok Hlegal) as (Hheld & Hd).
    pose proof (deallocate_inv T HT _ _ _ _ _ _ Hinv Hheld Hd Hok) as Hinv1.
    rewrite Hd. eexists _, _, _. split; [reflexivity |].
    cbn [live_after all_aligned respects_contract].
    apply holds_elem in Hheld. rewrite Hheld. cbn. auto 10.
  - destruct (reserve_returns p e live n Hinv Hok Hg Hlegal)
      as (p1 & e1 & Hr & Hok1 & Hg1 & Hn1).
    pose proof (reserve_inv T HT _ _ _ _ _ _ Hinv Hr Hok1) as Hinv1.
    rewrite Hr. eexists _, _, _. split; [reflexivity |].
    cbn [live_after all_aligned respects_contract]. auto 10.
Qed.

(** A legal run returns: no assertion fires along it, the client has
    respected the contract, and every chunk [allocate] returned is
    aligned. *)
Lemma legal_run_returns (ops : list op) :
  forall (p : MemoryPool) (e : Env) (live : list Z),
    pool_inv T p e live ->
    allocator_ok T (blocks (trace e)) = true ->
    mAllocSizeGrow p = g -> 1 <= mNextAllocSize p ->
    legal_run T ops p e live = true ->
    exists log p1 e1,
      run T ops p e = Some (log, p1, e1)
      /\ all_aligned al log = true
      /\ respects_contract live log = true
      /\ allocator_ok T (blocks (trace e1)) = true.
Proof.
  induction ops as [| o ops IH]; intros p e live Hinv Hok Hg Hn Hlegal.
  - exists [], p, e. cbn. auto.
  - cbn [legal_run] in Hlegal. apply andb_prop in Hlegal as [Hcall Hrest].
    destruct (step_returns o p e live Hinv Hok Hg Hn Hcall)
      as (c & p1 & e1 & Hs & Hinv1 & Hok1 & Hg1 & Hn1 & Hal1 & Hc1).
    rewrite Hs in Hrest.
    destruct (IH p1 e1 _ Hinv1 Hok1 Hg1 Hn1 Hrest)
      as (log & p2 & e2 & Hr & Hal2 & Hc2 & Hok2).
    cbn [run]. rewrite Hs, Hr. exists (c :: log), p2, e2.
    split; [reflexivity |].
    destruct c as [a | ptr | n];
      cbn [all_aligned respects_contract live_after] in *.
    + apply andb_prop in Hal1 as [Ha _]. rewrite Ha, Hal2. auto.
    + apply andb_prop in Hc1 as [Hh _]. rewrite Hh, Hc2. auto.
    + auto.
Qed.

End Progress.

(** C5: take a type at least a pointer wide, with a power-of-two alignment
    that divides its size, and a freshly constructed pool, and let every
    call be legal where it is made: the client gives [deallocate] only
    chunks it holds and [reserve] a positive count, and whenever a call
    reaches the allocator the byte size of the request does not overflow
    and the allocator serves it with a block whose chunk area and header
    stay clear of the chunk areas served before.  Then every call returns
    (no assertion fires, in [align], [createChunk] or [reserve]), and every
    chunk returned by [allocate], carved or recycled, is a multiple of the
    alignment. *)
Theorem allocated_chunks_aligned (T : CType) (g : spec_float) (answers : list Z)
    (ops : list op) (p0 : MemoryPool) :
  type_ok T ->
  valid_binary F32.prec F32.emax g = true ->
  construct T g = Some p0 ->
  legal_run T ops p0 (fresh_env answers) [] = true ->
  exists log p e,
    run T ops p0 (fresh_env answers) = Some (log, p, e)
    /\ respects_contract [] log = true
    /\ all_aligned (alignofT T) log = true.
Proof.
  intros HT Hvalid Hnew Hlegal.
  assert (Hrange : F32.leb F32.one g && F32.leb g F32.two = true).
  { unfold construct in Hnew.
    destruct (ptr_size <=? sizeofT T); [| discriminate]. cbn [andb] in Hnew.
    destruct (F32.leb F32.one g && F32.leb g F32.two); [reflexivity | discriminate]. }
  pose proof (construct_inv T g p0 answers Hnew) as Hinv.
  pose proof (construct_spec T g p0 Hnew) as Hp0.
  destruct (legal_run_returns T HT g Hvalid Hrange ops p0 (fresh_env answers) [])
    as (log & p & e & Hrun & Hal & Hc & _); try assumption.
  - reflexivity.
  - rewrite Hp0. reflexivity.
  - rewrite Hp0. cbn. lia.
  - exists log, p, e. auto.
Qed.

Lemma allocated_chunks_aligned_witness :
  exists log p e,
    run Vec128
        [Reserve 2; Allocate; Allocate; Allocate; Deallocate 4112; Allocate; Allocate]
        (mkPool 0 0 1024 F32.two 0 0) (fresh_env [4096; 65536]) = Some (log, p, e)
    /\ respects_contract [] log = true
    /\ all_aligned 16 log = true.
Proof.
  apply (allocated_chunks_aligned Vec128 F32.two [4096; 65536]
           [Reserve 2; Allocate; Allocate; Allocate; Deallocate 4112;
            Allocate; Allocate]).
  - split; [unfold ptr_size, modulus, Vec128; cbn [sizeofT]; lia |].
    split; [exists 4; split; [lia | reflexivity] | reflexivity].
  - reflexivity.
  - reflexivity.
  - vm_compute. reflexivity.
Defined.

(** * Further properties of the code *)

(** ** The free list as a stack *)

Lemma run_app (T : CType) (ops1 ops2 : list op) :
  forall (p : MemoryPool) (e : Env),
    run T (ops1 ++ ops2) p e =
      match run T ops1 p e with
      | Some (l1, p1, e1) =>
          match run T ops2 p1 e1 with
          | Some (l2, p2, e2) => Some (l1 ++ l2, p2, e2)
          | None => None
          end
      | None => None
      end.
Proof.
  induction ops1 as [| o ops1 IH]; intros p e; cbn [run app].
  - destruct (run T ops2 p e) as [[[l2 p2] e2] |]; reflexivity.
  - destruct (step T o p e) as [[[c p1] e1] |]; [| reflexivity].
    rewrite IH.
    destruct (run T ops1 p1 e1) as [[[l1 p2] e2] |]; [| reflexivity].
    destruct (run T ops2 p2 e2) as [[[l2 p3] e3] |]; reflexivity.
Qed.

Lemma run_allocates (T : CType) (k : nat) :
  forall (p p' : MemoryPool) (e e' : Env) (l : list Z),
    allocate_many T k p e = Some (l, p', e') ->
    run T (replicate k Allocate) p e = Some (map Allocated l, p', e').
Proof.
  induction k as [| k IH]; intros p p' e e' l; cbn [allocate_many replicate run step].
  - intros [= <- <- <-]. reflexivity.
  - destruct (allocate T p e) as [[[a p1] e1] |]; [| discriminate].
    destruct (allocate_many T k p1 e1) as [[[l' p2] e2] |] eqn:Hm; [| discriminate].
    intros [= <- <- <-]. rewrite (IH _ _ _ _ _ Hm). reflexivity.
Qed.

(** Deallocating pointers with separate link words builds the list of
    them, last one first, in front of the old free list. *)
Lemma deallocate_many (T : CType) (l : list Z) :
  forall (p : MemoryPool) (e : Env),
    words_apart l ->
    0 <= mChunkList p < modulus ->
    exists h',
      run T (map Deallocate l) p e
      = Some (map Deallocated l, set_chunks (hd (mChunkList p) (rev l)) p,
              set_heap h' e)
      /\ lseg h' (hd (mChunkList p) (rev l)) (rev l) (mChunkList p)
      /\ (forall x, 0 <= x -> x + 8 <= modulus ->
                    Forall (fun b => x + 8 <= b \/ b + 8 <= x) l ->
                    load64 h' x = load64 (heap_of e) x).
Proof.
  induction l as [| a r IH]; intros p e Hap Hhead.
  - exists (heap_of e). cbn. destruct p, e. cbn. auto.
  - cbn [words_apart] in Hap. destruct Hap as ((Ha0 & Ha8) & Hfar & Hap).
    cbn [map run step]. unfold deallocate.
    destruct (Z.eqb_spec a 0) as [| _]; [lia |]. cbn [negb PointerList.push].
    destruct (IH (set_chunks a p) (set_heap (store64 (heap_of e) a (mChunkList p)) e)
                Hap ltac:(cbn; lia)) as (h' & Hrun & Hseg & Hframe).
    cbn [mChunkList set_chunks heap_of set_heap] in Hrun, Hseg, Hframe.
    rewrite Hrun. exists h'.
    assert (Hhd : hd (mChunkList p) (rev (a :: r)) = hd a (rev r)).
    { cbn [rev]. destruct (rev r); reflexivity. }
    rewrite Hhd. split; [reflexivity |]. split.
    + cbn [rev]. eapply lseg_app; [exact Hseg |].
      cbn. split; [reflexivity |]. split; [lia |].
      rewrite Hframe by (auto; lia).
      apply load64_store64_same; lia.
    + intros x Hx Hx8 Hout. apply Forall_cons in Hout as [Hxa Hout].
      rewrite Hframe by auto.
      apply load64_store64_other; lia.
Qed.

(** X1: from any pool state, deallocating any pointers whose 8-byte link
    words lie in the address space and do not overlap, and then calling
    [allocate] as many times, returns those pointers in the reverse order
    (last in, first out), issues no allocator call, and leaves every field
    of the pool as it was. *)
Theorem free_list_is_a_stack (T : CType) (l : list Z) (p : MemoryPool) (e : Env) :
  words_apart l ->
  0 <= mChunkList p < modulus ->
  exists e',
    run T (map Deallocate l ++ replicate (length l) Allocate) p e
    = Some (map Deallocated l ++ map Allocated (rev l), p, e')
    /\ trace e' = trace e.
Proof.
  intros Hap Hhead.
  destruct (deallocate_many T l p e Hap Hhead) as (h' & Hrun & Hseg & _).
  rewrite run_app, Hrun.
  pose proof (allocate_many_pops T (rev l)
                (set_chunks (hd (mChunkList p) (rev l)) p) (set_heap h' e)
                (mChunkList p) Hseg) as Hpop.
  rewrite length_rev in Hpop.
  rewrite (run_allocates T _ _ _ _ _ _ Hpop).
  exists (set_heap h' e). split; [| reflexivity].
  destruct p; reflexivity.
Qed.

Lemma free_list_is_a_stack_witness :
  exists e',
    run Node (map Deallocate [4104; 4120; 4136] ++ replicate 3 Allocate)
        (mkPool 4096 0 2048 F32.two 4152 20488) (fresh_env [])
    = Some (map Deallocated [4104; 4120; 4136] ++ map Allocated [4136; 4120; 4104],
            mkPool 4096 0 2048 F32.two 4152 20488, e')
    /\ trace e' = trace (fresh_env []).
Proof.
  apply (free_list_is_a_stack Node [4104; 4120; 4136]
           (mkPool 4096 0 2048 F32.two 4152 20488) (fresh_env [])).
  - cbn; unfold modulus; repeat split; repeat constructor; lia.
  - cbn; unfold modulus; lia.
Defined.

(** ** More on [align] *)

(** X2: [align] is idempotent on power-of-two alignments: what it returns
    is an odd multiple of the alignment, and aligning that again returns
    it unchanged. *)
Theorem align_idempotent (ptr k r : Z) :
  0 <= k <= 63 ->
  align ptr (2 ^ k) = Some r ->
  r mod (2 * 2 ^ k) = 2 ^ k /\ align r (2 ^ k) = Some r.
Proof.
  intros Hk Ha. rewrite align_succeeds in Ha by lia. injection Ha as <-.
  pose proof (align_raw_odd_multiple ptr k Hk) as Hodd.
  split; [exact Hodd |].
  rewrite align_succeeds by lia. f_equal.
  rewrite align_raw_formula by lia. rewrite Hodd, Z.sub_diag, Z.add_0_r.
  apply wrap_small, wrap_range.
Qed.

Lemma align_idempotent_witness :
  24 mod (2 * 2 ^ 3) = 2 ^ 3 /\ align 24 (2 ^ 3) = Some 24.
Proof.
  apply (align_idempotent 16 3 24); [lia | reflexivity].
Defined.

(** X3: for a power-of-two alignment, what [alignedMalloc] returns is
    never null and always aligned, also when [malloc] failed: it is then
    the aligned image of address 8.  So the test [if (not memory)] of
    [reserve] cannot succeed. *)
Theorem alignedMalloc_never_null (T : CType) (k : Z) (p p1 : MemoryPool)
    (e e1 : Env) (a : Z) :
  alignofT T = 2 ^ k -> 0 <= k <= 63 ->
  alignedMalloc T p e = Some (a, p1, e1) ->
  a <> 0 /\ a mod alignofT T = 0
  /\ (next_answer e = 0 ->
      a = align_raw ptr_size (alignofT T)
      /\ acquired (trace e1) = acquired (trace e)).
Proof.
  intros Hal Hk Ham.
  destruct (alignedMalloc_spec _ _ _ _ _ _ Ham) as [Hc Ha].
  destruct (callMalloc_spec _ _ _ _ _ _ Hc) as (_ & Htr & _).
  rewrite Hal in *. rewrite align_succeeds in Ha by lia. injection Ha as <-.
  split; [apply align_raw_nonnull; lia |].
  split; [apply align_raw_aligned; lia |].
  intros Hfail. rewrite Hfail in *. split; [reflexivity |].
  rewrite Htr. reflexivity.
Qed.

Lemma alignedMalloc_never_null_witness :
  exists a p1 e1,
    alignedMalloc Node (mkPool 0 0 1024 F32.two 0 0) (fresh_env []) = Some (a, p1, e1)
    /\ a <> 0 /\ a mod alignofT Node = 0
    /\ (next_answer (fresh_env []) = 0 ->
        a = align_raw ptr_size (alignofT Node)
        /\ acquired (trace e1) = acquired (trace (fresh_env []))).
Proof.
  eexists _, _, _. split; [vm_compute; reflexivity |].
  eapply (alignedMalloc_never_null Node 3 (mkPool 0 0 1024 F32.two 0 0)).
  - reflexivity.
  - lia.
  - vm_compute; reflexivity.
Defined.

(** ** What the calls never do *)

(** X4: no sequence of [allocate], [deallocate] and [reserve] calls ever
    releases anything to the system allocator, whatever the pool state, the
    arguments and the allocator's answers. *)
Theorem client_calls_never_release (T : CType) (ops : list op)
    (p p1 : MemoryPool) (e e1 : Env) (log : list call) :
  run T ops p e = Some (log, p1, e1) ->
  releases (trace e1) = releases (trace e).
Proof. apply run_releases. Qed.

Lemma client_calls_never_release_witness :
  exists log p1 e1,
    run Node [Reserve 2; Allocate; Allocate; Allocate; Deallocate 4104]
        (mkPool 0 0 1024 F32.two 0 0) (fresh_env [4096; 65536]) = Some (log, p1, e1)
    /\ releases (trace e1) = releases (trace (fresh_env [4096; 65536])).
Proof.
  eexists _, _, _. split; [vm_compute; reflexivity |].
  eapply (client_calls_never_release Node
            [Reserve 2; Allocate; Allocate; Allocate; Deallocate 4104]
            (mkPool 0 0 1024 F32.two 0 0)).
  vm_compute; reflexivity.
Defined.

(** ** The destructor *)

Lemma destroy_spec (fuel : nat) :
  forall (p p' : MemoryPool) (e e' : Env),
    destroy fuel p e = Some (p', e') ->
    p' = set_blocks 0 p
    /\ heap_of e' = heap_of e /\ oracle e' = oracle e
    /\ exists freed,
         trace e' = map EvFree freed ++ trace e
         /\ Forall (fun x => x <> 0) freed
         /\ (length freed <= fuel)%nat.
Proof.
  induction fuel as [| fuel IH]; intros p p' e e'; cbn [destroy];
    unfold PointerList.nonempty, PointerList.pop.
  - destruct (Z.eqb_spec (mBlockList p) 0) as [Hz | _]; [| discriminate].
    cbn. intros [= <- <-]. split; [destruct p; cbn in *; subst; reflexivity |].
    split; [reflexivity |]. split; [reflexivity |].
    exists []. cbn. auto.
  - destruct (Z.eqb_spec (mBlockList p) 0) as [Hz | Hnz]; cbn.
    + intros [= <- <-]. split; [destruct p; cbn in *; subst; reflexivity |].
      split; [reflexivity |]. split; [reflexivity |].
      exists []. cbn. split; [reflexivity |]. split; [constructor | lia].
    + unfold PointerList.nonempty.
      destruct (Z.eqb_spec (mBlockList p) 0) as [| _]; [contradiction |]. cbn [negb].
      intros Hd. apply IH in Hd as (-> & Hh & Ho & freed & Htr & Hnn & Hlen).
      cbn in Hh, Ho, Htr.
      split; [reflexivity |]. split; [exact Hh |]. split; [exact Ho |].
      exists (freed ++ [mBlockList p]). split; [| split].
      * rewrite Htr, map_app, <- app_assoc. reflexivity.
      * apply Forall_app. split; [exact Hnn | constructor; [exact Hnz | constructor]].
      * rewrite length_app. cbn. lia.
Qed.

(** X5: whenever the destructor's walk ends, in any pool state, the block
    list is empty and nothing else of the pool changed; the walk only
    released pointers, none of them null, at most one per round, and it
    neither requested nor wrote memory. *)
Theorem destructor_only_releases (fuel : nat) (p p' : MemoryPool) (e e' : Env) :
  destroy fuel p e = Some (p', e') ->
  mBlockList p' = 0
  /\ p' = set_blocks 0 p
  /\ heap_of e' = heap_of e
  /\ acquired (trace e') = acquired (trace e)
  /\ exists freed,
       releases (trace e') = freed ++ releases (trace e)
       /\ Forall (fun x => x <> 0) freed
       /\ (length freed <= fuel)%nat.
Proof.
  intros Hd. apply destroy_spec in Hd as (-> & Hh & _ & freed & Htr & Hnn & Hlen).
  split; [reflexivity |]. split; [reflexivity |]. split; [exact Hh |].
  split.
  - rewrite Htr. clear. induction freed as [| x freed IH]; cbn; auto.
  - exists freed. rewrite Htr, releases_app, releases_frees. auto.
Qed.

Lemma destructor_only_releases_witness :
  exists p' e',
    destroy 5 (mkPool 4096 0 2048 F32.two 0 0)
            (mkEnv (store64 ∅ 4096 0) [] [EvMalloc 16392 4096]) = Some (p', e')
    /\ mBlockList p' = 0
    /\ p' = set_blocks 0 (mkPool 4096 0 2048 F32.two 0 0)
    /\ heap_of e' = store64 ∅ 4096 0
    /\ acquired (trace e') = acquired [EvMalloc 16392 4096]
    /\ exists freed,
         releases (trace e') = freed ++ releases [EvMalloc 16392 4096]
         /\ Forall (fun x => x <> 0) freed
         /\ (length freed <= 5)%nat.
Proof.
  eexists _, _. split; [vm_compute; reflexivity |].
  eapply (destructor_only_releases 5 (mkPool 4096 0 2048 F32.two 0 0) _
            (mkEnv (store64 ∅ 4096 0) [] [EvMalloc 16392 4096])).
  vm_compute; reflexivity.
Defined.

(** ** The invariant along runs *)

Lemma slot_app (T : CType) (new bs : list (Z * Z)) (c : Z) :
  slot T bs c -> slot T (new ++ bs) c.
Proof.
  intros (b & Hin & H). exists b. split; [apply elem_of_app; auto | exact H].
Qed.

Lemma run_allocated_slots (T : CType) (HT : type_ok T) (ops : list op) :
  forall (p p1 : MemoryPool) (e e1 : Env) (live : list Z) (log : list call),
    pool_inv T p e live ->
    run T ops p e = Some (log, p1, e1) ->
    allocator_ok T (blocks (trace e1)) = true ->
    respects_contract live log = true ->
    Forall (slot T (blocks (trace e1))) (allocated log).
Proof.
  induction ops as [| o ops IH]; intros p p1 e e1 live log Hinv; cbn [run].
  - intros [= <- <- <-] _ _. constructor.
  - destruct (step T o p e) as [[[c p'] e'] |] eqn:Hs; [| discriminate].
    destruct (run T ops p' e') as [[[log' p''] e''] |] eqn:Hr; [| discriminate].
    intros [= <- <- <-] Hok Hcontract.
    destruct (run_trace T _ _ _ _ _ _ Hr) as (new & Hnew).
    assert (Hok' : allocator_ok T (blocks (trace e')) = true).
    { rewrite Hnew, blocks_app in Hok. eapply allocator_ok_tail; eauto. }
    destruct o as [| ptr | n]; cbn [step] in Hs.
    + destruct (allocate T p e) as [[[a q] f] |] eqn:Ha; [| discriminate].
      injection Hs as <- <- <-.
      destruct (allocate_inv T HT _ _ _ _ _ _ Hinv Ha Hok') as (Hinv' & _).
      cbn [respects_contract allocated] in *.
      apply Forall_cons. split; [| exact (IH _ _ _ _ _ _ Hinv' Hr Hok Hcontract)].
      destruct Hinv' as (fl & _ & _ & Hslots & _).
      rewrite Forall_forall in Hslots.
      rewrite Hnew, blocks_app. apply slot_app, Hslots.
      apply elem_of_app. right. apply elem_of_cons. auto.
    + destruct (deallocate ptr p e) as [[q f] |] eqn:Hd; [| discriminate].
      injection Hs as <- <- <-.
      cbn [respects_contract allocated] in *.
      apply andb_prop in Hcontract as [Hheld Hcontract].
      apply holds_elem in Hheld.
      pose proof (deallocate_inv T HT _ _ _ _ _ _ Hinv Hheld Hd Hok') as Hinv'.
      exact (IH _ _ _ _ _ _ Hinv' Hr Hok Hcontract).
    + destruct (reserve T n p e) as [[q f] |] eqn:Hrs; [| discriminate].
      injection Hs as <- <- <-.
      cbn [respects_contract allocated] in *.
      pose proof (reserve_inv T HT _ _ _ _ _ _ Hinv Hrs Hok') as Hinv'.
      exact (IH _ _ _ _ _ _ Hinv' Hr Hok Hcontract).
Qed.

(** With alignment 8 and a block at a multiple of 16 the chunk area is the
    block without its header. *)
Lemma area_of_pointer_aligned_block (T : CType) (b : Z * Z) :
  alignofT T = 8 -> block_ok T b = true -> snd b mod 16 = 0 ->
  area_lo T b = snd b + 8 /\ area_hi T b = snd b + fst b.
Proof.
  intros Hal Hok H16. unfold block_ok, ptr_size in Hok.
  apply andb_prop in Hok as [Hok _]. apply andb_prop in Hok as [Hok _].
  apply andb_prop in Hok as [H1 H2]. apply Z.ltb_lt in H1. apply Z.leb_le in H2.
  assert (Hlo : area_lo T b = snd b + 8).
  { unfold area_lo, ptr_size. rewrite Hal.
    assert (Hm8 : snd b + 8 < modulus).
    { destruct (Z.eq_dec (snd b + 8) modulus) as [Heq |]; [| lia].
      exfalso. replace (snd b) with (modulus - 8) in H16 by lia.
      unfold modulus in H16. cbn in H16. discriminate. }
    rewrite (wrap_small (snd b + 8)) by lia.
    change 8 with (2 ^ 3) at 2. rewrite align_raw_formula by lia.
    change (2 * 2 ^ 3) with 16. change (2 ^ 3) with 8.
    replace ((snd b + 8) mod 16) with 8.
    - rewrite Z.sub_diag, Z.add_0_r. apply wrap_small. lia.
    - rewrite Z.add_mod, H16 by lia. reflexivity. }
  split; [exact Hlo |]. unfold area_hi. rewrite Hlo, Hal. lia.
Qed.

(** X6: for a type aligned to 8 and an allocator that serves every request
    at a multiple of 16 (with chunk areas clear of each other), every chunk
    that [allocate] returns along a contract-respecting run of a fresh pool
    lies inside an acquired block, after the 8 bytes of its header and
    before its end. *)
Theorem chunks_inside_blocks (T : CType) (g : spec_float) (answers : list Z)
    (ops : list op) (p0 p : MemoryPool) (e : Env) (log : list call) :
  type_ok T ->
  alignofT T = 8 ->
  construct T g = Some p0 ->
  run T ops p0 (fresh_env answers) = Some (log, p, e) ->
  respects_contract [] log = true ->
  allocator_ok T (blocks (trace e)) = true ->
  Forall (fun b => snd b mod 16 = 0) (blocks (trace e)) ->
  Forall (fun a => exists b, b ∈ blocks (trace e)
                             /\ snd b + 8 <= a
                             /\ a + sizeofT T <= snd b + fst b)
         (allocated log).
Proof.
  intros HT Hal Hnew Hrun Hcontract Hok H16.
  pose proof (run_allocated_slots T HT _ _ _ _ _ _ _
                (construct_inv T g p0 answers Hnew) Hrun Hok Hcontract) as Hslots.
  eapply Forall_impl; [exact Hslots |].
  intros a (b & Hin & Hlo & Hhi & _). exists b. split; [exact Hin |].
  rewrite Forall_forall in H16.
  destruct (area_of_pointer_aligned_block T b Hal
              (allocator_ok_block T _ b Hok Hin) (H16 b Hin)) as [Hl Hh].
  lia.
Qed.

Lemma chunks_inside_blocks_witness :
  exists log p e,
    run Node [Reserve 2; Allocate; Allocate; Allocate; Deallocate 4104; Allocate]
        (mkPool 0 0 1024 F32.two 0 0) (fresh_env [4096; 65536]) = Some (log, p, e)
    /\ Forall (fun a => exists b, b ∈ blocks (trace e)
                                  /\ snd b + 8 <= a
                                  /\ a + sizeofT Node <= snd b + fst b)
              (allocated log).
Proof.
  eexists _, _, _. split; [vm_compute; reflexivity |].
  eapply (chunks_inside_blocks Node F32.two [4096; 65536]
            [Reserve 2; Allocate; Allocate; Allocate; Deallocate 4104; Allocate]
            (mkPool 0 0 1024 F32.two 0 0)).
  - split; [unfold ptr_size, modulus, Node; cbn [sizeofT]; lia |].
    split; [exists 3; split; [lia | reflexivity] | reflexivity].
  - reflexivity.
  - reflexivity.
  - vm_compute; reflexivity.
  - reflexivity.
  - vm_compute; reflexivity.
  - repeat constructor.
Defined.

(** X7: along a contract-respecting run of a fresh pool whose requests are
    all served with chunk areas clear of each other, the pool invariant
    holds at the end: the free-chunk list is a null-terminated linked list
    in memory that holds no chunk twice and none the client holds; all
    these chunks are chunks of acquired blocks, and none lies in the
    uncarved tail of the current block. *)
Theorem run_keeps_pool_invariant (T : CType) (g : spec_float) (answers : list Z)
    (ops : list op) (p0 p : MemoryPool) (e : Env) (log : list call) :
  type_ok T ->
  construct T g = Some p0 ->
  run T ops p0 (fresh_env answers) = Some (log, p, e) ->
  respects_contract [] log = true ->
  allocator_ok T (blocks (trace e)) = true ->
  pool_inv T p e (live_after [] log).
Proof.
  intros HT Hnew Hrun Hcontract Hok.
  eapply run_inv; eauto using construct_inv.
Qed.

Lemma run_keeps_pool_invariant_witness :
  exists log p e,
    run Node [Reserve 2; Allocate; Allocate; Allocate; Deallocate 4104]
        (mkPool 0 0 1024 F32.two 0 0) (fresh_env [4096; 65536]) = Some (log, p, e)
    /\ pool_inv Node p e (live_after [] log).
Proof.
  eexists _, _, _. split; [vm_compute; reflexivity |].
  eapply (run_keeps_pool_invariant Node F32.two [4096; 65536]
            [Reserve 2; Allocate; Allocate; Allocate; Deallocate 4104]
            (mkPool 0 0 1024 F32.two 0 0)).
  - split; [unfold ptr_size, modulus, Node; cbn [sizeofT]; lia |].
    split; [exists 3; split; [lia | reflexivity] | reflexivity].
  - reflexivity.
  - vm_compute; reflexivity.
  - reflexivity.
  - vm_compute; reflexivity.
Defined.

(** ** Carving *)

Lemma carve_many (T : CType) (k : nat) :
  forall (p : MemoryPool) (e : Env),
    0 < sizeofT T -> 0 < alignofT T -> sizeofT T mod alignofT T = 0 ->
    mChunkList p = 0 ->
    mCurrentBlock p mod alignofT T = 0 ->
    0 <= mCurrentBlock p ->
    mCurrentBlock p + Z.of_nat k * sizeofT T <= mCurrentBlockEnd p ->
    mCurrentBlockEnd p < modulus ->
    allocate_many T k p e
    = Some (slots (sizeofT T) (mCurrentBlock p) k,
            set_cursor (mCurrentBlock p + Z.of_nat k * sizeofT T)
                       (mCurrentBlockEnd p) p, e).
Proof.
  induction k as [| k IH]; intros p e Hsz Hal Hmul Hfree Hca Hc0 Hfit Hend.
  - cbn. rewrite Z.add_0_r. destruct p; reflexivity.
  - cbn [allocate_many slots].
    rewrite allocate_carve; [| exact Hfree | | exact Hca].
    2:{ unfold has_room. rewrite wrap_small by nia. apply Z.leb_le. nia. }
    rewrite wrap_small by nia.
    rewrite IH; cbn [mChunkList mCurrentBlock mCurrentBlockEnd set_cursor];
      try assumption; try nia.
    + replace (mCurrentBlock p + sizeofT T + Z.of_nat k * sizeofT T)
        with (mCurrentBlock p + Z.of_nat (S k) * sizeofT T) by lia.
      reflexivity.
    + rewrite Z.add_mod, Hca, Hmul by lia. reflexivity.
Qed.

(** X8: while the free list is empty and the current block has room for
    [k] more chunks, [k] calls of [allocate] return the [k] consecutive
    chunks at the cursor, [sizeof(T)] apart, advance the cursor past them,
    and neither call the allocator nor write memory. *)
Theorem allocate_carves_consecutive_chunks (T : CType) (k : nat)
    (p : MemoryPool) (e : Env) :
  type_ok T ->
  mChunkList p = 0 ->
  mCurrentBlock p mod alignofT T = 0 ->
  0 <= mCurrentBlock p ->
  mCurrentBlock p + Z.of_nat k * sizeofT T <= mCurrentBlockEnd p ->
  mCurrentBlockEnd p < modulus ->
  exists p',
    allocate_many T k p e = Some (slots (sizeofT T) (mCurrentBlock p) k, p', e)
    /\ mCurrentBlock p' = mCurrentBlock p + Z.of_nat k * sizeofT T
    /\ mCurrentBlockEnd p' = mCurrentBlockEnd p
    /\ NoDup (slots (sizeofT T) (mCurrentBlock p) k).
Proof.
  intros HT Hfree Hca Hc0 Hfit Hend.
  destruct (type_facts T HT) as (Hsz & Hal & Hmul & _).
  eexists. split; [apply carve_many; auto; lia |].
  split; [reflexivity |]. split; [reflexivity |].
  apply slots_NoDup. exact HT.
Qed.

Lemma allocate_carves_consecutive_chunks_witness :
  exists p',
    allocate_many Node 3 (mkPool 4096 0 2048 F32.two 4104 20488) (fresh_env [])
    = Some (slots 16 4104 3, p', fresh_env [])
    /\ mCurrentBlock p' = 4104 + Z.of_nat 3 * 16
    /\ mCurrentBlockEnd p' = 20488
    /\ NoDup (slots 16 4104 3).
Proof.
  apply (allocate_carves_consecutive_chunks Node 3
           (mkPool 4096 0 2048 F32.two 4104 20488) (fresh_env [])).
  - split; [unfold ptr_size, modulus, Node; cbn [sizeofT]; lia |].
    split; [exists 3; split; [lia | reflexivity] | reflexivity].
  - reflexivity.
  - reflexivity.
  - cbn; lia.
  - cbn; lia.
  - cbn; unfold modulus; lia.
Defined.

(** X9: a pool constructed with the default growth factor serves its
    first [k <= 1024] calls of [allocate] with a single request to the
    allocator, for 1024 chunks, and returns [k] consecutive chunks starting
    at the aligned address after the block header (whether or not the
    request was served). *)
Theorem first_block_serves_1024 (T : CType) (k : nat) (answers : list Z)
    (p0 : MemoryPool) :
  type_ok T ->
  construct T F32.two = Some p0 ->
  (1 <= k <= 1024)%nat ->
  let m := next_answer (fresh_env answers) in
  let c0 := align_raw (wrap (m + ptr_size)) (alignofT T) in
  c0 + 1024 * sizeofT T < modulus ->
  exists p1 e1,
    allocate_many T k p0 (fresh_env answers)
    = Some (slots (sizeofT T) c0 k, p1, e1)
    /\ trace e1 = [EvMalloc (wrap (wrap (1024 * sizeofT T) + alignofT T)) m]
    /\ mNextAllocSize p1 = 2048.
Proof.
  intros HT Hnew Hk m c0 Hfit.
  destruct (type_facts T HT) as (Hsz & Hal & Hmul & j & Hj & Hpow).
  apply construct_spec in Hnew. subst p0.
  assert (Hcr : 0 <= c0 < modulus) by apply wrap_range.
  assert (Hca : c0 mod alignofT T = 0)
    by (subst c0; rewrite Hpow; apply align_raw_aligned; lia).
  destruct (callMalloc_total T (mkPool 0 0 1024 F32.two 0 0) (fresh_env answers)
              2048 eq_refl) as (p1 & e1 & Hc).
  destruct (callMalloc_spec T _ _ _ _ _ Hc)
    as (_ & Htr & _ & Hg & Hcl & _).
  cbn [mChunkList] in Hcl.
  destruct k as [| k]; [lia |]. cbn [allocate_many slots].
  rewrite (allocate_acquire T j (mkPool 0 0 1024 F32.two 0 0) p1
             (fresh_env answers) e1 m Hpow Hj eq_refl); cycle 1.
  { unfold has_room. cbn [mCurrentBlock mCurrentBlockEnd].
    rewrite Z.add_0_l, wrap_small by lia. apply Z.leb_gt. lia. }
  { exact Hc. }
  { fold c0. cbn [mNextAllocSize].
    rewrite (wrap_small (1024 * sizeofT T)), !wrap_small by lia. lia. }
  fold c0. cbn [mNextAllocSize].
  rewrite (wrap_small (1024 * sizeofT T)), !wrap_small by lia.
  rewrite carve_many; cbn [mChunkList mCurrentBlock mCurrentBlockEnd set_cursor];
    try assumption; try lia; try nia.
  - eexists _, _. split; [reflexivity |].
    cbn [trace mNextAllocSize set_cursor]. split.
    { rewrite Htr. unfold bytesToAlloc. cbn [mNextAllocSize trace fresh_env].
      rewrite ?(wrap_small (1024 * sizeofT T)) by lia. reflexivity. }
    rewrite grown_default_1024 in Hg. congruence.
  - rewrite Z.add_mod, Hca, Hmul by lia. reflexivity.
Qed.

Lemma first_block_serves_1024_witness :
  exists p1 e1,
    allocate_many Node 1024 (mkPool 0 0 1024 F32.two 0 0) (fresh_env [4096])
    = Some (slots 16 4104 1024, p1, e1)
    /\ trace e1 = [EvMalloc (wrap (wrap (1024 * 16) + 8)) 4096]
    /\ mNextAllocSize p1 = 2048.
Proof.
  apply (first_block_serves_1024 Node 1024 [4096] (mkPool 0 0 1024 F32.two 0 0)).
  - split; [unfold ptr_size, modulus, Node; cbn [sizeofT]; lia |].
    split; [exists 3; split; [lia | reflexivity] | reflexivity].
  - reflexivity.
  - lia.
  - vm_compute; reflexivity.
Defined.

(** ** The growth of the count *)

Lemma same_exact (n : Z) :
  0 < n < 2 ^ 24 ->
  F32.to_size_t (F32.mul (F32.of_size_t n) F32.one) = Some n.
Proof.
  intros Hn. destruct n as [| m | m]; try lia.
  destruct (of_size_t_small m ltac:(lia)) as (mz & -> & Hdz & Hval).
  pose proof (digits2_bounds m) as Hd.
  set (d := Z.pos (digits2_pos m)) in *.
  assert (Hd24 : 1 <= d <= 24).
  { split; [subst d; lia |].
    destruct (Z.le_gt_cases d 24) as [| Hgt]; [assumption |].
    assert (2 ^ 24 <= 2 ^ (d - 1)) by (apply Z.pow_le_mono_r; lia). lia. }
  unfold F32.mul, F32.one, SFmul, F32.prec, F32.emax. cbn [xorb].
  replace (mz * 8388608)%positive with (Pos.iter xO mz 23).
  2:{ apply Pos2Z.inj. rewrite iter_xO_value, Pos2Z.inj_mul. reflexivity. }
  rewrite round_aux_shift by lia.
  unfold F32.to_size_t.
  destruct (Z.leb_spec 0 (d - 24 + -23 + 23)) as [Hpos | Hneg].
  - assert (Hc : d = 24) by lia. rewrite Hc in *.
    change (24 - 24 + -23 + 23) with 0. change (2 ^ 0) with 1.
    change (2 ^ (24 - 24)) with 1 in Hval.
    replace (Z.pos mz * 1 <? modulus) with true
      by (symmetry; apply Z.ltb_lt; unfold modulus; lia).
    f_equal. lia.
  - replace (- (d - 24 + -23 + 23)) with (24 - d) by lia.
    assert (Hp : 0 < 2 ^ (24 - d)) by (apply Z.pow_pos_nonneg; lia).
    assert (Hv : Z.pos mz / 2 ^ (24 - d) = Z.pos m)
      by (rewrite Hval; apply Z.div_mul; lia).
    rewrite Hv.
    replace (Z.pos m <? modulus) with true
      by (symmetry; apply Z.ltb_lt; unfold modulus; lia).
    reflexivity.
Qed.

(** X10: every call of [callMalloc] grows the count, also when [malloc]
    failed: under the default factor 2.0 a count below [2^24] is doubled
    exactly, and under the factor 1.0 it stays what it was; a failed
    request leaves the block list and memory untouched. *)
Theorem count_grows_on_every_request (T : CType) (p : MemoryPool) (e : Env) :
  0 < mNextAllocSize p < 2 ^ 24 ->
  mAllocSizeGrow p = F32.two \/ mAllocSizeGrow p = F32.one ->
  exists p1 e1,
    callMalloc T p e = Some (next_answer e, p1, e1)
    /\ (mAllocSizeGrow p = F32.two -> mNextAllocSize p1 = 2 * mNextAllocSize p)
    /\ (mAllocSizeGrow p = F32.one -> mNextAllocSize p1 = mNextAllocSize p)
    /\ (next_answer e = 0 ->
        mBlockList p1 = mBlockList p /\ heap_of e1 = heap_of e).
Proof.
  intros Hn Hg.
  assert (Hgrown : exists g, grown p = Some g
                     /\ (mAllocSizeGrow p = F32.two -> g = 2 * mNextAllocSize p)
                     /\ (mAllocSizeGrow p = F32.one -> g = mNextAllocSize p)).
  { unfold grown. destruct Hg as [Hg | Hg]; rewrite Hg.
    - rewrite double_exact by exact Hn. eexists. split; [reflexivity |].
      split; [auto | intros Habs; discriminate].
    - rewrite same_exact by exact Hn. eexists. split; [reflexivity |].
      split; [intros Habs; discriminate | auto]. }
  destruct Hgrown as (g & Hgr & H2 & H1).
  destruct (callMalloc_total T p e g Hgr) as (p1 & e1 & Hc).
  destruct (callMalloc_spec T _ _ _ _ _ Hc)
    as (_ & _ & _ & Hg' & _ & _ & _ & _ & Hnull & _).
  exists p1, e1. split; [exact Hc |].
  assert (g = mNextAllocSize p1) by congruence. subst g. auto.
Qed.

Lemma count_grows_on_every_request_witness :
  exists p1 e1,
    callMalloc Node (mkPool 0 0 1024 F32.two 0 0) (fresh_env [])
    = Some (next_answer (fresh_env []), p1, e1)
    /\ (F32.two = F32.two -> mNextAllocSize p1 = 2 * 1024)
    /\ (F32.two = F32.one -> mNextAllocSize p1 = 1024)
    /\ (next_answer (fresh_env []) = 0 ->
        mBlockList p1 = 0 /\ heap_of e1 = heap_of (fresh_env [])).
Proof.
  apply (count_grows_on_every_request Node (mkPool 0 0 1024 F32.two 0 0)
           (fresh_env [])).
  - cbn; lia.
  - left; reflexivity.
Defined.

(** ** Overflow in [reserve] *)

Lemma reserve_loop_done (T : CType) (fuel : nat) (c l : Z) (h : gmap Z Z) :
  reserve_loop T fuel c c l h = Some (l, h).
Proof. destruct fuel; cbn [reserve_loop]; rewrite Z.eqb_refl; reflexivity. Qed.

(** X11: when [n * sizeof(T)] is a multiple of [2^64], so that the byte
    count wraps to zero, [reserve(n)] asks the allocator for [alignof(T)]
    bytes only and returns without linking a single chunk: the free list
    is what it was, although the count is set to [n] times the factor. *)
Theorem reserve_overflow_links_nothing (T : CType) (k n g : Z)
    (p : MemoryPool) (e : Env) :
  alignofT T = 2 ^ k -> 0 <= k <= 63 ->
  n <> 0 ->
  wrap (n * sizeofT T) = 0 ->
  F32.to_size_t (F32.mul (F32.of_size_t n) (mAllocSizeGrow p)) = Some g ->
  exists p1 e1,
    reserve T n p e = Some (p1, e1)
    /\ trace e1 = EvMalloc (alignofT T) (next_answer e) :: trace e
    /\ mChunkList p1 = mChunkList p
    /\ mNextAllocSize p1 = g.
Proof.
  intros Hal Hk Hn Hwrap Hg.
  assert (Hpow : 0 < 2 ^ k) by (apply Z.pow_pos_nonneg; lia).
  assert (Hallt : 2 ^ k < modulus)
    by (unfold modulus; apply Z.pow_lt_mono_r; lia).
  destruct (callMalloc_total T (set_next n p) e g Hg) as (p' & e' & Hc).
  destruct (callMalloc_spec T _ _ _ _ _ Hc)
    as (_ & Htr & _ & Hg' & Hcl & _).
  cbn [mChunkList set_next] in Hcl.
  unfold reserve.
  destruct (Z.eqb_spec n 0) as [| _]; [contradiction |]. cbn [negb].
  rewrite (alignedMalloc_runs T k _ _ _ _ _ Hal Hk Hc).
  set (c := align_raw (wrap (next_answer e + ptr_size)) (alignofT T)).
  assert (Hc0 : c <> 0) by (subst c; rewrite Hal; apply align_raw_nonnull; lia).
  assert (Hcr : 0 <= c < modulus) by apply wrap_range.
  destruct (Z.eqb_spec c 0) as [| _]; [contradiction |].
  cbn [mNextAllocSize set_next]. rewrite Hwrap, Z.add_0_r, (wrap_small c) by lia.
  rewrite reserve_loop_done.
  eexists _, _. split; [reflexivity |].
  cbn [trace set_heap mChunkList mNextAllocSize set_chunks].
  split.
  { rewrite Htr. unfold bytesToAlloc. cbn [mNextAllocSize set_next].
    rewrite Hwrap, Z.add_0_l, Hal, wrap_small by lia. reflexivity. }
  split; [exact Hcl |].
  unfold grown in Hg'. cbn [mNextAllocSize mAllocSizeGrow set_next] in Hg'. congruence.
Qed.

Lemma reserve_overflow_links_nothing_witness :
  exists p1 e1,
    reserve Node (2 ^ 60) (mkPool 0 0 1024 F32.two 0 0) (fresh_env [4096])
    = Some (p1, e1)
    /\ trace e1 = EvMalloc (alignofT Node) (next_answer (fresh_env [4096]))
                  :: trace (fresh_env [4096])
    /\ mChunkList p1 = 0
    /\ mNextAllocSize p1 = 2 ^ 61.
Proof.
  apply (reserve_overflow_links_nothing Node 3 (2 ^ 60) (2 ^ 61)
           (mkPool 0 0 1024 F32.two 0 0) (fresh_env [4096])).
  - reflexivity.
  - lia.
  - discriminate.
  - vm_compute; reflexivity.
  - vm_compute; reflexivity.
Defined.

(** ** What the calls write *)

(** X12: [allocate] writes no memory when it pops the free list or carves
    from the current block, and otherwise at most the 8 bytes at the start
    of the block it acquires; [deallocate] writes only the 8 bytes at the
    pointer it is given, calls the allocator never, and changes no field of
    the pool but the head of the free list. *)
Theorem calls_write_link_words_only (T : CType) (p p1 : MemoryPool) (e e1 : Env) :
  (forall a,
      allocate T p e = Some (a, p1, e1) ->
      (mChunkList p <> 0 \/ has_room T p = true -> heap_of e1 = heap_of e)
      /\ (next_answer e + 8 <= modulus ->
          forall x, 0 <= x < modulus ->
                    x < next_answer e \/ next_answer e + 8 <= x ->
                    load8 (heap_of e1) x = load8 (heap_of e) x))
  /\ (forall ptr,
        deallocate ptr p e = Some (p1, e1) ->
        0 <= ptr -> ptr + 8 <= modulus ->
        (forall x, 0 <= x < modulus -> x < ptr \/ ptr + 8 <= x ->
                   load8 (heap_of e1) x = load8 (heap_of e) x)
        /\ trace e1 = trace e
        /\ p1 = set_chunks ptr p).
Proof.
  split.
  - intros a. unfold allocate.
    destruct (Z.eqb_spec (mChunkList p) 0) as [Hfree | Hfree];
      unfold PointerList.pop, PointerList.nonempty.
    + rewrite Hfree. cbn [Z.eqb negb].
      destruct (has_room T p) eqn:Hroom.
      * destruct (createChunk T p) as [[c p'] |]; [| discriminate].
        intros [= <- <- <-]. auto.
      * unfold allocBlock.
        destruct (alignedMalloc T p e) as [[[c p'] e'] |] eqn:Ham; [| discriminate].
        destruct (alignedMalloc_spec _ _ _ _ _ _ Ham) as [Hc _].
        destruct (callMalloc_spec _ _ _ _ _ _ Hc)
          as (_ & _ & _ & _ & _ & _ & _ & _ & Hnull & Hserved).
        destruct (createChunk T _) as [[c' p''] |]; [| discriminate].
        intros [= <- <- <-]. split; [intros [? | ?]; [contradiction | discriminate] |].
        intros Hm8 x Hx Hout.
        pose proof (wrap_range (hd 0 (oracle e))) as Hr.
        assert (Hm0 : 0 <= next_answer e).
        { unfold next_answer. destruct (oracle e); [lia | apply wrap_range]. }
        destruct (Z.eq_dec (next_answer e) 0) as [Hz | Hnz].
        -- destruct (Hnull Hz) as [_ ->]. reflexivity.
        -- destruct (Hserved Hnz) as [_ ->].
           apply load8_store64_other; lia.
    + destruct (Z.eqb_spec (mChunkList p) 0) as [| _]; [contradiction |]. cbn [negb].
      intros [= <- <- <-]. auto.
  - intros ptr. unfold deallocate.
    destruct (negb (ptr =? 0)); [| discriminate].
    cbn [PointerList.push]. intros [= <- <-] Hp0 Hp8.
    split; [| split; reflexivity].
    intros x Hx Hout. cbn [heap_of set_heap].
    apply load8_store64_other; lia.
Qed.

Lemma calls_write_link_words_only_witness :
  exists p1 e1,
    deallocate 4104 (mkPool 4096 0 2048 F32.two 4120 20488) (fresh_env [])
    = Some (p1, e1)
    /\ (forall x, 0 <= x < modulus -> x < 4104 \/ 4104 + 8 <= x ->
                  load8 (heap_of e1) x = load8 (heap_of (fresh_env [])) x)
    /\ trace e1 = trace (fresh_env [])
    /\ p1 = set_chunks 4104 (mkPool 4096 0 2048 F32.two 4120 20488).
Proof.
  eexists _, _. split; [reflexivity |].
  apply (proj2 (calls_write_link_words_only Node
                  (mkPool 4096 0 2048 F32.two 4120 20488) _ (fresh_env []) _)
           4104).
  - reflexivity.
  - lia.
  - unfold modulus; lia.
Defined.

(** ** The constructor *)

(** X13: on binary32 values, the constructor accepts a growth factor
    exactly when it lies between 1.0 and 2.0, that is when it is
    [m / 2^23] for a 24-bit mantissa [m], or 2.0, and the type is at least
    a pointer wide; NaN, infinities, zeros, negative factors and factors
    below 1 or above 2 abort.  An accepted pool is empty, with count 1024
    and a null cursor. *)
Theorem constructor_accepts_factors_1_to_2 (T : CType) (g : spec_float) :
  valid_binary F32.prec F32.emax g = true ->
  ((exists p, construct T g = Some p)
   <-> ptr_size <= sizeofT T
       /\ ((exists m, g = S754_finite false m (-23)
                      /\ 2 ^ 23 <= Z.pos m < 2 ^ 24)
           \/ g = F32.two))
  /\ (forall p, construct T g = Some p -> p = mkPool 0 0 1024 g 0 0).
Proof.
  intros Hvalid. split; [| intros p; apply construct_spec].
  unfold construct.
  split.
  - intros (p & Hp).
    destruct (Z.leb_spec ptr_size (sizeofT T)) as [Hsz |]; [| discriminate].
    cbn [andb] in Hp. split; [exact Hsz |].
    destruct (F32.leb F32.one g && F32.leb g F32.two) eqn:Hr; [| discriminate].
    destruct g as [s | s | | s m e].
    + destruct s; discriminate.
    + destruct s; discriminate.
    + discriminate.
    + destruct (leb_one_two_finite s m e Hvalid Hr) as [(-> & -> & Hm) | Hg].
      * left. exists m. split; [reflexivity | exact Hm].
      * right. exact Hg.
  - intros (Hsz & Hg).
    replace (ptr_size <=? sizeofT T) with true by (symmetry; apply Z.leb_le; exact Hsz).
    destruct Hg as [(m & -> & Hm) | ->]; [| cbn; eauto].
    unfold F32.leb, SFleb, F32.one, F32.two.
    cbn [andb SFcompare Z.compare Pos.compare].
    pose proof (Pos.compare_spec 8388608 m) as Hs. unfold Pos.compare in Hs.
    destruct Hs as [Heq | Hlt | Hgt]; cbn; eauto.
    apply Pos2Z.pos_lt_pos in Hgt.
    clear - Hm Hgt. change (2 ^ 23) with 8388608 in Hm. lia.
Qed.

Lemma constructor_accepts_factors_1_to_2_witness :
  ((exists p, construct Node F32.two = Some p)
   <-> ptr_size <= sizeofT Node
       /\ ((exists m, F32.two = S754_finite false m (-23)
                      /\ 2 ^ 23 <= Z.pos m < 2 ^ 24)
           \/ F32.two = F32.two))
  /\ (forall p, construct Node F32.two = Some p -> p = mkPool 0 0 1024 F32.two 0 0).
Proof.
  apply (constructor_accepts_factors_1_to_2 Node F32.two). reflexivity.
Defined.

(** ** Contract violations and overflow in [allocate] *)

Lemma allocate_many_on_cycle (T : CType) (a : Z) (k : nat) (q : MemoryPool) (e : Env) :
  a <> 0 -> mChunkList q = a -> load64 (heap_of e) a = a ->
  allocate_many T k q e = Some (replicate k a, q, e).
Proof.
  intros Ha Hhead Hlink. induction k as [| k IH]; [reflexivity |].
  cbn [allocate_many replicate].
  rewrite allocate_pop by congruence. rewrite Hhead, Hlink.
  replace (set_chunks a q) with q by (destruct q; cbn in *; subst; reflexivity).
  rewrite IH. reflexivity.
Qed.

(** X16: when the same non-null pointer is deallocated twice in a row, the
    free list becomes a cycle on it: every later [allocate], however many,
    returns that one pointer, without ever calling the allocator. *)
Theorem double_deallocate_makes_a_cycle (T : CType) (a : Z) (k : nat)
    (p : MemoryPool) (e : Env) :
  0 < a -> a + 8 <= modulus ->
  exists p2 e2,
    run T [Deallocate a; Deallocate a] p e
    = Some ([Deallocated a; Deallocated a], p2, e2)
    /\ allocate_many T k p2 e2 = Some (replicate k a, p2, e2)
    /\ trace e2 = trace e.
Proof.
  intros Ha0 Ha8. cbn [run step]. unfold deallocate.
  destruct (Z.eqb_spec a 0) as [| _]; [lia |].
  cbn [negb PointerList.push mChunkList set_chunks heap_of set_heap].
  eexists _, _. split; [reflexivity |]. split; [| reflexivity].
  apply allocate_many_on_cycle; [lia | reflexivity |].
  cbn [heap_of set_heap].
  apply load64_store64_same; unfold modulus in *; lia.
Qed.

Lemma double_deallocate_makes_a_cycle_witness :
  exists p2 e2,
    run Node [Deallocate 4104; Deallocate 4104]
        (mkPool 4096 0 2048 F32.two 4120 20488) (fresh_env [])
    = Some ([Deallocated 4104; Deallocated 4104], p2, e2)
    /\ allocate_many Node 5 p2 e2 = Some (replicate 5 4104, p2, e2)
    /\ trace e2 = trace (fresh_env []).
Proof.
  apply (double_deallocate_makes_a_cycle Node 4104 5
           (mkPool 4096 0 2048 F32.two 4120 20488) (fresh_env [])).
  - lia.
  - unfold modulus; lia.
Defined.

(** X17: when [allocate] has to acquire a block and the byte size
    [count * sizeof(T)] wraps to less than one object, the cursor it sets
    up has no room for a chunk and the assertion of [createChunk] fails:
    the call aborts instead of returning a chunk. *)
Theorem allocate_aborts_on_wrapped_block (T : CType) (k : Z)
    (p : MemoryPool) (e : Env) :
  alignofT T = 2 ^ k -> 0 <= k <= 63 ->
  mChunkList p = 0 -> has_room T p = false ->
  let c := align_raw (wrap (next_answer e + ptr_size)) (alignofT T) in
  wrap (mNextAllocSize p * sizeofT T) < sizeofT T ->
  c + sizeofT T < modulus ->
  allocate T p e = None.
Proof.
  intros Hal Hk Hfree Hroom c Hwrap Hfit.
  pose proof (wrap_range (mNextAllocSize p * sizeofT T)) as Hw.
  assert (Hcr : 0 <= c < modulus) by apply wrap_range.
  unfold allocate, allocBlock. rewrite Hfree, Hroom.
  cbn [PointerList.nonempty Z.eqb negb].
  destruct (alignedMalloc T p e) as [[[a p'] e'] |] eqn:Ham; [| reflexivity].
  destruct (alignedMalloc_spec _ _ _ _ _ _ Ham) as [_ Ha].
  rewrite Hal in Ha. rewrite align_succeeds in Ha by lia. injection Ha as <-.
  rewrite <- Hal. fold c.
  unfold createChunk, has_room. cbn [mCurrentBlock mCurrentBlockEnd set_cursor].
  rewrite !wrap_small by lia.
  replace (c + sizeofT T <=? c + wrap (mNextAllocSize p * sizeofT T)) with false
    by (symmetry; apply Z.leb_gt; lia).
  reflexivity.
Qed.

Lemma allocate_aborts_on_wrapped_block_witness :
  allocate Node (mkPool 0 0 (2 ^ 60) F32.two 0 0) (fresh_env [4096]) = None.
Proof.
  apply (allocate_aborts_on_wrapped_block Node 3
           (mkPool 0 0 (2 ^ 60) F32.two 0 0) (fresh_env [4096])).
  - reflexivity.
  - lia.
  - reflexivity.
  - reflexivity.
  - vm_compute; reflexivity.
  - vm_compute; reflexivity.
Defined.

(** ** Instances of the run-wide properties *)

Lemma no_reissue_when_served_witness :
  exists log p e,
    run Node [Reserve 2; Allocate; Allocate; Allocate; Deallocate 4104; Allocate]
        (mkPool 0 0 1024 F32.two 0 0) (fresh_env [4096; 65536]) = Some (log, p, e)
    /\ never_reissued [] log = true.
Proof.
  eexists _, _, _. split; [vm_compute; reflexivity |].
  eapply (no_reissue_when_served Node F32.two [4096; 65536]
            [Reserve 2; Allocate; Allocate; Allocate; Deallocate 4104; Allocate]
            (mkPool 0 0 1024 F32.two 0 0)).
  - split; [unfold ptr_size, modulus, Node; cbn [sizeofT]; lia |].
    split; [exists 3; split; [lia | reflexivity] | reflexivity].
  - reflexivity.
  - vm_compute; reflexivity.
  - reflexivity.
  - vm_compute; reflexivity.
Defined.

Lemma teardown_when_tidy_witness :
  exists log p e,
    run Node [Reserve 2; Allocate; Allocate; Allocate; Deallocate 4104]
        (mkPool 0 0 1024 F32.two 0 0) (fresh_env [4096; 65536]) = Some (log, p, e)
    /\ releases (trace e) = []
    /\ exists p' e',
         destroy (length (acquired (trace e))) p e = Some (p', e')
         /\ mBlockList p' = 0
         /\ releases (trace e') = rev (acquired (trace e)).
Proof.
  eexists _, _, _. split; [vm_compute; reflexivity |].
  eapply (teardown_when_tidy Node F32.two [4096; 65536]
            [Reserve 2; Allocate; Allocate; Allocate; Deallocate 4104]
            (mkPool 0 0 1024 F32.two 0 0)).
  - split; [unfold ptr_size, modulus, Node; cbn [sizeofT]; lia |].
    split; [exists 3; split; [lia | reflexivity] | reflexivity].
  - reflexivity.
  - vm_compute; reflexivity.
  - reflexivity.
  - vm_compute; reflexivity.
Defined.
